(** * uridx: the relational store, its two side indexes and the tool façade

    A shallow embedding of [uridx/db/operations.py], [uridx/db/engine.py]
    and [uridx/mcp/server.py].  The store is a value of type [DB]; every
    operation is a function from a store to the store it leaves behind
    together with what the Python function returns or raises.  A session
    that raises rolls back; what a raw connection committed before that
    stays. *)

From stdpp Require Import gmap strings list fin_maps pretty.
From Stdlib Require Import ZArith DecimalString.
From Stdlib Require DecimalNat DecimalFacts.

Open Scope string_scope.
Open Scope list_scope.
Open Scope stdpp_scope.
Open Scope nat_scope.

(** ** Python values *)

(** What a call produces: a returned value or a raised exception. *)
Inductive exn : Type :=
  | IntegrityError     (* a UNIQUE / PRIMARY KEY constraint failed *)
  | OperationalError   (* SQLite refused a statement *)
  | ValueError         (* int() of a non-numeric string *)
  | ConnectionError.   (* the embedding service could not be reached *)

Inductive outcome (A : Type) : Type :=
  | Returned (a : A)
  | Raised (e : exn).
Arguments Returned {A} a.
Arguments Raised {A} e.

#[global] Instance exn_eq_dec : EqDecision exn.
Proof. solve_decision. Defined.

(** Truthiness of an optional string: [None] and the empty string are
    falsy, as in [if c.chunk_key] and [if c.get("key")]. *)
Definition truthy (s : option string) : bool :=
  match s with
  | Some k => negb (bool_decide (k = ""))
  | None => false
  end.

(** A JSON object carried as chunk metadata; [{}] is falsy. *)
Definition meta_obj : Type := list (string * string).

(** A stored vector: the packed 32-bit words of [serialize_embedding]. *)
Definition embedding : Type := list Z.

(** ** Rows *)

(** Modelled from the spec: the table declarations of [uridx/db/models.py]
    are missing.  The columns are the attributes operations.py and
    server.py read and write, typed as in §3 of the specification; ids are
    rowids, timestamps are readings of the clock. *)
Record Item := mkItem {
  item_id : nat;
  item_source_uri : string;
  item_title : option string;
  item_source_type : option string;
  item_context : option string;
  item_expires_at : option Z;
  item_created_at : Z;
  item_updated_at : Z
}.

Record Chunk := mkChunk {
  chunk_id : nat;
  chunk_item_id : nat;
  chunk_key : option string;
  chunk_index : nat;
  chunk_text : string;
  chunk_meta : option string
}.

Record Tag := mkTag {
  tag_item_id : nat;
  tag : string
}.

#[global] Instance Item_eq_dec : EqDecision Item.
Proof. solve_decision. Defined.
#[global] Instance Chunk_eq_dec : EqDecision Chunk.
Proof. solve_decision. Defined.
#[global] Instance Tag_eq_dec : EqDecision Tag.
Proof. solve_decision. Defined.

(** A row of the contentless FTS table: the [text] and [context] columns;
    the rowid is the key of the map that holds it. *)
Definition fts_row : Type := string * string.

(** ** The store

    The store as [init_db] leaves it: the three relational tables in rowid
    order, the settings, the vec0 table [chunk_embeddings] with the
    dimension its column was declared with, and [chunks_fts]. *)
Record DB := mkDB {
  item_tbl : list Item;
  chunk_tbl : list Chunk;
  tag_tbl : list Tag;
  setting_tbl : gmap string string;
  vec_dim : nat;
  chunk_embeddings : gmap nat embedding;
  chunks_fts : gmap nat fts_row
}.

Definition with_items (f : list Item → list Item) (db : DB) : DB :=
  mkDB (f (item_tbl db)) (chunk_tbl db) (tag_tbl db) (setting_tbl db)
       (vec_dim db) (chunk_embeddings db) (chunks_fts db).
Definition with_chunks (f : list Chunk → list Chunk) (db : DB) : DB :=
  mkDB (item_tbl db) (f (chunk_tbl db)) (tag_tbl db) (setting_tbl db)
       (vec_dim db) (chunk_embeddings db) (chunks_fts db).
Definition with_tags (f : list Tag → list Tag) (db : DB) : DB :=
  mkDB (item_tbl db) (chunk_tbl db) (f (tag_tbl db)) (setting_tbl db)
       (vec_dim db) (chunk_embeddings db) (chunks_fts db).
Definition with_embeddings (f : gmap nat embedding → gmap nat embedding)
    (db : DB) : DB :=
  mkDB (item_tbl db) (chunk_tbl db) (tag_tbl db) (setting_tbl db)
       (vec_dim db) (f (chunk_embeddings db)) (chunks_fts db).
Definition with_fts (f : gmap nat fts_row → gmap nat fts_row) (db : DB) : DB :=
  mkDB (item_tbl db) (chunk_tbl db) (tag_tbl db) (setting_tbl db)
       (vec_dim db) (chunk_embeddings db) (f (chunks_fts db)).

(** An ORM object with its relationships loaded, as [add_item] and
    [get_item] hand it out after [session.expunge]. *)
Record ItemView := mkView {
  view_item : Item;
  view_chunks : list Chunk;
  view_tags : list Tag
}.

(** ** Queries *)

(** [select(Item).where(Item.source_uri == source_uri)] followed by
    [.first()]. *)
Definition select_item (source_uri : string) (db : DB) : option Item :=
  head (filter (λ i, item_source_uri i = source_uri) (item_tbl db)).

(** The lazy loads [item.chunks] and [item.tags]. *)
Definition item_chunks (item_pk : nat) (db : DB) : list Chunk :=
  filter (λ c, chunk_item_id c = item_pk) (chunk_tbl db).
Definition item_tags (item_pk : nat) (db : DB) : list Tag :=
  filter (λ t, tag_item_id t = item_pk) (tag_tbl db).

Definition load_view (item : Item) (db : DB) : ItemView :=
  mkView item (item_chunks (item_id item) db) (item_tags (item_id item) db).

(** The rowid SQLite gives the next row of a table whose INTEGER PRIMARY
    KEY is left to the store: one more than the largest one in use. *)
Definition next_rowid (ids : list nat) : nat := S (max_list ids).

(** ** Triggers of engine.py: the only writers of [chunks_fts] *)

Definition fts_context (item_pk : nat) (db : DB) : string :=
  (* COALESCE((SELECT context FROM item WHERE id = ...), '') *)
  match head (filter (λ i, item_id i = item_pk) (item_tbl db)) with
  | Some i => default "" (item_context i)
  | None => ""
  end.

(** [INSERT INTO chunks_fts(chunks_fts, rowid, text, context)
    SELECT 'delete', ...]: the FTS5 ['delete'] command.  [init_db] creates
    [chunks_fts] with [content=''] and [contentless_delete=1], and FTS5
    refuses the command on such a table, whatever row it names: the
    statement raises and writes nothing. *)
Definition fts_delete_command (rowid : nat) (row : fts_row) (db : DB)
    : outcome DB :=
  Raised OperationalError.

Definition chunks_ai (new : Chunk) (db : DB) : DB :=
  with_fts (insert (chunk_id new)
              (chunk_text new, fts_context (chunk_item_id new) db)) db.

Definition chunks_ad (old : Chunk) (db : DB) : outcome DB :=
  fts_delete_command (chunk_id old)
    (chunk_text old, fts_context (chunk_item_id old) db) db.

Definition chunks_au (old new : Chunk) (db : DB) : outcome DB :=
  match fts_delete_command (chunk_id old)
          (chunk_text old, fts_context (chunk_item_id old) db) db with
  | Raised e => Raised e
  | Returned db => Returned (chunks_ai new db)
  end.

(** ** Statements on the [chunk] table, each with its trigger *)

Definition insert_chunk (c : Chunk) (db : DB) : DB :=
  chunks_ai c (with_chunks (λ t, t ++ [c]) db).

Definition delete_chunk (c : Chunk) (db : DB) : outcome DB :=
  chunks_ad c (with_chunks (filter (λ c', chunk_id c' ≠ chunk_id c)) db).

(** The unit of work emits an UPDATE only for an object whose columns
    changed; an unchanged object fires no trigger. *)
Definition update_chunk (old new : Chunk) (db : DB) : outcome DB :=
  if decide (old = new) then Returned db
  else chunks_au old new
         (with_chunks (fmap (λ c, if decide (chunk_id c = chunk_id old)
                                  then new else c)) db).

(** The statements of one flush, in order: the first that raises ends the
    flush. *)
Fixpoint run_all {A : Type} (stmt : A → DB → outcome DB) (xs : list A)
    (db : DB) : outcome DB :=
  match xs with
  | [] => Returned db
  | x :: xs' =>
      match stmt x db with
      | Raised e => Raised e
      | Returned db' => run_all stmt xs' db'
      end
  end.

(** [DELETE FROM chunk_embeddings WHERE chunk_id IN (...)] on the raw
    connection, committed at once.  The raw connection is taken to get its
    write through: contention with the session's connection for the write
    lock of the database file is not modelled. *)
Definition vec_delete_in (chunk_ids : list nat) (db : DB) : DB :=
  with_embeddings (λ m, foldr delete m chunk_ids) db.

(** ** What this repository's code leaves to its collaborators

    [uridx.embeddings.ollama], [json], [uridx.config] and the table
    declarations of [uridx.db.models] are not part of the modelled files;
    the operations take them as parameters. *)
Class Collaborators := {
  (** [get_embeddings_sync(texts, OLLAMA_EMBED_MODEL, OLLAMA_BASE_URL)] *)
  get_embeddings_sync : list string → outcome (list embedding);
  (** [get_dimension(OLLAMA_EMBED_MODEL, OLLAMA_BASE_URL)] *)
  get_dimension : outcome nat;
  OLLAMA_EMBED_MODEL : string;
  json_dumps : meta_obj → string;
  (** Whether the [tag] table declares [(item_id, tag)] unique. *)
  tag_unique : bool
}.

(** ** Ingestion records (the keyword arguments of [add_item]) *)

Record ChunkData := mkChunkData {
  cd_text : string;
  cd_key : option string;
  cd_meta : option meta_obj
}.

Record IngestionRecord := mkRecord {
  r_source_uri : string;
  r_title : option string;
  r_source_type : option string;
  r_context : option string;
  r_chunks : option (list ChunkData);
  r_tags : option (list string);
  r_expires_at : option Z;
  r_replace : bool
}.

Section Operations.
Context `{Collaborators}.

(** [json.dumps(meta) if meta else None] *)
Definition dump_meta (meta : option meta_obj) : option string :=
  match meta with
  | Some (kv :: m) => Some (json_dumps (kv :: m))
  | _ => None
  end.

(** Modelled from the spec: the relationship declarations of
    [uridx/db/models.py] are missing; by I5 and §4.1 deleting an Item
    deletes its Chunks and its Tags.  Each chunk goes by its own DELETE, so
    [chunks_ad] fires for it, and raises: the item row and the tag rows
    only go when the item has no chunk row. *)
Definition session_delete_item (item : Item) (db : DB) : outcome DB :=
  match run_all delete_chunk (item_chunks (item_id item) db) db with
  | Raised e => Raised e
  | Returned db =>
      let db := with_tags (filter (λ t, tag_item_id t ≠ item_id item)) db in
      Returned (with_items (filter (λ i, item_id i ≠ item_id item)) db)
  end.

Definition delete_item (source_uri : string) (db : DB)
    : DB * outcome bool :=
  match select_item source_uri db with
  | None => (db, Returned false)
  | Some item =>
      let chunk_ids := chunk_id <$> item_chunks (item_id item) db in
      (* the raw connection: committed on its own *)
      let db1 :=
        match chunk_ids with
        | [] => db
        | _ => vec_delete_in chunk_ids db
        end in
      match session_delete_item item db1 with
      | Raised e => (db1, Raised e)          (* the session rolls back *)
      | Returned db2 => (db2, Returned true)
      end
  end.

Definition get_item (source_uri : string) (db : DB) : option ItemView :=
  match select_item source_uri db with
  | None => None
  | Some item => Some (load_view item db)
  end.

(** *** Writes to the vec0 table *)

(** One INSERT: vec0 refuses a vector whose length is not the declared
    dimension, and a second row for a [chunk_id]. *)
Definition vec_insert (cid : nat) (e : embedding)
    (dim : nat) (m : gmap nat embedding) : option (gmap nat embedding) :=
  if decide (length e = dim) then
    match m !! cid with
    | Some _ => None
    | None => Some (<[cid := e]> m)
    end
  else None.

(** The loop of the insert path: INSERT per pair; one failure loses the
    whole batch, as the connection is only committed after the loop. *)
Fixpoint vec_insert_all (rows : list (nat * embedding))
    (dim : nat) (m : gmap nat embedding) : option (gmap nat embedding) :=
  match rows with
  | [] => Some m
  | (cid, e) :: rows' =>
      match vec_insert cid e dim m with
      | Some m' => vec_insert_all rows' dim m'
      | None => None
      end
  end.

(** The loop of the merge path: DELETE then INSERT per pair. *)
Fixpoint vec_replace_all (rows : list (nat * embedding))
    (dim : nat) (m : gmap nat embedding) : option (gmap nat embedding) :=
  match rows with
  | [] => Some m
  | (cid, e) :: rows' =>
      match vec_insert cid e dim (delete cid m) with
      | Some m' => vec_replace_all rows' dim m'
      | None => None
      end
  end.

(** The embedding step shared by both paths: skipped without texts; the
    provider or the vector table may raise, after the relational commit. *)
Definition embed_chunks
    (write : list (nat * embedding) → nat → gmap nat embedding →
             option (gmap nat embedding))
    (texts : list string) (chunk_records : list nat) (db : DB)
    : DB * outcome unit :=
  match texts with
  | [] => (db, Returned ())
  | _ =>
      match get_embeddings_sync texts with
      | Raised e => (db, Raised e)
      | Returned embeddings =>
          match write (zip chunk_records embeddings) (vec_dim db)
                      (chunk_embeddings db) with
          | Some m => (with_embeddings (λ _, m) db, Returned ())
          | None => (db, Raised OperationalError)
          end
      end
  end.

(** *** Tags *)

(** [session.add(Tag(item_id=..., tag=tag_name))] for each name, flushed in
    order; a row that is already there violates the key when the table
    declares one. *)
Fixpoint insert_tags (rows : list Tag) (tbl : list Tag) : option (list Tag) :=
  match rows with
  | [] => Some tbl
  | r :: rows' =>
      if tag_unique && bool_decide (r ∈ tbl) then None
      else insert_tags rows' (tbl ++ [r])
  end.

(** *** The insert path (no existing item)

    The flush gives the pending chunks their rowids in the order of
    [session.add].  [now] is what [datetime.utcnow()] reads during the
    call; the missing [Item] declaration is taken to stamp [created_at]
    and [updated_at] with it. *)

Definition new_chunk (item_pk cid idx : nat) (chunk_data : ChunkData)
    : Chunk :=
  {| chunk_id := cid;
     chunk_item_id := item_pk;
     chunk_key := cd_key chunk_data;
     chunk_index := idx;
     chunk_text := cd_text chunk_data;
     chunk_meta := dump_meta (cd_meta chunk_data) |}.

Definition insert_path (now : Z) (r : IngestionRecord) (db : DB)
    : DB * outcome ItemView :=
  let chunks := default [] (r_chunks r) in
  let tags := default [] (r_tags r) in
  let item :=
    {| item_id := next_rowid (item_id <$> item_tbl db);
       item_source_uri := r_source_uri r;
       item_title := r_title r;
       item_source_type := r_source_type r;
       item_context := r_context r;
       item_expires_at := r_expires_at r;
       item_created_at := now;
       item_updated_at := now |} in
  let db1 := with_items (λ t, t ++ [item]) db in
  let first_id := next_rowid (chunk_id <$> chunk_tbl db1) in
  let chunk_records :=
    imap (λ idx, new_chunk (item_id item) (first_id + idx) idx) chunks in
  let texts_to_embed := cd_text <$> chunks in
  let db2 := foldl (λ d c, insert_chunk c d) db1 chunk_records in
  match insert_tags (mkTag (item_id item) <$> tags) (tag_tbl db2) with
  | None => (db, Raised IntegrityError)   (* the session rolls back *)
  | Some tag_rows =>
      let db3 := with_tags (λ _, tag_rows) db2 in
      match embed_chunks vec_insert_all texts_to_embed
                         (chunk_id <$> chunk_records) db3 with
      | (db4, Raised e) => (db4, Raised e)
      | (db4, Returned _) => (db4, Returned (load_view item db4))
      end
  end.

(** *** The merge path (existing item, no replace) *)

(** [{c.chunk_key: c for c in existing.chunks if c.chunk_key}]: a later
    chunk with the same key takes the entry.  The dict holds the ORM
    objects themselves; an object is named here by its primary key. *)
Definition existing_keys_of (cs : list Chunk) : gmap string nat :=
  foldl (λ m c, if truthy (chunk_key c)
                then <[default "" (chunk_key c) := chunk_id c]> m
                else m) ∅ cs.

(** [{c.get("key") for c in chunks if c.get("key")}] *)
Definition new_chunk_keys_of (chunks : list ChunkData) : gset string :=
  list_to_set (default "" <$> filter (λ k, truthy k) (cd_key <$> chunks)).

(** [c.chunk_key and c.chunk_key not in new_chunk_keys] *)
Definition stale (new_chunk_keys : gset string) (c : Chunk) : bool :=
  truthy (chunk_key c)
  && bool_decide (default "" (chunk_key c) ∉ new_chunk_keys).

(** The state the loop over [enumerate(chunks)] threads: the loaded chunk
    objects of the item with their pending attribute changes, the objects
    handed to [session.add], and the two lists the loop appends to. *)
Record merge_state := mkMerge {
  ms_objs : list Chunk;
  ms_new : list Chunk;
  ms_texts : list string;      (* chunks_to_embed *)
  ms_records : list nat        (* chunk_records, by primary key *)
}.

Definition assign (idx : nat) (chunk_data : ChunkData) (c : Chunk) : Chunk :=
  {| chunk_id := chunk_id c;
     chunk_item_id := chunk_item_id c;
     chunk_key := chunk_key c;
     chunk_index := idx;
     chunk_text := cd_text chunk_data;
     chunk_meta := dump_meta (cd_meta chunk_data) |}.

(** [key and key in existing_keys], and then [existing_keys[key]]. *)
Definition target (existing_keys : gmap string nat) (chunk_data : ChunkData)
    : option nat :=
  let key := cd_key chunk_data in
  if truthy key then existing_keys !! default "" key else None.

Definition merge_step (existing_keys : gmap string nat)
    (item_pk first_id idx : nat) (chunk_data : ChunkData) (s : merge_state)
    : merge_state :=
  let text := cd_text chunk_data in
  match target existing_keys chunk_data with
  | Some cid =>
      {| ms_objs := (λ c, if decide (chunk_id c = cid)
                          then assign idx chunk_data c else c) <$> ms_objs s;
         ms_new := ms_new s;
         ms_texts := ms_texts s ++ [text];
         ms_records := ms_records s ++ [cid] |}
  | None =>
      let cid := first_id + length (ms_new s) in
      {| ms_objs := ms_objs s;
         ms_new := ms_new s ++ [new_chunk item_pk cid idx chunk_data];
         ms_texts := ms_texts s ++ [text];
         ms_records := ms_records s ++ [cid] |}
  end.

Fixpoint merge_loop (existing_keys : gmap string nat)
    (item_pk first_id idx : nat) (chunks : list ChunkData) (s : merge_state)
    : merge_state :=
  match chunks with
  | [] => s
  | chunk_data :: chunks' =>
      merge_loop existing_keys item_pk first_id (S idx) chunks'
                 (merge_step existing_keys item_pk first_id idx chunk_data s)
  end.

(** The five attribute assignments on [existing]. *)
Definition set_metadata (now : Z) (r : IngestionRecord) (existing : Item)
    : Item :=
  {| item_id := item_id existing;
     item_source_uri := item_source_uri existing;
     item_title := r_title r;
     item_source_type := r_source_type r;
     item_context := r_context r;
     item_expires_at := r_expires_at r;
     item_created_at := item_created_at existing;
     item_updated_at := now |}.

Definition merge_path (now : Z) (existing : Item) (r : IngestionRecord)
    (db : DB) : DB * outcome ItemView :=
  let chunks := default [] (r_chunks r) in
  let tags := default [] (r_tags r) in
  let item := set_metadata now r existing in
  let loaded := item_chunks (item_id existing) db in
  let existing_keys := existing_keys_of loaded in
  let new_chunk_keys := new_chunk_keys_of chunks in
  let chunks_to_delete := filter (λ c, stale new_chunk_keys c) loaded in
  let chunk_ids_to_delete := chunk_id <$> chunks_to_delete in
  (* the raw connection: committed on its own *)
  let db1 :=
    match chunk_ids_to_delete with
    | [] => db
    | _ => vec_delete_in chunk_ids_to_delete db
    end in
  let s := merge_loop existing_keys (item_id existing)
             (next_rowid (chunk_id <$> chunk_tbl db1)) 0 chunks
             (mkMerge loaded [] [] []) in
  (* the unit of work: UPDATE item, INSERTs, UPDATEs, DELETEs *)
  let db2 := with_items (fmap (λ i, if decide (item_id i = item_id existing)
                                    then item else i)) db1 in
  let db3 := foldl (λ d c, insert_chunk c d) db2 (ms_new s) in
  match run_all (λ oc, update_chunk oc.1 oc.2) (zip loaded (ms_objs s)) db3 with
  | Raised e => (db1, Raised e)            (* the session rolls back *)
  | Returned db4 =>
  match run_all delete_chunk chunks_to_delete db4 with
  | Raised e => (db1, Raised e)            (* the session rolls back *)
  | Returned db5 =>
  match insert_tags (mkTag (item_id existing) <$> tags)
          (filter (λ t, tag_item_id t ≠ item_id existing) (tag_tbl db5)) with
  | None => (db1, Raised IntegrityError)   (* the session rolls back *)
  | Some tag_rows =>
      let db6 := with_tags (λ _, tag_rows) db5 in
      match embed_chunks vec_replace_all (ms_texts s) (ms_records s) db6 with
      | (db7, Raised e) => (db7, Raised e)
      | (db7, Returned _) => (db7, Returned (load_view item db7))
      end
  end end end.

Definition add_item (now : Z) (r : IngestionRecord) (db : DB)
    : DB * outcome ItemView :=
  match select_item (r_source_uri r) db with
  | Some existing =>
      if r_replace r
      then
        match delete_item (r_source_uri r) db with
        | (db', Raised e) => (db', Raised e)
        | (db', Returned _) => insert_path now r db'
        end
      else merge_path now existing r db
  | None => insert_path now r db
  end.

End Operations.

(** ** uridx/db/engine.py: bootstrap *)

Module Engine.

(** What [init_db] looks at on disk: the settings rows, whether
    [chunk_embeddings] exists (and with which dimension), and whether
    [chunks_fts] and its triggers exist. *)
Record Catalog := mkCatalog {
  cat_setting : gmap string string;
  cat_vec : option nat;
  cat_fts : bool
}.

(** [int(existing.value)] and [str(embed_dim)], on decimal numerals. *)
Definition int (s : string) : outcome nat :=
  match NilZero.uint_of_string s with
  | Some u => Returned (Nat.of_uint u)
  | None => Raised ValueError
  end.
Definition str (n : nat) : string := NilZero.string_of_uint (Nat.to_uint n).

Section InitDb.
Context `{Collaborators}.

(** The session block: the dimension is read from the settings when it is
    there, and asked of the provider (and persisted) only when it is not. *)
Definition load_dimension (c : Catalog) : Catalog * outcome nat :=
  match cat_setting c !! "embed_dimension" with
  | Some value => (c, int value)
  | None =>
      match get_dimension with
      | Raised e => (c, Raised e)
      | Returned embed_dim =>
          match cat_setting c !! "embed_model" with
          | Some _ => (c, Raised IntegrityError)
          | None =>
              (mkCatalog (<["embed_dimension" := str embed_dim]>
                            (<["embed_model" := OLLAMA_EMBED_MODEL]>
                               (cat_setting c)))
                         (cat_vec c) (cat_fts c),
               Returned embed_dim)
          end
      end
  end.

Definition init_db (c : Catalog) : Catalog * outcome unit :=
  match load_dimension c with
  | (c, Raised e) => (c, Raised e)
  | (c, Returned embed_dim) =>
      let vec :=
        match cat_vec c with
        | Some d => Some d            (* the table is there: left alone *)
        | None => Some embed_dim      (* CREATE VIRTUAL TABLE ... float[embed_dim] *)
        end in
      (mkCatalog (cat_setting c) vec true, Returned ())
  end.

End InitDb.

(** The catalog of a store that has been bootstrapped. *)
Definition catalog_of (db : DB) : Catalog :=
  mkCatalog (setting_tbl db) (Some (vec_dim db)) true.

End Engine.

(** ** uridx/mcp/server.py: the tool façade *)

Module Server.

(** A row of [hybrid_search]'s answer and the dict [search] makes of it. *)
Record SearchResult (float : Type) := mkSearchResult {
  sr_source_uri : string;
  sr_title : option string;
  sr_source_type : option string;
  sr_chunk_text : string;
  sr_score : float;
  sr_tags : list string
}.

Record SearchHit (float : Type) := mkSearchHit {
  hit_source_uri : string;
  hit_title : option string;
  hit_source_type : option string;
  hit_snippet : string;
  hit_score : float;
  hit_tags : list string
}.

Record AddReply := mkAddReply {
  add_status : string;
  add_source_uri : string;
  add_title : string
}.

Record DeleteReply := mkDeleteReply {
  del_status : string;
  del_source_uri : string
}.

(** The dict of [get]; the two timestamps are left as clock readings
    instead of their [isoformat()]. *)
Record GetReply := mkGetReply {
  get_source_uri : string;
  get_title : option string;
  get_source_type : option string;
  get_context : option string;
  get_created_at : Z;
  get_updated_at : Z;
  get_chunks : list (string * option string);   (* text, key *)
  get_tags : list string
}.

Section Tools.
Context `{Collaborators}.
Context {float : Type}.
(** [uridx.search.hybrid.hybrid_search], not among the modelled files. *)
Variable hybrid_search :
  string → Z → option string → option (list string) → bool → DB →
  outcome (list (SearchResult float)).

Definition search (query : string) (limit : Z) (source_type : option string)
    (tags : option (list string)) (semantic : bool) (db : DB)
    : outcome (list (SearchHit float)) :=
  match hybrid_search query limit source_type tags semantic db with
  | Raised e => Raised e
  | Returned results =>
      Returned ((λ r, mkSearchHit float (sr_source_uri _ r) (sr_title _ r)
                        (sr_source_type _ r) (sr_chunk_text _ r)
                        (sr_score _ r) (sr_tags _ r)) <$> results)
  end.

Definition add (now : Z) (source_uri title text : string)
    (source_type : string) (tags : option (list string))
    (context : option string) (db : DB) : DB * outcome AddReply :=
  match add_item now
          (mkRecord source_uri (Some title) (Some source_type) context
                    (Some [mkChunkData text None None]) tags None false) db with
  | (db', Raised e) => (db', Raised e)
  | (db', Returned _) => (db', Returned (mkAddReply "added" source_uri title))
  end.

Definition delete (source_uri : string) (db : DB)
    : DB * outcome DeleteReply :=
  match delete_item source_uri db with
  | (db', Raised e) => (db', Raised e)
  | (db', Returned deleted) =>
      (db', Returned (mkDeleteReply (if deleted then "deleted" else "not_found")
                        source_uri))
  end.

Definition get (source_uri : string) (db : DB) : option GetReply :=
  match get_item source_uri db with
  | None => None
  | Some v =>
      let item := view_item v in
      Some (mkGetReply (item_source_uri item) (item_title item)
              (item_source_type item) (item_context item)
              (item_created_at item) (item_updated_at item)
              ((λ c, (chunk_text c, chunk_key c)) <$> view_chunks v)
              (tag <$> view_tags v))
  end.

End Tools.
End Server.

(** ** uridx/db/operations.py: [get_stats] *)

Record Stats := mkStats {
  stats_items : nat;
  stats_chunks : nat;
  stats_tags : nat;
  stats_source_types : gmap string nat
}.

(** [st or "unknown"] *)
Definition or_unknown (st : option string) : string :=
  if truthy st then default "" st else "unknown".

Section GetStats.
(** The order in which the engine yields the groups of the GROUP BY query
    is its own; [group_order] is that order, applied to the source types in
    the order of their first row. *)
Variable group_order : list (option string) → list (option string).

(** [select(Item.source_type, func.count(Item.id)).group_by(Item.source_type)]:
    one row per source type that occurs, NULL being a group of its own. *)
Definition source_types_result (db : DB) : list (option string * nat) :=
  (λ st, (st, length (filter (λ i, item_source_type i = st) (item_tbl db))))
  <$> group_order (remove_dups (item_source_type <$> item_tbl db)).

Definition get_stats (db : DB) : Stats :=
  let items_count := length (item_tbl db) in
  let chunks_count := length (chunk_tbl db) in
  let tags_count := length (tag_tbl db) in
  (* the dict comprehension: a later row with the same key takes the entry *)
  let source_types :=
    foldl (λ m row, <[or_unknown row.1 := row.2]> m) ∅
          (source_types_result db) in
  mkStats items_count chunks_count tags_count source_types.

End GetStats.

(** ** uridx/cli/main.py: the commands [ingest] and [stats] *)

Module Cli.

(** What the loop of [ingest] reads off a JSON object, key by key.  A key
    is either absent ([None], which is what [data.get] answers for it) or
    carries a value of the type [add_item] expects; JSON null and values of
    other types are outside this model. *)
Record JsonRecord := mkJson {
  j_source_uri : option string;
  j_title : option string;
  j_context : option string;
  j_source_type : option string;
  j_tags : option (list string);
  j_chunks : option (list ChunkData);
  j_replace : option bool
}.

(** A line of standard input, as [line.strip()] and [json.loads] take it. *)
Inductive stdin_line : Type :=
  | Blank                        (* nothing is left after [strip()] *)
  | NotJson                      (* [json.loads] raises *)
  | NotObject                    (* JSON, but no object: it has no [get] *)
  | Object (data : JsonRecord).

(** Standard input, read whole by [sys.stdin.read()] or line by line. *)
Record Stdin := mkStdin {
  stdin_read : string;
  stdin_lines : list stdin_line
}.

Inductive cli_exn : Type :=
  | JSONDecodeError
  | AttributeError
  | KeyError (key : string)
  | Propagated (e : exn).        (* raised by [init_db] or [add_item] *)

(** How a command ends: with the value it prints on standard output, or
    with an exception that nothing catches. *)
Inductive ended (A : Type) : Type :=
  | Printed (a : A)
  | Crashed (e : cli_exn).
Arguments Printed {A} a.
Arguments Crashed {A} e.

(** The two dicts [ingest] prints. *)
Inductive report : Type :=
  | TextReport (source_uri : string) (chunks : nat)
  | CountReport (ingested : nat).

Section Commands.
Context `{Collaborators}.
(** [datetime.utcnow()] as the [n]-th call of [add_item] of a run reads it. *)
Variable clock : nat → Z.

(** [init_db()] on a store that exists: the tables are there, so all it
    can touch are the settings. *)
Definition bootstrap (db : DB) : DB * outcome unit :=
  match Engine.init_db (Engine.catalog_of db) with
  | (c, o) =>
      (mkDB (item_tbl db) (chunk_tbl db) (tag_tbl db) (Engine.cat_setting c)
            (vec_dim db) (chunk_embeddings db) (chunks_fts db), o)
  end.

(** The loop over [sys.stdin]; [count] is the local of that name and [err]
    what has been written to standard error. *)
Fixpoint ingest_lines (replace : bool) (lines : list stdin_line)
    (count : nat) (err : list string) (db : DB)
    : DB * list string * ended nat :=
  match lines with
  | [] => (db, err, Printed count)
  | Blank :: lines' => ingest_lines replace lines' count err db
  | NotJson :: _ => (db, err, Crashed JSONDecodeError)
  | NotObject :: _ => (db, err, Crashed AttributeError)
  | Object data :: lines' =>
      let err := err ++ ["Ingesting " +:+ default "unknown" (j_source_uri data)
                         +:+ "..."] in
      match j_source_uri data with
      | None => (db, err, Crashed (KeyError "source_uri"))
      | Some source_uri =>
          match add_item (clock count)
                  (mkRecord source_uri (j_title data) (j_source_type data)
                     (j_context data) (Some (default [] (j_chunks data)))
                     (j_tags data) None (default replace (j_replace data)))
                  db with
          | (db', Raised e) => (db', err, Crashed (Propagated e))
          | (db', Returned _) => ingest_lines replace lines' (S count) err db'
          end
      end
  end.

Definition ingest (text : option string) (replace : bool) (stdin : Stdin)
    (db : DB) : DB * list string * ended report :=
  match bootstrap db with
  | (db, Raised e) => (db, [], Crashed (Propagated e))
  | (db, Returned _) =>
      if truthy text then
        let source_uri := default "" text in
        let content := stdin_read stdin in
        let err := ["Ingesting text for " +:+ source_uri +:+ "..."] in
        match add_item (clock 0)
                (mkRecord source_uri None None None
                   (Some [mkChunkData content None None]) None None replace)
                db with
        | (db', Raised e) => (db', err, Crashed (Propagated e))
        | (db', Returned item) =>
            (db', err,
             Printed (TextReport (item_source_uri (view_item item))
                                 (length (view_chunks item))))
        end
      else
        match ingest_lines replace (stdin_lines stdin) 0 [] db with
        | (db', err, Crashed e) => (db', err, Crashed e)
        | (db', err, Printed count) => (db', err, Printed (CountReport count))
        end
  end.

(** [stats]: the dict of [get_stats], printed. *)
Definition stats (group_order : list (option string) → list (option string))
    (db : DB) : DB * ended Stats :=
  match bootstrap db with
  | (db, Raised e) => (db, Crashed (Propagated e))
  | (db, Returned _) => (db, Printed (get_stats group_order db))
  end.

End Commands.
End Cli.

(** ** uridx/cli/extract.py: the pure helpers of the extractors

    These functions look into the text, so a [str] is taken here as what
    it is in Python, the sequence of its code points. *)

Module Extract.

Definition pystr : Type := list N.

(** An ASCII literal as a [str]. *)
Fixpoint py (s : string) : pystr :=
  match s with
  | EmptyString => []
  | String a s' => Ascii.N_of_ascii a :: py s'
  end.
#[global] Arguments py : simpl never.

(** [str(n)] for a non-negative int. *)
Definition str_of_nat (n : nat) : pystr := py (pretty n).

Definition hash : N := 35.       (* '#' *)
Definition dash : N := 45.       (* '-' *)
Definition newline : N := 10.

(** [c] is matched by the class [a-z0-9]. *)
Definition is_slug_char (c : N) : bool :=
  ((97 <=? c) && (c <=? 122) || (48 <=? c) && (c <=? 57))%N.

Fixpoint take_while {A} (p : A → bool) (l : list A) : list A :=
  match l with
  | x :: l' => if p x then x :: take_while p l' else []
  | [] => []
  end.

Fixpoint drop_while {A} (p : A → bool) (l : list A) : list A :=
  match l with
  | x :: l' => if p x then drop_while p l' else l
  | [] => []
  end.

(** [s.strip(chars)]: with the characters to drop given by [p]. *)
Definition strip_with (p : N → bool) (s : pystr) : pystr :=
  reverse (drop_while p (reverse (drop_while p s))).

(** [sep.join(parts)] *)
Fixpoint join (sep : pystr) (parts : list pystr) : pystr :=
  match parts with
  | [] => []
  | [part] => part
  | part :: parts' => part ++ sep ++ join sep parts'
  end.

(** Truthiness of a [str] and of a [str] or [None]. *)
Definition nonempty {A} (l : list A) : bool :=
  match l with [] => false | _ => true end.
Definition truthy_str (s : option pystr) : bool :=
  match s with Some s => nonempty s | None => false end.

Section Text.
(** What Python takes from the Unicode database: [str.isspace] of a
    character, which is also the class [\s] of [re] and what [strip()]
    drops, and [str.lower]. *)
Variable isspace : N → bool.
Variable lower : pystr → pystr.

(** [s.strip()] *)
Definition strip (s : pystr) : pystr := strip_with isspace s.

(** [re.sub(r"^#+\s*", "", text)]: the pattern matches at the start only,
    and only when the text starts with '#'; it then takes every '#' and all
    the whitespace after them. *)
Definition sub_heading_marks (text : pystr) : pystr :=
  match take_while (N.eqb hash) text with
  | [] => text
  | _ => drop_while isspace (drop_while (N.eqb hash) text)
  end.

(** [re.sub(r"[^a-z0-9]+", "-", text)]: every maximal run of characters
    outside the class becomes one '-'; [in_run] says that the character
    before was outside the class. *)
Fixpoint sub_dashes (in_run : bool) (text : pystr) : pystr :=
  match text with
  | [] => []
  | c :: text' =>
      if is_slug_char c then c :: sub_dashes false text'
      else if in_run then sub_dashes true text'
      else dash :: sub_dashes true text'
  end.

Definition _slugify (text : pystr) : pystr :=
  if nonempty text then
    let text := sub_heading_marks text in
    let text := lower text in
    let text := sub_dashes false text in
    let slug := take 50 (strip_with (N.eqb dash) text) in
    if nonempty slug then slug else py "untitled"
  else py "untitled".

(** *** Markdown *)

(** A chunk dict of [_parse_markdown]; [md_meta] is the value of
    ["heading"] in its meta, or [None] for the empty meta. *)
Record MdChunk := mkMdChunk {
  md_text : pystr;
  md_key : pystr;
  md_meta : option (option pystr)
}.

(** [re.match(r"^#{1,6}\s+", part)]: for some number of '#' between one
    and six at the start, the next character is whitespace. *)
Definition heading_match (part : pystr) : bool :=
  let hashes := length (take_while (N.eqb hash) part) in
  existsb (λ k, match part !! k with
                | Some c => isspace c
                | None => false
                end)
          (seq 1 (hashes `min` 6)).

(** The block that closes a section, at both places where it stands. *)
Definition close_section (chunks : list MdChunk)
    (current_heading : option pystr) (current_content : list pystr)
    : list MdChunk :=
  if truthy_str current_heading || nonempty current_content then
    let text_parts :=
      (if truthy_str current_heading then [default [] current_heading]
       else []) ++ current_content in
    let chunk_text := join [newline; newline] text_parts in
    if nonempty (strip chunk_text) then
      chunks ++ [mkMdChunk chunk_text
                   (if truthy_str current_heading
                    then _slugify (default [] current_heading)
                    else py "section-" ++ str_of_nat (length chunks))
                   (Some current_heading)]
    else chunks
  else chunks.

Record md_state := mkMdState {
  st_chunks : list MdChunk;
  st_heading : option pystr;       (* current_heading *)
  st_content : list pystr          (* current_content *)
}.

Definition md_step (s : md_state) (part : pystr) : md_state :=
  let part := strip part in
  if nonempty part then
    if heading_match part then
      mkMdState (close_section (st_chunks s) (st_heading s) (st_content s))
                (Some part) []
    else mkMdState (st_chunks s) (st_heading s) (st_content s ++ [part])
  else s.

(** [_parse_markdown] from the point where [re.split] has cut the content
    of the file into [parts]. *)
Definition _parse_markdown (parts : list pystr) (content : pystr)
    : list MdChunk :=
  let s := foldl md_step (mkMdState [] None []) parts in
  let chunks := close_section (st_chunks s) (st_heading s) (st_content s) in
  if negb (nonempty chunks) && nonempty (strip content) then
    chunks ++ [mkMdChunk (strip content) (py "full") None]
  else chunks.

End Text.

(** *** Conversations *)

(** A value as [json.loads] hands it out.  An object keeps its members
    in a list, one per key. *)
#[warnings="-register-all"]
Inductive json : Type :=
  | JNull
  | JBool (b : bool)
  | JNumber (x : Z)
  | JString (s : pystr)
  | JArray (items : list json)
  | JObject (members : list (pystr * json)).

(** [value == s] for a [str] literal [s]: only a [str] equals a [str]. *)
Definition is_str (value : json) (s : pystr) : bool :=
  match value with
  | JString t => bool_decide (t = s)
  | _ => false
  end.

Inductive py_exn : Type :=
  | AttributeError    (* [.get] on a value that is no dict *)
  | TypeError.        (* [join] over a value that is no str *)

Inductive result (A : Type) : Type :=
  | Ok (a : A)
  | Raise (e : py_exn).
Arguments Ok {A} a.
Arguments Raise {A} e.

(** [d.get(key)] on a dict. *)
Definition lookup_member (key : pystr) (members : list (pystr * json))
    : option json :=
  snd <$> head (filter (λ kv, kv.1 = key) members).

(** [value.get(key, default)] on any value. *)
Definition get (key : pystr) (fallback : json) (value : json) : result json :=
  match value with
  | JObject members => Ok (default fallback (lookup_member key members))
  | _ => Raise AttributeError
  end.

(** A chunk dict of [_build_turns]. *)
Record Turn := mkTurn {
  turn_text : pystr;
  turn_key : pystr;
  turn_index : nat                 (* meta["turn_index"] *)
}.

Section Conversation.
(** [str(value)] for a value that is no [str], as an f-string formats it. *)
Variable str_of : json → pystr.

Definition format (value : json) : pystr :=
  match value with
  | JString s => s
  | _ => str_of value
  end.

(** The loop over the blocks: the values appended to [texts]. *)
Definition block_texts (content : list json) : list json :=
  omap (λ block,
          match block with
          | JObject members =>
              let type := default JNull (lookup_member (py "type") members) in
              if is_str type (py "text") then
                Some (default (JString []) (lookup_member (py "text") members))
              else if is_str type (py "tool_use") then
                Some (JString
                        (py "[Tool: "
                         ++ format (default JNull
                                      (lookup_member (py "name") members))
                         ++ py "]"))
              else None
          | _ => None
          end) content.

(** ["\n".join(texts)]: every element has to be a [str]. *)
Fixpoint strs (texts : list json) : result (list pystr) :=
  match texts with
  | [] => Ok []
  | JString s :: texts' =>
      match strs texts' with
      | Ok l => Ok (s :: l)
      | Raise e => Raise e
      end
  | _ :: _ => Raise TypeError
  end.

Definition _extract_claude_content (message : json) : result pystr :=
  match get (py "content") JNull message with
  | Raise e => Raise e
  | Ok (JString content) => Ok content
  | Ok (JArray content) =>
      match strs (block_texts content) with
      | Ok texts => Ok (join [newline] texts)
      | Raise e => Raise e
      end
  | Ok _ => Ok []
  end.

Definition _is_tool_result (msg : json) : result bool :=
  match get (py "message") (JObject []) msg with
  | Raise e => Raise e
  | Ok message =>
      match get (py "content") (JArray []) message with
      | Raise e => Raise e
      | Ok (JArray (first :: _)) =>
          Ok match first with
             | JObject members =>
                 is_str (default JNull (lookup_member (py "type") members))
                        (py "tool_result")
             | _ => false
             end
      | Ok _ => Ok false
      end
  end.

(** The locals of [_build_turns]. *)
Record turns_state := mkTurns {
  ts_turns : list Turn;
  ts_user : option pystr;          (* current_user *)
  ts_assistant : list pystr;       (* current_assistant *)
  ts_index : nat                   (* turn_index *)
}.

(** The block that closes a turn; the one after the loop does not count
    [turn_index] up, which no one reads after it. *)
Definition close_turn (s : turns_state) : list Turn * nat :=
  if truthy_str (ts_user s) || nonempty (ts_assistant s) then
    let text_parts :=
      (if truthy_str (ts_user s)
       then [py "User: " ++ default [] (ts_user s)] else [])
      ++ (if nonempty (ts_assistant s)
          then [py "Assistant: " ++ join (py " ") (ts_assistant s)] else []) in
    if nonempty text_parts then
      (ts_turns s ++ [mkTurn (join [newline; newline] text_parts)
                        (py "turn-" ++ str_of_nat (ts_index s))
                        (ts_index s)],
       S (ts_index s))
    else (ts_turns s, ts_index s)
  else (ts_turns s, ts_index s).

Definition turn_step (s : turns_state) (msg : json) : result turns_state :=
  match get (py "type") JNull msg with
  | Raise e => Raise e
  | Ok msg_type =>
      if is_str msg_type (py "user") || is_str msg_type (py "assistant") then
        match get (py "message") (JObject []) msg with
        | Raise e => Raise e
        | Ok message =>
            match _extract_claude_content message with
            | Raise e => Raise e
            | Ok content =>
                if nonempty content then
                  if is_str msg_type (py "user") then
                    match _is_tool_result msg with
                    | Raise e => Raise e
                    | Ok true => Ok s
                    | Ok false =>
                        let (turns, turn_index) := close_turn s in
                        Ok (mkTurns turns (Some content) [] turn_index)
                    end
                  else
                    Ok (mkTurns (ts_turns s) (ts_user s)
                                (ts_assistant s ++ [content]) (ts_index s))
                else Ok s
            end
        end
      else Ok s
  end.

Fixpoint turn_loop (s : turns_state) (messages : list json)
    : result turns_state :=
  match messages with
  | [] => Ok s
  | msg :: messages' =>
      match turn_step s msg with
      | Raise e => Raise e
      | Ok s' => turn_loop s' messages'
      end
  end.

Definition _build_turns (messages : list json) : result (list Turn) :=
  match turn_loop (mkTurns [] None [] 0) messages with
  | Raise e => Raise e
  | Ok s => Ok (close_turn s).1
  end.

End Conversation.
End Extract.

(** ** What the loops compute, in closed form

    These functions are not part of the program: they describe the state
    the merge loop ends in, and are related to it by the lemmas below. *)

(** An item row with another modification time. *)
Definition touch (now : Z) (item : Item) : Item :=
  {| item_id := item_id item;
     item_source_uri := item_source_uri item;
     item_title := item_title item;
     item_source_type := item_source_type item;
     item_context := item_context item;
     item_expires_at := item_expires_at item;
     item_created_at := item_created_at item;
     item_updated_at := now |}.

Section ClosedForms.
Context `{Collaborators}.

(** The last incoming chunk (with its position) that the loop assigns to
    the object [cid]. *)
Fixpoint last_hit (existing_keys : gmap string nat) (cid : nat)
    (idx : nat) (chunks : list ChunkData) : option (nat * ChunkData) :=
  match chunks with
  | [] => None
  | chunk_data :: chunks' =>
      match last_hit existing_keys cid (S idx) chunks' with
      | Some r => Some r
      | None =>
          if decide (target existing_keys chunk_data = Some cid)
          then Some (idx, chunk_data) else None
      end
  end.

Definition merged (existing_keys : gmap string nat) (idx : nat)
    (chunks : list ChunkData) (c : Chunk) : Chunk :=
  match last_hit existing_keys (chunk_id c) idx chunks with
  | Some (i, chunk_data) => assign i chunk_data c
  | None => c
  end.

(** The objects the loop hands to [session.add]. *)
Fixpoint created (existing_keys : gmap string nat) (item_pk : nat)
    (cid idx : nat) (chunks : list ChunkData) : list Chunk :=
  match chunks with
  | [] => []
  | chunk_data :: chunks' =>
      match target existing_keys chunk_data with
      | Some _ => created existing_keys item_pk cid (S idx) chunks'
      | None =>
          new_chunk item_pk cid idx chunk_data
          :: created existing_keys item_pk (S cid) (S idx) chunks'
      end
  end.

(** The primary keys the loop collects in [chunk_records]. *)
Fixpoint recorded (existing_keys : gmap string nat)
    (cid : nat) (chunks : list ChunkData) : list nat :=
  match chunks with
  | [] => []
  | chunk_data :: chunks' =>
      match target existing_keys chunk_data with
      | Some t => t :: recorded existing_keys cid chunks'
      | None => cid :: recorded existing_keys (S cid) chunks'
      end
  end.

(** [chunk_ids_to_delete] of the merge path. *)
Definition doomed_ids (item_pk : nat) (chunks : list ChunkData) (db : DB)
    : list nat :=
  chunk_id <$> filter (λ c, stale (new_chunk_keys_of chunks) c)
                      (item_chunks item_pk db).

(** The merge asks the [chunk] table for no DELETE and no UPDATE: no chunk
    of the item is stale, and the loop leaves every loaded object with the
    columns it was loaded with. *)
Definition quiet (item_pk : nat) (chunks : list ChunkData) (db : DB) : Prop :=
  doomed_ids item_pk chunks db = [] ∧
  Forall (λ c, merged (existing_keys_of (item_chunks item_pk db)) 0 chunks c = c)
         (item_chunks item_pk db).

#[global] Instance quiet_dec item_pk chunks db :
  Decision (quiet item_pk chunks db).
Proof. unfold quiet. apply _. Defined.

(** The [chunk] table a merge asks for: the item's chunks as the loop
    leaves them, without the stale ones, and the created ones.  The merge
    commits it only when that writes no old row (see [quiet]); it is then
    the old table followed by the created rows. *)
Definition merged_chunk_tbl (item_pk : nat) (chunks : list ChunkData)
    (db : DB) : list Chunk :=
  let loaded := item_chunks item_pk db in
  let existing_keys := existing_keys_of loaded in
  filter (λ c, chunk_id c ∉ doomed_ids item_pk chunks db)
    (((λ c, if decide (c ∈ loaded) then merged existing_keys 0 chunks c
            else c) <$> chunk_tbl db)
     ++ created existing_keys item_pk
          (next_rowid (chunk_id <$> chunk_tbl db)) 0 chunks).

(** The item row and the chunk rows the insert path writes. *)
Definition inserted_item (now : Z) (r : IngestionRecord) (db : DB) : Item :=
  {| item_id := next_rowid (item_id <$> item_tbl db);
     item_source_uri := r_source_uri r;
     item_title := r_title r;
     item_source_type := r_source_type r;
     item_context := r_context r;
     item_expires_at := r_expires_at r;
     item_created_at := now;
     item_updated_at := now |}.

Definition inserted_chunks (r : IngestionRecord) (db : DB) : list Chunk :=
  imap (λ idx, new_chunk (next_rowid (item_id <$> item_tbl db))
                 (next_rowid (chunk_id <$> chunk_tbl db) + idx) idx)
       (default [] (r_chunks r)).

(** The tag list does not trip over the key of the [tag] table. *)
Definition tags_accepted (tags : list string) : Prop :=
  tag_unique = true → NoDup tags.

(** The provider answers every batch with one vector per text, each of the
    given length (§4.2 of the specification). *)
Definition provider_ok (dim : nat) : Prop :=
  ∀ texts, ∃ embeddings,
    get_embeddings_sync texts = Returned embeddings ∧
    length embeddings = length texts ∧
    Forall (λ e, length e = dim) embeddings.

(** What one ingestion of [r] leaves: the item is there with the record's
    metadata; its chunks are the merged survivors of some earlier chunks
    [L0] followed by the created ones; its tags are the last rows of the
    tag table. *)
Definition ingested (r : IngestionRecord) (db1 : DB) (item1 : Item)
    (L0 : list Chunk) (first : nat) (others : list Tag) : Prop :=
  let chunks := default [] (r_chunks r) in
  select_item (r_source_uri r) db1 = Some item1 ∧
  (∀ now, set_metadata now r item1 = touch now item1) ∧
  NoDup (chunk_id <$> chunk_tbl db1) ∧
  NoDup (chunk_id <$> L0) ∧
  (∀ c, c ∈ L0 → chunk_id c < first) ∧
  item_chunks (item_id item1) db1
  = filter (λ c, stale (new_chunk_keys_of chunks) c = false)
      (merged (existing_keys_of L0) 0 chunks <$> L0)
    ++ created (existing_keys_of L0) (item_id item1) first 0 chunks ∧
  tag_tbl db1 = others ++ (mkTag (item_id item1) <$> default [] (r_tags r)) ∧
  (∀ t, t ∈ others → tag_item_id t ≠ item_id item1).

End ClosedForms.

(** The rows of [chunk_embeddings] that belong to the chunks of an item:
    the join of the vector table with the item's chunks. *)
Definition item_embeddings (item_pk : nat) (db : DB)
    : list (nat * embedding) :=
  omap (λ c, (λ e, (chunk_id c, e)) <$> chunk_embeddings db !! chunk_id c)
       (item_chunks item_pk db).

(** ** Integrity of a store: primary and foreign keys *)

Record wf_db (db : DB) : Prop := mk_wf {
  wf_item_ids : NoDup (item_id <$> item_tbl db);
  wf_chunk_ids : NoDup (chunk_id <$> chunk_tbl db);
  wf_chunk_fk : ∀ c, c ∈ chunk_tbl db →
                  chunk_item_id c ∈ item_id <$> item_tbl db;
  wf_tag_fk : ∀ t, t ∈ tag_tbl db →
                tag_item_id t ∈ item_id <$> item_tbl db;
  wf_embedding_fk : ∀ k, is_Some (chunk_embeddings db !! k) →
                      k ∈ chunk_id <$> chunk_tbl db
}.

(** ** Further invariants and relations between stores *)

(** The source_uri of an item is its natural key. *)
Definition uri_unique (db : DB) : Prop :=
  NoDup (item_source_uri <$> item_tbl db).

(** The keyword index mirrors the chunk table: every chunk row has an FTS
    row under its id that carries its text, and there is no FTS row
    without a chunk row. *)
Definition fts_synced (db : DB) : Prop :=
  (∀ c, c ∈ chunk_tbl db →
        fst <$> chunks_fts db !! chunk_id c = Some (chunk_text c)) ∧
  (∀ k, is_Some (chunks_fts db !! k) → k ∈ chunk_id <$> chunk_tbl db).

(** What [db'] shows of the source [other] is what [db] shows: the same
    item row, the same chunk and tag rows, and for each of the chunks the
    same embedding and FTS row. *)
Definition untouched (other : string) (db db' : DB) : Prop :=
  select_item other db' = select_item other db ∧
  ∀ o, select_item other db = Some o →
    item_chunks (item_id o) db' = item_chunks (item_id o) db ∧
    item_tags (item_id o) db' = item_tags (item_id o) db ∧
    ∀ c, c ∈ item_chunks (item_id o) db →
      chunk_embeddings db' !! chunk_id c = chunk_embeddings db !! chunk_id c ∧
      chunks_fts db' !! chunk_id c = chunks_fts db !! chunk_id c.

(** The sum of the values of a dict of counts. *)
Definition dict_sum (m : gmap string nat) : nat :=
  map_fold (λ _ n acc, n + acc) 0 m.

(** The number of items with a given source type. *)
Definition items_typed (st : option string) (db : DB) : nat :=
  length (filter (λ i, item_source_type i = st) (item_tbl db)).

(** Whether a line of standard input is blank. *)
Definition is_blank (l : Cli.stdin_line) : bool :=
  match l with Cli.Blank => true | _ => false end.

(** A character of a slug: one of [a-z0-9] or '-'. *)
Definition slug_char (c : N) : Prop :=
  Extract.is_slug_char c = true ∨ c = Extract.dash.

(** No two '-' in a row. *)
Definition well_dashed (s : list N) : Prop :=
  ∀ i, s !! i = Some Extract.dash → s !! S i ≠ Some Extract.dash.

(** A chunk of [_parse_markdown] that stands under a heading: its meta
    names the heading, a text that [heading_match] accepts; its key is the
    slug of the heading and its text begins with the heading. *)
Definition headed (isspace : N → bool)
    (lower : Extract.pystr → Extract.pystr) (c : Extract.MdChunk) : Prop :=
  ∃ h, Extract.md_meta c = Some (Some h) ∧
       Extract.heading_match isspace h = true ∧
       Extract.md_key c = Extract._slugify isspace lower h ∧
       h `prefix_of` Extract.md_text c.

(** What the loop of [_parse_markdown] keeps true of its locals: the
    chunks have a key and a text that is not blank, all but the first are
    headed, and once there is a chunk there is a current heading. *)
Definition md_invariant (isspace : N → bool)
    (lower : Extract.pystr → Extract.pystr) (s : Extract.md_state) : Prop :=
  (∀ c, c ∈ Extract.st_chunks s →
        Extract.md_key c ≠ [] ∧
        Extract.strip isspace (Extract.md_text c) ≠ []) ∧
  (∀ i c, Extract.st_chunks s !! S i = Some c → headed isspace lower c) ∧
  (Extract.st_chunks s ≠ [] →
   Extract.truthy_str (Extract.st_heading s) = true) ∧
  (Extract.truthy_str (Extract.st_heading s) = true →
   Extract.heading_match isspace (default [] (Extract.st_heading s)) = true).

(** Whether [_build_turns] looks at a message at all: a value that is no
    dict (on which it raises), or a dict whose "type" is "user" or
    "assistant". *)
Definition is_dialogue (msg : Extract.json) : bool :=
  match msg with
  | Extract.JObject members =>
      let type := default Extract.JNull
                    (Extract.lookup_member (Extract.py "type") members) in
      Extract.is_str type (Extract.py "user")
      || Extract.is_str type (Extract.py "assistant")
  | _ => true
  end.

(** What the loop of [_build_turns] keeps true of its locals: there are
    as many turns as [turn_index] says, and the turn at position [i] has
    the key "turn-i", the index [i] and a text that begins with "User: " or
    "Assistant: ". *)
Definition turn_at (i : nat) (t : Extract.Turn) : Prop :=
  Extract.turn_key t = Extract.py "turn-" ++ Extract.str_of_nat i ∧
  Extract.turn_index t = i ∧
  (Extract.py "User: " `prefix_of` Extract.turn_text t ∨
   Extract.py "Assistant: " `prefix_of` Extract.turn_text t).

Definition turns_invariant (s : Extract.turns_state) : Prop :=
  length (Extract.ts_turns s) = Extract.ts_index s ∧
  ∀ i t, Extract.ts_turns s !! i = Some t → turn_at i t.

(** A message on which [_build_turns] raises AttributeError: a value that
    is no dict, or a dict of type "user" or "assistant" whose "message" is
    there and is no dict. *)
Definition misshapen (msg : Extract.json) : Prop :=
  match msg with
  | Extract.JObject members =>
      is_dialogue msg = true ∧
      match Extract.lookup_member (Extract.py "message") members with
      | Some (Extract.JObject _) | None => False
      | Some _ => True
      end
  | _ => True
  end.

(** ** Concrete stores and collaborators, for evaluating the model *)

Module Sample.

(** A provider that answers every text with a two-word vector. *)
Definition services (unique_tags : bool) : Collaborators :=
  {| get_embeddings_sync := λ texts, Returned ((λ _, [0%Z; 0%Z]) <$> texts);
     get_dimension := Returned 2;
     OLLAMA_EMBED_MODEL := "nomic-embed-text";
     json_dumps := λ _, "{...}";
     tag_unique := unique_tags |}.

Definition empty : DB := mkDB [] [] [] ∅ 2 ∅ ∅.

(** A provider whose model has dimension 1024, and a store bootstrapped
    with dimension 768. *)
Definition wide : Collaborators :=
  {| get_embeddings_sync := λ texts,
       Returned ((λ _, replicate 1024 0%Z) <$> texts);
     get_dimension := Returned 1024;
     OLLAMA_EMBED_MODEL := "mxbai-embed-large";
     json_dumps := λ _, "{...}";
     tag_unique := false |}.

Definition narrow : DB :=
  mkDB [] [] []
       (<["embed_dimension" := "768"]> (<["embed_model" := "nomic-embed-text"]> ∅))
       768 ∅ ∅.

Definition keyed : IngestionRecord :=
  mkRecord "mem://a" (Some "A") (Some "note") (Some "ctx")
    (Some [mkChunkData "alpha" (Some "p1") None;
           mkChunkData "beta" (Some "p2") None])
    (Some ["x"; "y"]) None false.

(** The store after [keyed] was ingested into the empty one. *)
Definition stored : DB := (@add_item (services false) 5 keyed empty).1.

(** A re-ingestion of the same source that names nothing but its first
    chunk. *)
Definition bare : IngestionRecord :=
  mkRecord "mem://a" None None None
    (Some [mkChunkData "alpha" (Some "p1") None]) None None false.

(** [keyed] again, chunk for chunk, with other tags, one of them twice. *)
Definition repeated_tag : IngestionRecord :=
  mkRecord "mem://a" (Some "A") (Some "note") (Some "ctx")
    (Some [mkChunkData "alpha" (Some "p1") None;
           mkChunkData "beta" (Some "p2") None])
    (Some ["z"; "z"]) None false.

(** [keyed] again, chunk for chunk, with one more chunk, another title and
    no context. *)
Definition extended : IngestionRecord :=
  mkRecord "mem://a" (Some "A2") (Some "note") None
    (Some [mkChunkData "alpha" (Some "p1") None;
           mkChunkData "beta" (Some "p2") None;
           mkChunkData "gamma" (Some "p3") None])
    (Some ["x"]) None false.




(** A record whose first chunk has empty text. *)
Definition blank : IngestionRecord :=
  mkRecord "mem://e" None None None
    (Some [mkChunkData "" None None; mkChunkData "beta" None None])
    None None false.

(** A record whose only chunk carries the empty string as its key. *)
Definition empty_key : IngestionRecord :=
  mkRecord "mem://k" None None None
    (Some [mkChunkData "alpha" (Some "") None]) None None false.

(** A retriever that answers every query, whatever the limit, with one row. *)
Definition row : Server.SearchResult Z :=
  Server.mkSearchResult Z "mem://a" (Some "A") (Some "note") "alpha" 16%Z ["x"].

Definition retriever (query : string) (limit : Z) (source_type : option string)
    (tags : option (list string)) (semantic : bool) (db : DB)
    : outcome (list (Server.SearchResult Z)) :=
  Returned [row].

End Sample.

(** Further stores and records. *)
Module Sample2.

(** A second source, with one keyed and one keyless chunk. *)
Definition second : IngestionRecord :=
  mkRecord "mem://b" (Some "B") None None
    (Some [mkChunkData "one" (Some "s1") None;
           mkChunkData "two" None None])
    (Some ["y"]) None false.

(** The store that holds [Sample.keyed] and [second]. *)
Definition both : DB :=
  (@add_item (Sample.services false) 6 second Sample.stored).1.

(** [Sample.keyed] again, to replace what is stored. *)
Definition replacing : IngestionRecord :=
  mkRecord "mem://a" (Some "A2") None None
    (Some [mkChunkData "fresh" None None]) (Some ["w"]) None true.

(** A record without chunks. *)
Definition chunkless : IngestionRecord :=
  mkRecord "mem://b" (Some "B") None None None (Some ["y"]) None false.

(** The store that holds [Sample.keyed] and, for "mem://b", an item
    without chunks. *)
Definition hollow : DB :=
  (@add_item (Sample.services false) 6 chunkless Sample.stored).1.

(** A record that replaces what is stored for "mem://b". *)
Definition refill : IngestionRecord :=
  mkRecord "mem://b" (Some "B2") None None
    (Some [mkChunkData "fresh" None None]) (Some ["w"]) None true.

(** A second source whose chunks have no key, and the store that holds
    [Sample.keyed] and it. *)
Definition unkeyed : IngestionRecord :=
  mkRecord "mem://b" (Some "B") None None
    (Some [mkChunkData "one" None None; mkChunkData "two" None None])
    (Some ["y"]) None false.

Definition loose : DB :=
  (@add_item (Sample.services false) 6 unkeyed Sample.stored).1.

(** One more chunk for "mem://b". *)
Definition more : IngestionRecord :=
  mkRecord "mem://b" (Some "B3") None None
    (Some [mkChunkData "three" None None]) (Some ["y"]) None false.

(** [Sample.keyed] with another text under the key p1. *)
Definition edited : IngestionRecord :=
  mkRecord "mem://a" (Some "A") (Some "note") (Some "ctx")
    (Some [mkChunkData "alpha, revised" (Some "p1") None;
           mkChunkData "beta" (Some "p2") None])
    (Some ["x"; "y"]) None false.

(** A provider that cannot be reached. *)
Definition offline : Collaborators :=
  {| get_embeddings_sync := λ _, Raised ConnectionError;
     get_dimension := Raised ConnectionError;
     OLLAMA_EMBED_MODEL := "nomic-embed-text";
     json_dumps := λ _, "{...}";
     tag_unique := false |}.

End Sample2.

Module Sample3.

(** A store with its settings, as [init_db] leaves it next to
    [Sample.services]. *)
Definition booted : DB :=
  mkDB [] [] []
       (<["embed_dimension" := "2"]> (<["embed_model" := "nomic-embed-text"]> ∅))
       2 ∅ ∅.

Definition clock (n : nat) : Z := Z.of_nat (10 + n).

(** Two records as an extractor writes them, each with its own "replace". *)
Definition first_record : Cli.JsonRecord :=
  Cli.mkJson (Some "file:///a.md") (Some "a") None (Some "markdown")
    (Some ["markdown"; "document"])
    (Some [mkChunkData "# A" (Some "a") None]) (Some true).

Definition second_record : Cli.JsonRecord :=
  Cli.mkJson (Some "file:///b.md") (Some "b") None (Some "markdown")
    (Some ["markdown"; "document"])
    (Some [mkChunkData "# B" (Some "b") None]) (Some true).

(** A record without its source_uri. *)
Definition nameless : Cli.JsonRecord :=
  Cli.mkJson None (Some "c") None None None None None.

Definition stream : list Cli.stdin_line :=
  [Cli.Object first_record; Cli.Blank; Cli.Object second_record].

End Sample3.

Module Sample4.
Import Extract.

(** [str()] of the values that are no [str]; the samples only meet [None]. *)
Definition str_of (value : json) : pystr := py "None".

Definition text_block (s : string) : json :=
  JObject [(py "type", JString (py "text")); (py "text", JString (py s))].

Definition said (who : string) (content : json) : json :=
  JObject [(py "type", JString (py who));
           (py "message", JObject [(py "content", content)])].

(** A conversation: a summary line, a question, an answer with a tool
    call, the result of the tool, and a second question. *)
Definition talk : list json :=
  [JObject [(py "type", JString (py "summary"))];
   said "user" (JString (py "hi"));
   said "assistant"
     (JArray [text_block "hello";
              JObject [(py "type", JString (py "tool_use"));
                       (py "name", JString (py "Bash"))]]);
   said "user" (JArray [JObject [(py "type", JString (py "tool_result"))]]);
   said "user" (JString (py "bye"))].

Definition talk_turns : list Turn :=
  [mkTurn (py "User: hi" ++ [newline; newline]
           ++ py "Assistant: hello" ++ [newline] ++ py "[Tool: Bash]")
          (py "turn-0") 0;
   mkTurn (py "User: bye") (py "turn-1") 1].

(** A line that parsed to a message whose "message" is a string. *)
Definition crooked : json :=
  JObject [(py "type", JString (py "user")); (py "message", JString (py "hi"))].

End Sample4.

(** * Properties *)

(** A decidable closed proposition, settled by evaluation. *)
Ltac by_eval := apply (bool_decide_unpack _); vm_compute; exact I.

(** ** Lists and filters *)

Section Lists.
Context {A : Type}.
Implicit Types (P Q : A → Prop) (l : list A).

Lemma filter_all P `{!∀ x, Decision (P x)} l :
  (∀ x, x ∈ l → P x) → filter P l = l.
Proof.
  induction l as [|x l IH]; intros Hall; [done|].
  rewrite filter_cons_True by (apply Hall; left).
  f_equal. apply IH. intros y Hy. apply Hall. by right.
Qed.

Lemma filter_none P `{!∀ x, Decision (P x)} l :
  (∀ x, x ∈ l → ¬ P x) → filter P l = [].
Proof.
  induction l as [|x l IH]; intros Hall; [done|].
  rewrite filter_cons_False by (apply Hall; left).
  apply IH. intros y Hy. apply Hall. by right.
Qed.

Lemma filter_ext_in P Q `{!∀ x, Decision (P x)} `{!∀ x, Decision (Q x)} l :
  (∀ x, x ∈ l → P x ↔ Q x) → filter P l = filter Q l.
Proof.
  induction l as [|x l IH]; intros Hall; [done|].
  rewrite !filter_cons.
  assert (IH' : filter P l = filter Q l).
  { apply IH. intros y Hy. apply Hall. by right. }
  destruct (decide (P x)) as [HP|HP], (decide (Q x)) as [HQ|HQ];
    try (rewrite IH'; done);
    exfalso; specialize (Hall x (list_elem_of_here _ _)); tauto.
Qed.

Lemma filter_fmap_pre {B} (f : B → A) P `{!∀ x, Decision (P x)} (l : list B) :
  filter P (f <$> l) = f <$> filter (λ y, P (f y)) l.
Proof.
  induction l as [|y l IH]; [done|].
  rewrite fmap_cons, !filter_cons. rewrite IH.
  by destruct (decide (P (f y))).
Qed.

Lemma length_omap_all {B} (f : A → option B) l :
  (∀ x, x ∈ l → is_Some (f x)) → length (omap f l) = length l.
Proof.
  induction l as [|x l IH]; intros Hall; [done|].
  simpl. destruct (Hall x) as [y ->]; [left|].
  simpl. f_equal. apply IH. intros z Hz. apply Hall. by right.
Qed.

Lemma NoDup_fmap_filter {B} (f : A → B) P `{!∀ x, Decision (P x)} l :
  NoDup (f <$> l) → NoDup (f <$> filter P l).
Proof.
  intros Hnd. eapply sublist_NoDup; [exact Hnd|].
  apply fmap_sublist, sublist_filter.
Qed.

End Lists.

(** ** Statement-level facts *)

Lemma select_item_None source_uri db :
  select_item source_uri db = None ↔
  ∀ i, i ∈ item_tbl db → item_source_uri i ≠ source_uri.
Proof.
  unfold select_item. rewrite head_None. split.
  - intros E i Hi Hu.
    assert (Hin : i ∈ filter (λ i, item_source_uri i = source_uri) (item_tbl db))
      by (apply list_elem_of_filter; done).
    rewrite E in Hin. by apply not_elem_of_nil in Hin.
  - intros Hall. apply filter_none. done.
Qed.

Lemma select_item_Some source_uri db item :
  select_item source_uri db = Some item →
  item ∈ item_tbl db ∧ item_source_uri item = source_uri.
Proof.
  unfold select_item. intros E.
  apply head_Some_elem_of, list_elem_of_filter in E. tauto.
Qed.

Lemma select_item_is_Some source_uri db :
  is_Some (select_item source_uri db) ↔
  ∃ i, i ∈ item_tbl db ∧ item_source_uri i = source_uri.
Proof.
  split.
  - intros [item E]. exists item. by apply select_item_Some.
  - intros (i & Hi & Hu). destruct (select_item source_uri db) eqn:E; [eauto|].
    rewrite select_item_None in E. by destruct (E i Hi).
Qed.

(** A DELETE on [chunk] fires [chunks_ad], which raises. *)
Lemma delete_chunk_raises c db : delete_chunk c db = Raised OperationalError.
Proof. reflexivity. Qed.

Lemma delete_chunks_run cs db :
  run_all delete_chunk cs db
  = match cs with [] => Returned db | _ => Raised OperationalError end.
Proof. by destruct cs. Qed.

(** An UPDATE on [chunk] fires [chunks_au], which raises; an object that
    did not change is not written. *)
Lemma update_chunk_same c db : update_chunk c c db = Returned db.
Proof. unfold update_chunk. by rewrite decide_True. Qed.

Lemma update_chunk_changed o n db :
  o ≠ n → update_chunk o n db = Raised OperationalError.
Proof. intros Hne. unfold update_chunk. by rewrite decide_False. Qed.

Lemma update_chunks_run (g : Chunk → Chunk) olds db :
  run_all (λ oc, update_chunk oc.1 oc.2) (zip olds (g <$> olds)) db
  = if decide (Forall (λ c, g c = c) olds) then Returned db
    else Raised OperationalError.
Proof.
  induction olds as [|o olds IH].
  - by rewrite decide_True.
  - cbn [fmap list_fmap zip zip_with run_all fst snd].
    destruct (decide (o = g o)) as [Ho|Ho].
    + rewrite <- Ho at 1. rewrite update_chunk_same, IH.
      destruct (decide (Forall _ olds)) as [Hall|Hall].
      * rewrite decide_True; [done|]. by constructor.
      * rewrite decide_False; [done|]. by intros [_ ?]%Forall_cons.
    + rewrite update_chunk_changed by done.
      rewrite decide_False; [done|]. intros [? _]%Forall_cons. congruence.
Qed.

Lemma lookup_foldr_delete {V} (ids : list nat) (m : gmap nat V) k :
  foldr delete m ids !! k = if decide (k ∈ ids) then None else m !! k.
Proof.
  induction ids as [|i ids IH].
  - rewrite decide_False by apply not_elem_of_nil. done.
  - cbn [foldr]. rewrite lookup_delete. destruct (decide (i = k)) as [<-|Hne].
    + rewrite decide_True by left. done.
    + rewrite IH. destruct (decide (k ∈ ids)) as [Hk|Hk].
      * rewrite decide_True by (by right). done.
      * rewrite decide_False; [done|]. rewrite elem_of_cons. intros [->|?]; done.
Qed.

Lemma vec_delete_in_lookup ids db k :
  chunk_embeddings (vec_delete_in ids db) !! k
  = if decide (k ∈ ids) then None else chunk_embeddings db !! k.
Proof. apply lookup_foldr_delete. Qed.

(** ** Folds of statements over the store *)

Lemma insert_chunks_items cs db :
  item_tbl (foldl (λ d c, insert_chunk c d) db cs) = item_tbl db.
Proof. revert db. induction cs as [|c cs IH]; intros db; [done|]. simpl. by rewrite IH. Qed.

Lemma insert_chunks_tags cs db :
  tag_tbl (foldl (λ d c, insert_chunk c d) db cs) = tag_tbl db.
Proof. revert db. induction cs as [|c cs IH]; intros db; [done|]. simpl. by rewrite IH. Qed.

Lemma insert_chunks_embeddings cs db :
  chunk_embeddings (foldl (λ d c, insert_chunk c d) db cs) = chunk_embeddings db.
Proof. revert db. induction cs as [|c cs IH]; intros db; [done|]. simpl. by rewrite IH. Qed.

Lemma insert_chunks_dim cs db :
  vec_dim (foldl (λ d c, insert_chunk c d) db cs) = vec_dim db.
Proof. revert db. induction cs as [|c cs IH]; intros db; [done|]. simpl. by rewrite IH. Qed.

Lemma insert_chunks_chunks cs db :
  chunk_tbl (foldl (λ d c, insert_chunk c d) db cs) = chunk_tbl db ++ cs.
Proof.
  revert db. induction cs as [|c cs IH]; intros db; simpl.
  - by rewrite app_nil_r.
  - rewrite IH. simpl. by rewrite <- app_assoc.
Qed.

Lemma insert_chunks_fts_is_Some cs db k :
  is_Some (chunks_fts (foldl (λ d c, insert_chunk c d) db cs) !! k) ↔
  k ∈ chunk_id <$> cs ∨ is_Some (chunks_fts db !! k).
Proof.
  revert db. induction cs as [|c cs IH]; intros db; simpl.
  - rewrite elem_of_nil. tauto.
  - rewrite IH. simpl. rewrite lookup_insert, elem_of_cons.
    destruct (decide (chunk_id c = k)) as [->|Hne].
    + split; [intros _; left; by left|intros _; right; eauto].
    + intuition (eauto; congruence).
Qed.

(** ** The key dictionary and the incoming key set *)

Lemma truthy_Some k : truthy (Some k) = true ↔ k ≠ "".
Proof.
  unfold truthy. destruct (decide (k = "")) as [->|Hk].
  - split; [done|]. intros Hne. by destruct Hne.
  - rewrite bool_decide_eq_false_2 by done. done.
Qed.

Lemma truthy_true s : truthy s = true ↔ ∃ k, s = Some k ∧ k ≠ "".
Proof.
  destruct s as [k|].
  - rewrite truthy_Some. split; [eauto|]. by intros (? & [= <-] & ?).
  - split; [done|]. by intros (? & ? & ?).
Qed.

Lemma existing_keys_fold l (m : gmap string nat) k :
  foldl (λ m c, if truthy (chunk_key c)
                then <[default "" (chunk_key c) := chunk_id c]> m
                else m) m l !! k
  = match last (filter (λ c, chunk_key c = Some k) l) with
    | Some c => if decide (k = "") then m !! k else Some (chunk_id c)
    | None => m !! k
    end.
Proof.
  revert m. induction l as [|c l IH]; intros m; [done|].
  cbn [foldl]. rewrite IH, filter_cons.
  destruct (decide (chunk_key c = Some k)) as [Hk|Hk].
  - rewrite Hk. cbn [default from_option id]. destruct (decide (k = "")) as [->|Hne].
    + cbn [truthy]. rewrite bool_decide_eq_true_2 by done. simpl.
      by destruct (last (filter _ l)); destruct (last (c :: _)).
    + apply truthy_Some in Hne as Ht. rewrite Ht.
      destruct (filter (λ c0, chunk_key c0 = Some k) l) as [|c' l'] eqn:E.
      * simpl. by rewrite lookup_insert_eq.
      * change (last (c :: c' :: l')) with (last (c' :: l')).
        destruct (last (c' :: l')) eqn:E'; [done|].
        by apply last_None in E'.
  - assert (Hm : (if truthy (chunk_key c)
                  then <[default "" (chunk_key c) := chunk_id c]> m
                  else m) !! k = m !! k).
    { destruct (truthy (chunk_key c)) eqn:Ht; [|done].
      apply truthy_true in Ht as (k' & Hk' & ?).
      rewrite Hk'. cbn [default from_option id]. apply lookup_insert_ne. congruence. }
    by rewrite Hm.
Qed.

Lemma existing_keys_of_lookup l k :
  existing_keys_of l !! k
  = if decide (k = "") then None
    else chunk_id <$> last (filter (λ c, chunk_key c = Some k) l).
Proof.
  unfold existing_keys_of. rewrite existing_keys_fold, lookup_empty.
  destruct (last _); by destruct (decide (k = "")).
Qed.

Lemma existing_keys_of_Some l k cid :
  existing_keys_of l !! k = Some cid →
  k ≠ "" ∧ ∃ c, c ∈ l ∧ chunk_id c = cid ∧ chunk_key c = Some k.
Proof.
  rewrite existing_keys_of_lookup. destruct (decide (k = "")); [done|].
  destruct (last _) as [c|] eqn:E; [|done]. intros [= <-].
  split; [done|]. exists c. apply last_Some_elem_of in E.
  apply list_elem_of_filter in E as [? ?]. done.
Qed.

Lemma existing_keys_of_is_Some l k :
  is_Some (existing_keys_of l !! k) ↔
  k ≠ "" ∧ ∃ c, c ∈ l ∧ chunk_key c = Some k.
Proof.
  split.
  - intros [cid (? & c & ? & ? & ?)%existing_keys_of_Some]. eauto.
  - intros (Hk & c & Hc & Hkey). rewrite existing_keys_of_lookup.
    rewrite decide_False by done.
    destruct (last _) as [c'|] eqn:E; [by eexists|].
    apply last_None in E.
    assert (c ∈ filter (λ c0, chunk_key c0 = Some k) l) as Hin
      by (by apply list_elem_of_filter).
    rewrite E in Hin. by apply elem_of_nil in Hin.
Qed.

Lemma elem_of_new_chunk_keys_of chunks k :
  k ∈ new_chunk_keys_of chunks ↔
  k ≠ "" ∧ ∃ d, d ∈ chunks ∧ cd_key d = Some k.
Proof.
  unfold new_chunk_keys_of. rewrite elem_of_list_to_set, list_elem_of_fmap.
  split.
  - intros (s & -> & [Ht (d & -> & Hd)%list_elem_of_fmap]%list_elem_of_filter).
    apply Is_true_true, truthy_true in Ht as (k & Hk & Hne).
    rewrite Hk. eauto.
  - intros (Hne & d & Hd & Hk). exists (Some k). split; [done|].
    apply list_elem_of_filter. split.
    + apply Is_true_true. by apply truthy_Some.
    + apply list_elem_of_fmap. eauto.
Qed.

Lemma stale_true keys c :
  stale keys c = true ↔
  ∃ k, chunk_key c = Some k ∧ k ≠ "" ∧ k ∉ keys.
Proof.
  unfold stale. rewrite andb_true_iff, truthy_true, bool_decide_eq_true.
  split.
  - intros [(k & Hk & Hne) Hnin]. rewrite Hk in Hnin. eauto.
  - intros (k & Hk & Hne & Hnin). rewrite Hk. eauto.
Qed.

Lemma target_Some existing_keys d cid :
  target existing_keys d = Some cid ↔
  ∃ k, cd_key d = Some k ∧ k ≠ "" ∧ existing_keys !! k = Some cid.
Proof.
  unfold target. destruct (truthy (cd_key d)) eqn:Ht.
  - apply truthy_true in Ht as (k & Hk & Hne). rewrite Hk. cbn [default from_option id].
    split; [eauto|]. by intros (? & [= <-] & _ & ?).
  - split; [done|]. intros (k & Hk & Hne & _).
    rewrite Hk in Ht. apply truthy_Some in Hne. congruence.
Qed.

(** ** Batches on the vec0 table *)

Lemma vec_replace_all_lookup rows dim (m m' : gmap nat embedding) k :
  vec_replace_all rows dim m = Some m' → k ∉ rows.*1 → m' !! k = m !! k.
Proof.
  revert m. induction rows as [|[cid e] rows IH]; intros m; simpl.
  - by intros [= <-].
  - unfold vec_insert. destruct (decide (length e = dim)); [|done].
    rewrite lookup_delete_eq. intros Hrest [Hne Hk]%not_elem_of_cons.
    rewrite (IH _ Hrest Hk), lookup_insert_ne, lookup_delete_ne; done.
Qed.

Lemma vec_replace_all_dom rows dim (m m' : gmap nat embedding) :
  vec_replace_all rows dim m = Some m' →
  dom m' = dom m ∪ list_to_set rows.*1.
Proof.
  revert m. induction rows as [|[cid e] rows IH]; intros m; simpl.
  - intros [= <-]. simpl. by rewrite union_empty_r_L.
  - unfold vec_insert. destruct (decide (length e = dim)); [|done].
    rewrite lookup_delete_eq. intros ->%IH.
    rewrite dom_insert_L, dom_delete_L.
    apply set_eq. intros x. rewrite !elem_of_union, elem_of_difference,
      !elem_of_singleton. destruct (decide (x = cid)); tauto.
Qed.

Lemma vec_replace_all_accept rows dim (m : gmap nat embedding) :
  (∀ p, p ∈ rows → length p.2 = dim) →
  is_Some (vec_replace_all rows dim m).
Proof.
  revert m. induction rows as [|[cid e] rows IH]; intros m Hlen; simpl; [eauto|].
  unfold vec_insert. rewrite decide_True by (apply (Hlen (cid, e)); left).
  rewrite lookup_delete_eq. apply IH. intros p Hp. apply Hlen. by right.
Qed.

Lemma vec_insert_all_dom rows dim (m m' : gmap nat embedding) :
  vec_insert_all rows dim m = Some m' →
  dom m' = dom m ∪ list_to_set rows.*1.
Proof.
  revert m. induction rows as [|[cid e] rows IH]; intros m; simpl.
  - intros [= <-]. simpl. by rewrite union_empty_r_L.
  - unfold vec_insert. destruct (decide (length e = dim)); [|done].
    destruct (m !! cid); [done|]. intros ->%IH.
    rewrite dom_insert_L. simpl.
    by rewrite (assoc_L (∪)), (comm_L (∪) (dom m)).
Qed.

Lemma vec_insert_all_accept rows dim (m : gmap nat embedding) :
  (∀ p, p ∈ rows → length p.2 = dim) →
  NoDup rows.*1 → (∀ k, k ∈ rows.*1 → m !! k = None) →
  is_Some (vec_insert_all rows dim m).
Proof.
  revert m. induction rows as [|[cid e] rows IH]; intros m Hlen Hnd Hfresh;
    simpl; [eauto|].
  apply NoDup_cons in Hnd as [Hcid Hnd].
  unfold vec_insert. rewrite decide_True by (apply (Hlen (cid, e)); left).
  rewrite Hfresh by left. apply IH; [|done|].
  - intros p Hp. apply Hlen. by right.
  - intros k Hk. rewrite lookup_insert_ne; [|intros ->; done].
    apply Hfresh. by right.
Qed.

(** ** The merge loop *)

Section MergeLoop.
Context `{Collaborators}.
Variables (existing_keys : gmap string nat) (item_pk first_id : nat).

Lemma merge_loop_texts idx chunks s :
  ms_texts (merge_loop existing_keys item_pk first_id idx chunks s)
  = ms_texts s ++ (cd_text <$> chunks).
Proof.
  revert idx s. induction chunks as [|d chunks IH]; intros idx s; simpl.
  - by rewrite app_nil_r.
  - rewrite IH. unfold merge_step.
    destruct (target existing_keys d); simpl; by rewrite <- app_assoc.
Qed.

Lemma merge_loop_new idx chunks s :
  ms_new (merge_loop existing_keys item_pk first_id idx chunks s)
  = ms_new s
    ++ created existing_keys item_pk (first_id + length (ms_new s)) idx chunks.
Proof.
  revert idx s. induction chunks as [|d chunks IH]; intros idx s; simpl.
  - by rewrite app_nil_r.
  - rewrite IH. unfold merge_step.
    destruct (target existing_keys d); simpl; [done|].
    rewrite length_app, <- app_assoc. simpl.
    by replace (first_id + (length (ms_new s) + 1))
      with (S (first_id + length (ms_new s))) by lia.
Qed.

Lemma merge_loop_records idx chunks s :
  ms_records (merge_loop existing_keys item_pk first_id idx chunks s)
  = ms_records s
    ++ recorded existing_keys (first_id + length (ms_new s)) chunks.
Proof.
  revert idx s. induction chunks as [|d chunks IH]; intros idx s; simpl.
  - by rewrite app_nil_r.
  - rewrite IH. unfold merge_step.
    destruct (target existing_keys d); simpl; rewrite <- app_assoc; [done|].
    rewrite length_app. simpl.
    by replace (first_id + (length (ms_new s) + 1))
      with (S (first_id + length (ms_new s))) by lia.
Qed.

Lemma merge_loop_objs idx chunks s :
  ms_objs (merge_loop existing_keys item_pk first_id idx chunks s)
  = merged existing_keys idx chunks <$> ms_objs s.
Proof.
  revert idx s. induction chunks as [|d chunks IH]; intros idx s.
  - simpl. transitivity (id <$> ms_objs s); [by rewrite list_fmap_id|].
    by apply list_fmap_ext.
  - cbn [merge_loop]. rewrite IH. unfold merge_step.
    destruct (target existing_keys d) as [cid|] eqn:Ht; cbn [ms_objs].
    + rewrite <- list_fmap_compose. apply list_fmap_ext. intros _ c _.
      unfold merged, compose. cbn [last_hit]. rewrite Ht.
      destruct (decide (chunk_id c = cid)) as [<-|Hne].
      * cbn [assign chunk_id].
        destruct (last_hit existing_keys (chunk_id c) (S idx) chunks)
          as [[i d']|]; [done|].
        by rewrite decide_True.
      * destruct (last_hit existing_keys (chunk_id c) (S idx) chunks)
          as [[i d']|]; [done|].
        rewrite decide_False; [done|congruence].
    + apply list_fmap_ext. intros _ c _. unfold merged. cbn [last_hit].
      rewrite Ht.
      destruct (last_hit existing_keys (chunk_id c) (S idx) chunks)
        as [[i d']|]; [done|].
      by rewrite decide_False.
Qed.

Lemma merged_fixed idx chunks c :
  (∀ i d, last_hit existing_keys (chunk_id c) idx chunks = Some (i, d) →
          assign i d c = c) →
  merged existing_keys idx chunks c = c.
Proof.
  intros Hfix. unfold merged.
  destruct (last_hit _ _ _ _) as [[i d]|]; [by apply Hfix|done].
Qed.

Lemma merged_id idx chunks c :
  chunk_id (merged existing_keys idx chunks c) = chunk_id c.
Proof. unfold merged. by destruct (last_hit _ _ _ _) as [[? ?]|]. Qed.

Lemma merged_item_id idx chunks c :
  chunk_item_id (merged existing_keys idx chunks c) = chunk_item_id c.
Proof. unfold merged. by destruct (last_hit _ _ _ _) as [[? ?]|]. Qed.

Lemma merged_key idx chunks c :
  chunk_key (merged existing_keys idx chunks c) = chunk_key c.
Proof. unfold merged. by destruct (last_hit _ _ _ _) as [[? ?]|]. Qed.

Lemma last_hit_target cid idx chunks i d :
  last_hit existing_keys cid idx chunks = Some (i, d) →
  target existing_keys d = Some cid ∧ chunks !! (i - idx) = Some d ∧ idx ≤ i.
Proof.
  revert idx. induction chunks as [|d0 chunks IH]; intros idx; [done|].
  cbn [last_hit]. destruct (last_hit existing_keys cid (S idx) chunks)
    as [[i' d']|] eqn:E.
  - intros [= -> ->]. destruct (IH _ E) as (? & Hl & ?).
    split; [done|]. split; [|lia].
    replace (i - idx) with (S (i - S idx)) by lia. done.
  - destruct (decide (target existing_keys d0 = Some cid)); [|done].
    intros [= -> ->]. split; [done|]. split; [|lia].
    by replace (i - i) with 0 by lia.
Qed.

Lemma last_hit_None cid idx chunks :
  last_hit existing_keys cid idx chunks = None ↔
  ∀ d, d ∈ chunks → target existing_keys d ≠ Some cid.
Proof.
  revert idx. induction chunks as [|d0 chunks IH]; intros idx.
  - split; [|done]. intros _ d Hd. by apply elem_of_nil in Hd.
  - cbn [last_hit]. destruct (last_hit existing_keys cid (S idx) chunks)
      as [[i' d']|] eqn:E.
    + split; [done|]. intros Hall. exfalso.
      destruct (last_hit_target _ _ _ _ _ E) as (Ht & Hl & _).
      apply (Hall d'); [|done]. right. by apply list_elem_of_lookup_2 in Hl.
    + rewrite IH in E.
      destruct (decide (target existing_keys d0 = Some cid)) as [Ht|Ht].
      * split; [done|]. intros Hall. exfalso. apply (Hall d0); [left|done].
      * split; [|done]. intros _ d Hd. apply elem_of_cons in Hd as [->|Hd]; eauto.
Qed.

Lemma created_ids cid idx chunks :
  chunk_id <$> created existing_keys item_pk cid idx chunks
  = seq cid (length (created existing_keys item_pk cid idx chunks)).
Proof.
  revert cid idx. induction chunks as [|d chunks IH]; intros cid idx; [done|].
  simpl. destruct (target existing_keys d); [apply IH|].
  simpl. by rewrite IH.
Qed.

Lemma created_item_id cid idx chunks c :
  c ∈ created existing_keys item_pk cid idx chunks → chunk_item_id c = item_pk.
Proof.
  revert cid idx. induction chunks as [|d chunks IH]; intros cid idx; simpl.
  - intros Hc. by apply elem_of_nil in Hc.
  - destruct (target existing_keys d); [apply IH|].
    intros [->|Hc]%elem_of_cons; [done|]. by eapply IH.
Qed.

Lemma recorded_length cid chunks :
  length (recorded existing_keys cid chunks) = length chunks.
Proof.
  revert cid. induction chunks as [|d chunks IH]; intros cid; [done|].
  simpl. destruct (target existing_keys d); simpl; by rewrite IH.
Qed.

Lemma created_lookup cid idx chunks i d :
  chunks !! i = Some d → target existing_keys d = None →
  ∃ cid', new_chunk item_pk cid' (idx + i) d
          ∈ created existing_keys item_pk cid idx chunks.
Proof.
  revert cid idx i. induction chunks as [|d0 chunks IH]; intros cid idx i; [done|].
  destruct i as [|i]; simpl.
  - intros [= ->] ->. exists cid. rewrite Nat.add_0_r. left.
  - intros Hi Ht. destruct (target existing_keys d0).
    + destruct (IH cid (S idx) i Hi Ht) as [cid' Hin]. exists cid'.
      by replace (idx + S i) with (S idx + i) by lia.
    + destruct (IH (S cid) (S idx) i Hi Ht) as [cid' Hin]. exists cid'.
      replace (idx + S i) with (S idx + i) by lia. by right.
Qed.

Lemma recorded_elem cid chunks k :
  k ∈ recorded existing_keys cid chunks →
  (∃ d, d ∈ chunks ∧ target existing_keys d = Some k) ∨ cid ≤ k.
Proof.
  revert cid. induction chunks as [|d chunks IH]; intros cid; simpl.
  - intros Hk. by apply elem_of_nil in Hk.
  - destruct (target existing_keys d) as [t|] eqn:Ht.
    + intros [->|Hk]%elem_of_cons.
      * left. exists d. split; [left|done].
      * destruct (IH _ Hk) as [(d' & ? & ?)|?]; [|by right].
        left. exists d'. split; [by right|done].
    + intros [->|Hk]%elem_of_cons; [by right|].
      destruct (IH _ Hk) as [(d' & ? & ?)|?]; [|right; lia].
      left. exists d'. split; [by right|done].
Qed.

Lemma recorded_ids cid idx chunks k :
  k ∈ recorded existing_keys cid chunks →
  (∃ d, d ∈ chunks ∧ target existing_keys d = Some k) ∨
  k ∈ chunk_id <$> created existing_keys item_pk cid idx chunks.
Proof.
  revert cid idx. induction chunks as [|d chunks IH]; intros cid idx; simpl.
  - intros Hk. by apply elem_of_nil in Hk.
  - destruct (target existing_keys d) as [t|] eqn:Ht.
    + intros [->|Hk]%elem_of_cons.
      * left. exists d. split; [left|done].
      * destruct (IH _ (S idx) Hk) as [(d' & ? & ?)|?]; [|by right].
        left. exists d'. split; [by right|done].
    + intros [->|Hk]%elem_of_cons; [right; left|].
      destruct (IH _ (S idx) Hk) as [(d' & ? & ?)|?]; [|right; by right].
      left. exists d'. split; [by right|done].
Qed.

Lemma created_all_hit cid idx chunks :
  (∀ d, d ∈ chunks → is_Some (target existing_keys d)) →
  created existing_keys item_pk cid idx chunks = [].
Proof.
  revert cid idx. induction chunks as [|d chunks IH]; intros cid idx Hhit;
    [done|].
  simpl. destruct (Hhit d) as [t ->]; [left|].
  apply IH. intros d' Hd'. apply Hhit. by right.
Qed.

Lemma recorded_all_hit cid chunks k :
  (∀ d, d ∈ chunks → is_Some (target existing_keys d)) →
  k ∈ recorded existing_keys cid chunks →
  ∃ d, d ∈ chunks ∧ target existing_keys d = Some k.
Proof.
  revert cid. induction chunks as [|d chunks IH]; intros cid Hhit; simpl.
  - intros Hk. by apply elem_of_nil in Hk.
  - destruct (Hhit d) as [t Ht]; [left|]. rewrite Ht.
    intros [->|Hk]%elem_of_cons.
    + exists d. split; [left|done].
    + destruct (IH cid) as (d' & ? & ?); [|done|].
      * intros d' Hd'. apply Hhit. by right.
      * exists d'. split; [by right|done].
Qed.

End MergeLoop.

(** ** The two paths of [add_item] *)

Section Paths.
Context `{Collaborators}.

Lemma embed_chunks_frame write texts records db :
  let db' := (embed_chunks write texts records db).1 in
  item_tbl db' = item_tbl db ∧ chunk_tbl db' = chunk_tbl db ∧
  tag_tbl db' = tag_tbl db ∧ chunks_fts db' = chunks_fts db ∧
  vec_dim db' = vec_dim db ∧ setting_tbl db' = setting_tbl db.
Proof.
  unfold embed_chunks. destruct texts; [done|].
  destruct (get_embeddings_sync _); [|done].
  by destruct (write _ _ _).
Qed.

Lemma embed_chunks_lookup texts records db k :
  k ∉ records →
  chunk_embeddings (embed_chunks vec_replace_all texts records db).1 !! k
  = chunk_embeddings db !! k.
Proof.
  intros Hk. unfold embed_chunks. destruct texts; [done|].
  destruct (get_embeddings_sync _) as [embeddings|]; [|done].
  destruct (vec_replace_all _ _ _) as [m|] eqn:E; [|done]. simpl.
  apply (vec_replace_all_lookup _ _ _ _ _ E).
  intros [[a b] [-> Hab]]%list_elem_of_fmap. apply Hk.
  by apply elem_of_zip_l in Hab.
Qed.

Lemma embed_chunks_mono texts records db k :
  is_Some (chunk_embeddings db !! k) →
  is_Some (chunk_embeddings (embed_chunks vec_replace_all texts records db).1
           !! k).
Proof.
  intros Hk. unfold embed_chunks. destruct texts; [done|].
  destruct (get_embeddings_sync _) as [embeddings|]; [|done].
  destruct (vec_replace_all _ _ _) as [m|] eqn:E; [|done]. simpl.
  apply elem_of_dom. rewrite (vec_replace_all_dom _ _ _ _ E).
  apply elem_of_union. left. by apply elem_of_dom.
Qed.

Lemma embed_insert_dom texts records db k :
  is_Some (chunk_embeddings (embed_chunks vec_insert_all texts records db).1
           !! k) →
  k ∈ records ∨ is_Some (chunk_embeddings db !! k).
Proof.
  unfold embed_chunks. destruct texts; [by right|].
  destruct (get_embeddings_sync _) as [embeddings|]; [|by right].
  destruct (vec_insert_all _ _ _) as [m|] eqn:E; [|by right]. simpl.
  intros Hk%elem_of_dom. rewrite (vec_insert_all_dom _ _ _ _ E) in Hk.
  apply elem_of_union in Hk as [Hk|Hk]; [right; by apply elem_of_dom|left].
  apply elem_of_list_to_set, list_elem_of_fmap in Hk as ([a b] & -> & Hab).
  by apply elem_of_zip_l in Hab.
Qed.

Lemma zip_fst_snd_length {A B} (l : list A) (k : list B) :
  length l = length k → (zip l k).*1 = l ∧ (zip l k).*2 = k.
Proof. intros Hlen. split; [apply fst_zip|apply snd_zip]; lia. Qed.

Lemma embed_insert_ok texts ids db :
  provider_ok (vec_dim db) → length ids = length texts → NoDup ids →
  (∀ k, k ∈ ids → chunk_embeddings db !! k = None) →
  let p := embed_chunks vec_insert_all texts ids db in
  p.2 = Returned () ∧
  dom (chunk_embeddings p.1) = dom (chunk_embeddings db) ∪ list_to_set ids.
Proof.
  intros Hprov Hlen Hnd Hfresh p. subst p. unfold embed_chunks.
  destruct texts as [|t texts].
  { destruct ids; [|done]. simpl. by rewrite union_empty_r_L. }
  destruct (Hprov (t :: texts)) as (embs & -> & Hl & Hdim).
  destruct (zip_fst_snd_length ids embs) as [Hfst Hsnd]; [congruence|].
  destruct (vec_insert_all_accept (zip ids embs) (vec_dim db)
              (chunk_embeddings db)) as [m Hm].
  - intros p Hp. rewrite Forall_forall in Hdim. apply Hdim.
    rewrite <- Hsnd. apply list_elem_of_fmap. eauto.
  - by rewrite Hfst.
  - by rewrite Hfst.
  - rewrite Hm. simpl. split; [done|].
    apply vec_insert_all_dom in Hm. by rewrite Hm, Hfst.
Qed.

Lemma embed_replace_ok texts ids db :
  provider_ok (vec_dim db) → length ids = length texts →
  let p := embed_chunks vec_replace_all texts ids db in
  p.2 = Returned () ∧
  dom (chunk_embeddings p.1) = dom (chunk_embeddings db) ∪ list_to_set ids.
Proof.
  intros Hprov Hlen p. subst p. unfold embed_chunks.
  destruct texts as [|t texts].
  { destruct ids; [|done]. simpl. by rewrite union_empty_r_L. }
  destruct (Hprov (t :: texts)) as (embs & -> & Hl & Hdim).
  destruct (zip_fst_snd_length ids embs) as [Hfst Hsnd]; [congruence|].
  destruct (vec_replace_all_accept (zip ids embs) (vec_dim db)
              (chunk_embeddings db)) as [m Hm].
  - intros p Hp. rewrite Forall_forall in Hdim. apply Hdim.
    rewrite <- Hsnd. apply list_elem_of_fmap. eauto.
  - rewrite Hm. simpl. split; [done|].
    apply vec_replace_all_dom in Hm. by rewrite Hm, Hfst.
Qed.

Lemma finish_snd (item : Item) (p : DB * outcome unit) :
  p.2 = Returned () →
  (match p with
   | (db, Raised e) => (db, Raised e)
   | (db, Returned _) => (db, Returned (load_view item db))
   end).2 = Returned (load_view item p.1).
Proof. destruct p as [? [?|?]]; [done|discriminate]. Qed.

Lemma finish_fst (item : Item) (p : DB * outcome unit) :
  (match p with
   | (db, Raised e) => (db, Raised e)
   | (db, Returned _) => (db, Returned (load_view item db))
   end).1 = p.1.
Proof. by destruct p as [? [?|?]]. Qed.

Lemma next_rowid_fresh ids n : n ∈ ids → n < next_rowid ids.
Proof. intros Hn. unfold next_rowid. apply max_list_elem_of_le in Hn. lia. Qed.

Lemma NoDup_ids_app_seq ids n len :
  NoDup ids → next_rowid ids ≤ n → NoDup (ids ++ seq n len).
Proof.
  intros Hnd Hn. apply NoDup_app. split; [done|]. split; [|apply NoDup_seq].
  intros k Hk Hk'. apply next_rowid_fresh in Hk.
  apply elem_of_seq in Hk'. lia.
Qed.

Lemma insert_tags_Some rows tbl l :
  insert_tags rows tbl = Some l → l = tbl ++ rows.
Proof.
  revert tbl. induction rows as [|r rows IH]; intros tbl; simpl.
  - intros [= <-]. by rewrite app_nil_r.
  - destruct (tag_unique && bool_decide (r ∈ tbl)); [done|].
    intros ->%IH. by rewrite <- app_assoc.
Qed.

Lemma insert_tags_accept rows tbl :
  (tag_unique = true → NoDup rows ∧ ∀ r, r ∈ rows → r ∉ tbl) →
  insert_tags rows tbl = Some (tbl ++ rows).
Proof.
  revert tbl. induction rows as [|r rows IH]; intros tbl Hok; simpl.
  - by rewrite app_nil_r.
  - destruct tag_unique; simpl.
    + destruct (Hok eq_refl) as [[Hr Hnd]%NoDup_cons Hfresh].
      rewrite bool_decide_eq_false_2 by (apply Hfresh; left).
      rewrite IH; [by rewrite <- app_assoc|].
      intros _. split; [done|]. intros r' Hr' [Hin|Hin]%elem_of_app.
      * by eapply Hfresh; [right|].
      * apply list_elem_of_singleton in Hin. by subst.
    + rewrite IH; [by rewrite <- app_assoc|done].
Qed.

Lemma merge_tags_accept item_pk tags tbl :
  tags_accepted tags →
  insert_tags (mkTag item_pk <$> tags)
    (filter (λ t, tag_item_id t ≠ item_pk) tbl)
  = Some (filter (λ t, tag_item_id t ≠ item_pk) tbl ++ (mkTag item_pk <$> tags)).
Proof.
  intros Hok. apply insert_tags_accept. intros Hu. split.
  - apply NoDup_fmap_2; [|by apply Hok]. by intros ?? [= ->].
  - intros t [x [-> _]]%list_elem_of_fmap [Hne _]%list_elem_of_filter. done.
Qed.

(** A merge that writes no old chunk row leaves the old table in place. *)
Lemma merged_chunk_tbl_quiet item_pk chunks db :
  quiet item_pk chunks db →
  merged_chunk_tbl item_pk chunks db
  = chunk_tbl db
    ++ created (existing_keys_of (item_chunks item_pk db)) item_pk
         (next_rowid (chunk_id <$> chunk_tbl db)) 0 chunks.
Proof.
  intros [Hd Hall]. unfold merged_chunk_tbl. rewrite Hd.
  rewrite filter_all by (intros; apply not_elem_of_nil). f_equal.
  transitivity (id <$> chunk_tbl db); [|by rewrite list_fmap_id].
  apply list_fmap_ext. intros _ c _. simpl.
  destruct (decide (c ∈ item_chunks item_pk db)) as [Hc|Hc]; [|done].
  rewrite Forall_forall in Hall. by apply Hall.
Qed.

Lemma quiet_no_stale item_pk chunks db :
  quiet item_pk chunks db →
  filter (λ c, stale (new_chunk_keys_of chunks) c) (item_chunks item_pk db) = [].
Proof. intros [Hd _]. unfold doomed_ids in Hd. by apply fmap_nil_inv in Hd. Qed.

(** The flush of the merge path: it goes through exactly when no old chunk
    row has to be written. *)
Lemma merge_flush_run existing chunks db db3 s :
  ms_objs s
  = merged (existing_keys_of (item_chunks (item_id existing) db)) 0 chunks
    <$> item_chunks (item_id existing) db →
  match run_all (λ oc, update_chunk oc.1 oc.2)
          (zip (item_chunks (item_id existing) db) (ms_objs s)) db3 with
  | Raised e => Raised e
  | Returned db4 =>
      run_all delete_chunk
        (filter (λ c, stale (new_chunk_keys_of chunks) c)
                (item_chunks (item_id existing) db)) db4
  end
  = if decide (quiet (item_id existing) chunks db) then Returned db3
    else Raised OperationalError.
Proof.
  intros ->. rewrite update_chunks_run.
  destruct (decide (quiet _ _ _)) as [Hq|Hq].
  - rewrite decide_True by apply Hq.
    by rewrite delete_chunks_run, (quiet_no_stale _ _ _ Hq).
  - destruct (decide (Forall _ _)) as [Hall|Hall]; [|done].
    rewrite delete_chunks_run.
    destruct (filter _ _) as [|c cs] eqn:E; [|done].
    destruct Hq. split; [|done]. unfold doomed_ids. by rewrite E.
Qed.

(** When the flush goes through and the tag rows are accepted, the merge
    path commits these tables, whatever the embedding step does
    afterwards. *)
Lemma merge_path_flushed now existing r db tag_rows :
  quiet (item_id existing) (default [] (r_chunks r)) db →
  insert_tags (mkTag (item_id existing) <$> default [] (r_tags r))
    (filter (λ t, tag_item_id t ≠ item_id existing) (tag_tbl db))
  = Some tag_rows →
  let chunks := default [] (r_chunks r) in
  let db' := (merge_path now existing r db).1 in
  item_tbl db'
  = (λ i, if decide (item_id i = item_id existing)
          then set_metadata now r existing else i) <$> item_tbl db ∧
  tag_tbl db' = tag_rows ∧
  (NoDup (chunk_id <$> chunk_tbl db) →
   chunk_tbl db' = merged_chunk_tbl (item_id existing) chunks db) ∧
  (∀ k, k ∈ doomed_ids (item_id existing) chunks db →
        chunks_fts db' !! k = None) ∧
  (∀ k, k ∉ recorded (existing_keys_of (item_chunks (item_id existing) db))
              (next_rowid (chunk_id <$> chunk_tbl db)) chunks →
        chunk_embeddings db' !! k
        = if decide (k ∈ doomed_ids (item_id existing) chunks db)
          then None else chunk_embeddings db !! k) ∧
  (∀ k, k ∉ doomed_ids (item_id existing) chunks db →
        is_Some (chunk_embeddings db !! k) →
        is_Some (chunk_embeddings db' !! k)) ∧
  chunk_tbl db'
  = chunk_tbl db
    ++ created (existing_keys_of (item_chunks (item_id existing) db))
         (item_id existing) (next_rowid (chunk_id <$> chunk_tbl db)) 0 chunks ∧
  (∀ k, is_Some (chunks_fts db' !! k) ↔
        k ∈ chunk_id <$> created
              (existing_keys_of (item_chunks (item_id existing) db))
              (item_id existing) (next_rowid (chunk_id <$> chunk_tbl db))
              0 chunks
        ∨ is_Some (chunks_fts db !! k)) ∧
  vec_dim db' = vec_dim db ∧ setting_tbl db' = setting_tbl db ∧
  chunks_fts db'
  = chunks_fts
      (foldl (λ d c, insert_chunk c d)
         (with_items (fmap (λ i, if decide (item_id i = item_id existing)
                                 then set_metadata now r existing else i)) db)
         (created (existing_keys_of (item_chunks (item_id existing) db))
            (item_id existing) (next_rowid (chunk_id <$> chunk_tbl db))
            0 chunks)).
Proof.
  intros Hq Htags chunks db'. subst db'. fold chunks in Hq.
  pose proof (quiet_no_stale _ _ _ Hq) as Hstale.
  assert (Hdoomed : doomed_ids (item_id existing) chunks db = [])
    by apply Hq.
  rewrite (merged_chunk_tbl_quiet _ _ _ Hq). rewrite Hdoomed.
  unfold merge_path. fold chunks.
  set (loaded := item_chunks (item_id existing) db) in *.
  set (ek := existing_keys_of loaded).
  rewrite Hstale. cbn [fmap list_fmap].
  set (s := merge_loop ek (item_id existing) _ 0 chunks _).
  assert (Hobjs : ms_objs s = merged ek 0 chunks <$> loaded)
    by (subst s; by rewrite merge_loop_objs).
  assert (Hnew : ms_new s = created ek (item_id existing)
                   (next_rowid (chunk_id <$> chunk_tbl db)) 0 chunks).
  { subst s. rewrite merge_loop_new. simpl. by rewrite Nat.add_0_r. }
  assert (Hrec : ms_records s
                 = recorded ek (next_rowid (chunk_id <$> chunk_tbl db)) chunks).
  { subst s. rewrite merge_loop_records. simpl. by rewrite Nat.add_0_r. }
  clearbody s.
  rewrite Hobjs, update_chunks_run.
  rewrite decide_True by apply Hq.
  cbn [run_all].
  rewrite insert_chunks_tags.
  cbn [with_items tag_tbl]. rewrite Htags.
  rewrite finish_fst.
  set (db6 := with_tags _ _).
  destruct (embed_chunks_frame vec_replace_all (ms_texts s) (ms_records s) db6)
    as (-> & -> & -> & -> & -> & ->).
  assert (Hemb : chunk_embeddings db6 = chunk_embeddings db).
  { subst db6. cbn [with_tags chunk_embeddings].
    by rewrite insert_chunks_embeddings. }
  assert (Hchunks : chunk_tbl db6
                    = chunk_tbl db ++ created ek (item_id existing)
                        (next_rowid (chunk_id <$> chunk_tbl db)) 0 chunks).
  { subst db6. cbn [with_tags chunk_tbl].
    by rewrite insert_chunks_chunks, Hnew. }
  repeat split.
  - subst db6. cbn [with_tags item_tbl]. by rewrite insert_chunks_items.
  - done.
  - by intros k Hk%not_elem_of_nil.
  - intros k Hk. rewrite embed_chunks_lookup by (by rewrite Hrec).
    rewrite Hemb. rewrite decide_False; [done|apply not_elem_of_nil].
  - intros k _ Hsome. apply embed_chunks_mono. by rewrite Hemb.
  - done.
  - subst db6. cbn [with_tags chunks_fts].
    rewrite insert_chunks_fts_is_Some, Hnew. done.
  - subst db6. cbn [with_tags chunks_fts].
    rewrite insert_chunks_fts_is_Some, Hnew. done.
  - subst db6. cbn [with_tags vec_dim]. by rewrite insert_chunks_dim.
  - subst db6. cbn [with_tags setting_tbl].
    clear. generalize (ms_new s). intros cs.
    set (d := with_items _ db).
    assert (setting_tbl d = setting_tbl db) as <- by done.
    clearbody d. revert d.
    induction cs as [|c cs IH]; intros d; [done|]. simpl. by rewrite IH.
  - subst db6. cbn [with_tags chunks_fts]. by rewrite Hnew.
Qed.

Lemma merge_path_committed now existing r db :
  quiet (item_id existing) (default [] (r_chunks r)) db →
  tags_accepted (default [] (r_tags r)) →
  let chunks := default [] (r_chunks r) in
  let db' := (merge_path now existing r db).1 in
  item_tbl db'
  = (λ i, if decide (item_id i = item_id existing)
          then set_metadata now r existing else i) <$> item_tbl db ∧
  tag_tbl db'
  = filter (λ t, tag_item_id t ≠ item_id existing) (tag_tbl db)
    ++ (mkTag (item_id existing) <$> default [] (r_tags r)) ∧
  (NoDup (chunk_id <$> chunk_tbl db) →
   chunk_tbl db' = merged_chunk_tbl (item_id existing) chunks db) ∧
  (∀ k, k ∈ doomed_ids (item_id existing) chunks db →
        chunks_fts db' !! k = None) ∧
  (∀ k, k ∉ recorded (existing_keys_of (item_chunks (item_id existing) db))
              (next_rowid (chunk_id <$> chunk_tbl db)) chunks →
        chunk_embeddings db' !! k
        = if decide (k ∈ doomed_ids (item_id existing) chunks db)
          then None else chunk_embeddings db !! k) ∧
  (∀ k, k ∉ doomed_ids (item_id existing) chunks db →
        is_Some (chunk_embeddings db !! k) →
        is_Some (chunk_embeddings db' !! k)) ∧
  chunk_tbl db'
  = chunk_tbl db
    ++ created (existing_keys_of (item_chunks (item_id existing) db))
         (item_id existing) (next_rowid (chunk_id <$> chunk_tbl db)) 0 chunks.
Proof.
  intros Hq Htags chunks db'.
  destruct (merge_path_flushed now existing r db _ Hq
              (merge_tags_accept _ _ _ Htags))
    as (? & ? & ? & ? & ? & ? & ? & _).
  done.
Qed.

(** With a provider that keeps its contract the merge path returns the
    item as the store then has it. *)
Lemma merge_path_returns now existing r db :
  quiet (item_id existing) (default [] (r_chunks r)) db →
  tags_accepted (default [] (r_tags r)) →
  provider_ok (vec_dim db) →
  let p := merge_path now existing r db in
  p.2 = Returned (load_view (set_metadata now r existing) p.1).
Proof.
  intros Hq Htags Hprov p. subst p.
  pose proof (quiet_no_stale _ _ _ Hq) as Hstale.
  unfold merge_path. rewrite Hstale. cbn [fmap list_fmap].
  set (s := merge_loop _ _ _ 0 _ _).
  assert (Hlen : length (ms_records s) = length (ms_texts s)).
  { subst s. rewrite merge_loop_records, merge_loop_texts. simpl.
    by rewrite recorded_length, length_fmap. }
  assert (Hobjs : ms_objs s
                  = merged (existing_keys_of (item_chunks (item_id existing) db))
                      0 (default [] (r_chunks r))
                    <$> item_chunks (item_id existing) db)
    by (subst s; by rewrite merge_loop_objs).
  clearbody s.
  rewrite Hobjs, update_chunks_run, decide_True by apply Hq.
  cbn [run_all].
  rewrite insert_chunks_tags.
  cbn [with_items tag_tbl]. rewrite (merge_tags_accept _ _ _ Htags).
  set (db6 := with_tags _ _).
  destruct (embed_replace_ok (ms_texts s) (ms_records s) db6) as [Hret _];
    [|done|].
  - subst db6. cbn [with_tags vec_dim].
    rewrite insert_chunks_dim. done.
  - by rewrite finish_fst, (finish_snd _ _ Hret).
Qed.

(** What a merge leaves when its session rolls back: the deletion on the
    raw connection, and nothing else. *)
Lemma merge_path_undone (existing : Item) (r : IngestionRecord) (db : DB) :
  let chunks := default [] (r_chunks r) in
  let doomed := doomed_ids (item_id existing) chunks db in
  let db1 := match doomed with [] => db | _ => vec_delete_in doomed db end in
  item_tbl db1 = item_tbl db ∧ chunk_tbl db1 = chunk_tbl db ∧
  tag_tbl db1 = tag_tbl db ∧ chunks_fts db1 = chunks_fts db ∧
  vec_dim db1 = vec_dim db ∧ setting_tbl db1 = setting_tbl db ∧
  (∀ k, chunk_embeddings db1 !! k
        = if decide (k ∈ doomed) then None else chunk_embeddings db !! k).
Proof.
  intros chunks doomed db1. subst db1.
  destruct doomed as [|i ids] eqn:E.
  - repeat split; done.
  - repeat split; try done. intros k. apply vec_delete_in_lookup.
Qed.

(** A merge that has to write an old chunk row raises at the flush. *)
Lemma merge_path_loud now existing r db :
  ¬ quiet (item_id existing) (default [] (r_chunks r)) db →
  let chunks := default [] (r_chunks r) in
  let p := merge_path now existing r db in
  p.2 = Raised OperationalError ∧
  item_tbl p.1 = item_tbl db ∧ chunk_tbl p.1 = chunk_tbl db ∧
  tag_tbl p.1 = tag_tbl db ∧ chunks_fts p.1 = chunks_fts db ∧
  vec_dim p.1 = vec_dim db ∧ setting_tbl p.1 = setting_tbl db ∧
  (∀ k, chunk_embeddings p.1 !! k
        = if decide (k ∈ doomed_ids (item_id existing) chunks db) then None
          else chunk_embeddings db !! k).
Proof.
  intros Hq chunks p. subst p.
  pose proof (merge_path_undone existing r db) as Hun.
  cbv zeta in Hun. fold chunks in Hun.
  unfold merge_path. fold chunks.
  unfold doomed_ids in *.
  set (loaded := item_chunks (item_id existing) db) in *.
  set (ek := existing_keys_of loaded).
  set (doomed := filter (λ c, stale (new_chunk_keys_of chunks) c) loaded) in *.
  set (db1 := match chunk_id <$> doomed with
              | [] => db | _ => vec_delete_in (chunk_id <$> doomed) db end) in *.
  clearbody db1.
  set (s := merge_loop ek (item_id existing) _ 0 chunks _).
  assert (Hobjs : ms_objs s = merged ek 0 chunks <$> loaded)
    by (subst s; by rewrite merge_loop_objs).
  clearbody s.
  set (db3 := foldl _ _ (ms_new s)). clearbody db3.
  pose proof (merge_flush_run existing chunks db db3 s Hobjs) as Hrun.
  rewrite decide_False in Hrun by done.
  fold loaded in Hrun. fold doomed in Hrun.
  destruct (run_all (λ oc, update_chunk oc.1 oc.2) _ db3) as [db4|e'].
  - rewrite Hrun. split; [done|exact Hun].
  - injection Hrun as ->. split; [done|exact Hun].
Qed.

(** When the tag rows are refused, the session rolls back as well. *)
Lemma merge_path_rolled_back now existing r db :
  insert_tags (mkTag (item_id existing) <$> default [] (r_tags r))
    (filter (λ t, tag_item_id t ≠ item_id existing) (tag_tbl db))
  = None →
  let db' := (merge_path now existing r db).1 in
  (merge_path now existing r db).2
  = Raised (if decide (quiet (item_id existing) (default [] (r_chunks r)) db)
            then IntegrityError else OperationalError) ∧
  item_tbl db' = item_tbl db ∧ chunk_tbl db' = chunk_tbl db ∧
  tag_tbl db' = tag_tbl db ∧
  (∀ k, is_Some (chunk_embeddings db' !! k) → is_Some (chunk_embeddings db !! k)) ∧
  chunks_fts db' = chunks_fts db ∧ vec_dim db' = vec_dim db ∧
  setting_tbl db' = setting_tbl db ∧
  (∀ k, chunk_embeddings db' !! k
        = if decide (k ∈ doomed_ids (item_id existing)
                           (default [] (r_chunks r)) db) then None
          else chunk_embeddings db !! k).
Proof.
  intros Htags db'. subst db'.
  destruct (decide (quiet _ _ _)) as [Hq|Hq].
  - pose proof (quiet_no_stale _ _ _ Hq) as Hstale.
    assert (Hdoomed : doomed_ids (item_id existing) (default [] (r_chunks r)) db
                      = []) by apply Hq.
    rewrite Hdoomed.
    unfold merge_path. rewrite Hstale. cbn [fmap list_fmap].
    set (s := merge_loop _ _ _ 0 _ _).
    assert (Hobjs : ms_objs s
                    = merged (existing_keys_of (item_chunks (item_id existing) db))
                        0 (default [] (r_chunks r))
                      <$> item_chunks (item_id existing) db)
      by (subst s; by rewrite merge_loop_objs).
    clearbody s.
    rewrite Hobjs, update_chunks_run, decide_True by apply Hq.
    cbn [run_all].
    rewrite insert_chunks_tags. cbn [with_items tag_tbl]. rewrite Htags.
    cbn [fst snd]. by repeat split.
  - destruct (merge_path_loud now existing r db Hq)
      as (-> & -> & -> & -> & -> & -> & -> & He).
    repeat split; try done.
    intros k. rewrite He. destruct (decide _); [by intros [? ?]|done].
Qed.

(** A merge that does not raise before its commit wrote no old chunk row
    and had its tag rows accepted. *)
Lemma merge_path_passed now existing r db :
  (merge_path now existing r db).2 ≠ Raised OperationalError →
  (merge_path now existing r db).2 ≠ Raised IntegrityError →
  quiet (item_id existing) (default [] (r_chunks r)) db ∧
  ∃ tag_rows,
    insert_tags (mkTag (item_id existing) <$> default [] (r_tags r))
      (filter (λ t, tag_item_id t ≠ item_id existing) (tag_tbl db))
    = Some tag_rows.
Proof.
  intros Hop Hint.
  destruct (decide (quiet (item_id existing) (default [] (r_chunks r)) db))
    as [Hq|Hq].
  - split; [done|].
    destruct (insert_tags _ _) as [tag_rows|] eqn:Htags; [eauto|].
    destruct (merge_path_rolled_back now existing r db Htags) as (Hr & _).
    rewrite decide_True in Hr by done. done.
  - by destruct (merge_path_loud now existing r db Hq) as (Hr & _).
Qed.

(** The two ways a merge ends: its session commits, or it rolls back and
    leaves the deletion on the raw connection. *)
Lemma merge_path_cases now existing r db :
  (quiet (item_id existing) (default [] (r_chunks r)) db ∧
   ∃ tag_rows,
     insert_tags (mkTag (item_id existing) <$> default [] (r_tags r))
       (filter (λ t, tag_item_id t ≠ item_id existing) (tag_tbl db))
     = Some tag_rows) ∨
  (let p := merge_path now existing r db in
   (p.2 = Raised OperationalError ∨ p.2 = Raised IntegrityError) ∧
   item_tbl p.1 = item_tbl db ∧ chunk_tbl p.1 = chunk_tbl db ∧
   tag_tbl p.1 = tag_tbl db ∧ chunks_fts p.1 = chunks_fts db ∧
   vec_dim p.1 = vec_dim db ∧ setting_tbl p.1 = setting_tbl db ∧
   (∀ k, chunk_embeddings p.1 !! k
         = if decide (k ∈ doomed_ids (item_id existing)
                            (default [] (r_chunks r)) db) then None
           else chunk_embeddings db !! k)).
Proof.
  destruct (decide (quiet (item_id existing) (default [] (r_chunks r)) db))
    as [Hq|Hq].
  - destruct (insert_tags (mkTag (item_id existing) <$> default [] (r_tags r))
       (filter (λ t, tag_item_id t ≠ item_id existing) (tag_tbl db)))
      as [tag_rows|] eqn:Htags; [left; eauto|right].
    destruct (merge_path_rolled_back now existing r db Htags)
      as (Hr & ? & ? & ? & _ & ? & ? & ? & ?).
    rewrite decide_True in Hr by done. cbv zeta. by repeat split; [right|..].
  - right. destruct (merge_path_loud now existing r db Hq)
      as (? & ? & ? & ? & ? & ? & ? & ?).
    cbv zeta. by repeat split; [left|..].
Qed.

Lemma merge_path_returns_inv now existing r db v :
  (merge_path now existing r db).2 = Returned v →
  quiet (item_id existing) (default [] (r_chunks r)) db ∧
  ∃ tag_rows,
    insert_tags (mkTag (item_id existing) <$> default [] (r_tags r))
      (filter (λ t, tag_item_id t ≠ item_id existing) (tag_tbl db))
    = Some tag_rows.
Proof. intros Hv. apply (merge_path_passed now); by rewrite Hv. Qed.

Lemma insert_tags_fresh item_pk tags tbl :
  tags_accepted tags →
  (∀ t, t ∈ tbl → tag_item_id t ≠ item_pk) →
  insert_tags (mkTag item_pk <$> tags) tbl
  = Some (tbl ++ (mkTag item_pk <$> tags)).
Proof.
  intros Hok Hfresh. apply insert_tags_accept. intros Hu. split.
  - apply NoDup_fmap_2; [|by apply Hok]. by intros ?? [= ->].
  - intros t [x [-> _]]%list_elem_of_fmap Hin. by apply (Hfresh _ Hin).
Qed.

Lemma target_empty d : target ∅ d = None.
Proof. unfold target. destruct (truthy _); [apply lookup_empty|done]. Qed.

Lemma created_length_empty item_pk n k l :
  length (created ∅ item_pk n k l) = length l.
Proof.
  revert n k. induction l as [|d l IH]; intros n k; [done|].
  simpl. rewrite target_empty. simpl. by rewrite IH.
Qed.

(** The loop of the insert path is the merge loop with no chunk to match. *)
Lemma imap_new_chunk_created item_pk n k l :
  imap (λ idx, new_chunk item_pk (n + idx) (k + idx)) l
  = created ∅ item_pk n k l.
Proof.
  revert n k. induction l as [|d l IH]; intros n k; [done|].
  cbn [imap created]. rewrite target_empty, !Nat.add_0_r. f_equal.
  rewrite <- IH. apply imap_ext. intros i x _. simpl. f_equal; lia.
Qed.

Lemma inserted_chunks_created r db :
  inserted_chunks r db
  = created ∅ (next_rowid (item_id <$> item_tbl db))
      (next_rowid (chunk_id <$> chunk_tbl db)) 0 (default [] (r_chunks r)).
Proof. unfold inserted_chunks. by rewrite <- imap_new_chunk_created. Qed.

Lemma inserted_chunks_ids r db :
  chunk_id <$> inserted_chunks r db
  = seq (next_rowid (chunk_id <$> chunk_tbl db))
        (length (default [] (r_chunks r))).
Proof.
  by rewrite inserted_chunks_created, created_ids, created_length_empty.
Qed.

(** When the flush of the tag rows goes through, the insert path commits
    these tables, whatever the embedding step does afterwards. *)
Lemma insert_path_flushed now r db tag_rows :
  insert_tags (mkTag (next_rowid (item_id <$> item_tbl db))
                 <$> default [] (r_tags r)) (tag_tbl db)
  = Some tag_rows →
  let db' := (insert_path now r db).1 in
  item_tbl db' = item_tbl db ++ [inserted_item now r db] ∧
  chunk_tbl db' = chunk_tbl db ++ inserted_chunks r db ∧
  tag_tbl db' = tag_rows ∧
  (∀ k, is_Some (chunks_fts db' !! k) ↔
        k ∈ chunk_id <$> inserted_chunks r db ∨ is_Some (chunks_fts db !! k)) ∧
  vec_dim db' = vec_dim db ∧
  (∀ k, is_Some (chunk_embeddings db' !! k) →
        k ∈ chunk_id <$> inserted_chunks r db ∨
        is_Some (chunk_embeddings db !! k)).
Proof.
  intros Htags db'. subst db'. unfold insert_path.
  cbn [with_items chunk_tbl item_tbl item_id].
  fold (inserted_item now r db). fold (inserted_chunks r db).
  rewrite insert_chunks_tags. cbn [with_items tag_tbl].
  rewrite Htags.
  rewrite finish_fst.
  set (db3 := with_tags _ _).
  destruct (embed_chunks_frame vec_insert_all
              (cd_text <$> default [] (r_chunks r))
              (chunk_id <$> inserted_chunks r db) db3)
    as (-> & -> & -> & -> & -> & _).
  split; [|split; [|split; [|split; [|split]]]].
  - subst db3. cbn [with_tags item_tbl]. by rewrite insert_chunks_items.
  - subst db3. cbn [with_tags chunk_tbl]. by rewrite insert_chunks_chunks.
  - done.
  - intros k. subst db3. cbn [with_tags chunks_fts].
    by rewrite insert_chunks_fts_is_Some.
  - subst db3. cbn [with_tags vec_dim]. by rewrite insert_chunks_dim.
  - intros k Hk%embed_insert_dom. subst db3.
    cbn [with_tags chunk_embeddings] in Hk.
    by rewrite insert_chunks_embeddings in Hk.
Qed.

Lemma insert_path_committed now r db :
  tags_accepted (default [] (r_tags r)) →
  (∀ t, t ∈ tag_tbl db →
        tag_item_id t ≠ next_rowid (item_id <$> item_tbl db)) →
  let db' := (insert_path now r db).1 in
  item_tbl db' = item_tbl db ++ [inserted_item now r db] ∧
  chunk_tbl db' = chunk_tbl db ++ inserted_chunks r db ∧
  tag_tbl db'
  = tag_tbl db ++ (mkTag (next_rowid (item_id <$> item_tbl db))
                     <$> default [] (r_tags r)) ∧
  (∀ k, is_Some (chunks_fts db' !! k) ↔
        k ∈ chunk_id <$> inserted_chunks r db ∨ is_Some (chunks_fts db !! k)) ∧
  vec_dim db' = vec_dim db.
Proof.
  intros Htags Hfresh.
  destruct (insert_path_flushed now r db _ (insert_tags_fresh _ _ _ Htags Hfresh))
    as (? & ? & ? & ? & ? & _).
  done.
Qed.

(** The merge path, once its session has committed: the outcome is that
    of the embedding step on a store [db6] whose vector table is as it was
    given. *)
Lemma merge_path_embed_step now existing r db tag_rows :
  quiet (item_id existing) (default [] (r_chunks r)) db →
  insert_tags (mkTag (item_id existing) <$> default [] (r_tags r))
    (filter (λ t, tag_item_id t ≠ item_id existing) (tag_tbl db))
  = Some tag_rows →
  let chunks := default [] (r_chunks r) in
  ∃ db6,
    merge_path now existing r db
    = match embed_chunks vec_replace_all (cd_text <$> chunks)
              (recorded (existing_keys_of (item_chunks (item_id existing) db))
                 (next_rowid (chunk_id <$> chunk_tbl db)) chunks) db6 with
      | (db7, Raised e) => (db7, Raised e)
      | (db7, Returned _) =>
          (db7, Returned (load_view (set_metadata now r existing) db7))
      end ∧
    vec_dim db6 = vec_dim db ∧
    chunk_embeddings db6 = chunk_embeddings db.
Proof.
  intros Hq Htags chunks. fold chunks in Hq.
  pose proof (quiet_no_stale _ _ _ Hq) as Hstale.
  unfold merge_path. fold chunks.
  set (loaded := item_chunks (item_id existing) db) in *.
  set (ek := existing_keys_of loaded).
  rewrite Hstale. cbn [fmap list_fmap].
  set (s := merge_loop ek (item_id existing) _ 0 chunks _).
  assert (Hobjs : ms_objs s = merged ek 0 chunks <$> loaded)
    by (subst s; by rewrite merge_loop_objs).
  assert (Htexts : ms_texts s = cd_text <$> chunks)
    by (subst s; by rewrite merge_loop_texts).
  assert (Hrec : ms_records s
                 = recorded ek (next_rowid (chunk_id <$> chunk_tbl db)) chunks).
  { subst s. rewrite merge_loop_records. simpl. by rewrite Nat.add_0_r. }
  clearbody s.
  rewrite Hobjs, update_chunks_run.
  rewrite decide_True by apply Hq.
  cbn [run_all].
  rewrite insert_chunks_tags.
  cbn [with_items tag_tbl]. rewrite Htags, Htexts, Hrec.
  eexists. split; [reflexivity|].
  cbn [with_tags vec_dim chunk_embeddings].
  by rewrite insert_chunks_dim, insert_chunks_embeddings.
Qed.

(** An item whose chunks all lack a key has no chunk row a merge would
    write. *)
Lemma keyless_quiet item_pk chunks db :
  (∀ c, c ∈ item_chunks item_pk db → truthy (chunk_key c) = false) →
  quiet item_pk chunks db.
Proof.
  intros Hkeyless. split.
  - unfold doomed_ids. rewrite filter_none; [done|].
    intros c Hc Hst. apply Is_true_true in Hst.
    unfold stale in Hst. rewrite (Hkeyless c Hc) in Hst. done.
  - apply Forall_forall. intros c Hc. unfold merged.
    destruct (last_hit _ _ _ _) as [[i d]|] eqn:E; [|done].
    apply last_hit_target in E as (Ht & _).
    apply target_Some in Ht as (k & _ & Hne & Hek).
    apply existing_keys_of_Some in Hek as (_ & c' & Hc' & _ & Hkey).
    specialize (Hkeyless c' Hc'). rewrite Hkey in Hkeyless.
    apply truthy_Some in Hne. congruence.
Qed.

Lemma add_item_merge now r db existing :
  select_item (r_source_uri r) db = Some existing → r_replace r = false →
  add_item now r db = merge_path now existing r db.
Proof. intros Hsel Hrep. unfold add_item. by rewrite Hsel, Hrep. Qed.

Lemma add_item_insert now r db :
  select_item (r_source_uri r) db = None →
  add_item now r db = insert_path now r db.
Proof. intros Hsel. unfold add_item. by rewrite Hsel. Qed.

End Paths.

Lemma select_item_appended source_uri item db db' :
  select_item source_uri db = None →
  item_source_uri item = source_uri →
  item_tbl db' = item_tbl db ++ [item] →
  select_item source_uri db' = Some item.
Proof.
  unfold select_item. intros Hsel Huri ->.
  apply head_None in Hsel. rewrite filter_app, Hsel. simpl.
  rewrite filter_cons_True by done. done.
Qed.

Lemma select_item_updated source_uri existing item' db db' :
  select_item source_uri db = Some existing →
  item_source_uri item' = source_uri →
  item_tbl db' = (λ i, if decide (item_id i = item_id existing)
                       then item' else i) <$> item_tbl db →
  select_item source_uri db' = Some item'.
Proof.
  unfold select_item. intros Hsel Huri ->.
  induction (item_tbl db) as [|x l IH]; [done|].
  rewrite fmap_cons, filter_cons. rewrite filter_cons in Hsel.
  destruct (decide (item_id x = item_id existing)) as [Hid|Hid].
  - by rewrite decide_True.
  - destruct (decide (item_source_uri x = source_uri)) as [Hx|Hx].
    + injection Hsel as ->. done.
    + by apply IH.
Qed.

(** ** Rows of the merged chunk table *)

Lemma NoDup_chunk_id_inj (tbl : list Chunk) c1 c2 :
  NoDup (chunk_id <$> tbl) → c1 ∈ tbl → c2 ∈ tbl →
  chunk_id c1 = chunk_id c2 → c1 = c2.
Proof.
  intros Hnd [i Hi]%list_elem_of_lookup [j Hj]%list_elem_of_lookup Hid.
  assert (i = j) as ->.
  { apply (NoDup_lookup _ i j (chunk_id c1) Hnd);
      rewrite list_lookup_fmap; [rewrite Hi|rewrite Hj]; simpl; congruence. }
  congruence.
Qed.

Section Merged.
Context `{Collaborators}.
Variables (item_pk : nat) (chunks : list ChunkData) (db : DB).
Hypothesis Hnd : NoDup (chunk_id <$> chunk_tbl db).

Local Abbreviation loaded := (item_chunks item_pk db).
Local Abbreviation existing_keys := (existing_keys_of loaded).

Lemma loaded_in_tbl c : c ∈ loaded → c ∈ chunk_tbl db.
Proof. by intros [_ ?]%list_elem_of_filter. Qed.

Lemma doomed_ids_stale c :
  c ∈ loaded →
  chunk_id c ∈ doomed_ids item_pk chunks db ↔
  stale (new_chunk_keys_of chunks) c = true.
Proof.
  intros Hc. unfold doomed_ids. rewrite list_elem_of_fmap. split.
  - intros (c' & Hid & [Hst Hc']%list_elem_of_filter).
    assert (c = c') as ->.
    { apply (NoDup_chunk_id_inj _ c c' Hnd); [by apply loaded_in_tbl| |done].
      by apply list_elem_of_filter in Hc' as [_ ?]. }
    by apply Is_true_true.
  - intros Hst. exists c. split; [done|]. apply list_elem_of_filter.
    split; [by apply Is_true_true|done].
Qed.

Lemma target_loaded d c :
  c ∈ loaded →
  target existing_keys d = Some (chunk_id c) →
  truthy (chunk_key c) = true ∧ cd_key d = chunk_key c.
Proof.
  intros Hc (k & Hk & Hne & Hek)%target_Some.
  apply existing_keys_of_Some in Hek as (_ & c' & Hc' & Hid & Hkey).
  assert (c' = c) as ->
    by (apply (NoDup_chunk_id_inj _ c' c Hnd); auto using loaded_in_tbl).
  rewrite Hkey. split; [by apply truthy_Some|done].
Qed.

Lemma doomed_ids_old k :
  k ∈ doomed_ids item_pk chunks db → k < next_rowid (chunk_id <$> chunk_tbl db).
Proof.
  intros (c & -> & [_ Hc]%list_elem_of_filter)%list_elem_of_fmap.
  apply next_rowid_fresh, list_elem_of_fmap. exists c. split; [done|].
  by apply loaded_in_tbl.
Qed.

End Merged.

Section LastHit.
Variables (existing_keys : gmap string nat) (cid : nat).

Lemma last_hit_is_last idx chunks i d :
  last_hit existing_keys cid idx chunks = Some (i, d) →
  ∀ j d', chunks !! j = Some d' →
    target existing_keys d' = Some cid → idx + j ≤ i.
Proof.
  revert idx. induction chunks as [|d0 chunks IH]; intros idx; [done|].
  cbn [last_hit]. destruct (last_hit existing_keys cid (S idx) chunks)
    as [[i' d'']|] eqn:E.
  - intros [= -> ->] [|j] d' Hj Ht.
    + apply last_hit_target in E. lia.
    + specialize (IH _ E j d' Hj Ht). lia.
  - destruct (decide (target existing_keys d0 = Some cid)); [|done].
    intros [= -> ->] [|j] d' Hj Ht; [lia|].
    rewrite last_hit_None in E. exfalso. apply (E d'); [|done].
    simpl in Hj. by apply list_elem_of_lookup_2 in Hj.
Qed.

End LastHit.

(** ** The item the insert path creates *)

Section Inserted.
Context `{Collaborators}.
Variables (now : Z) (r : IngestionRecord) (db : DB).
Hypothesis Hwf : wf_db db.

Local Abbreviation item_pk := (next_rowid (item_id <$> item_tbl db)).

Lemma inserted_chunks_item_id c :
  c ∈ inserted_chunks r db → chunk_item_id c = item_pk.
Proof. rewrite inserted_chunks_created. apply created_item_id. Qed.

Lemma tag_fk_fresh t : t ∈ tag_tbl db → tag_item_id t ≠ item_pk.
Proof.
  intros Ht Heq. apply (wf_tag_fk _ Hwf), next_rowid_fresh in Ht. lia.
Qed.

Lemma chunk_fk_fresh c : c ∈ chunk_tbl db → chunk_item_id c ≠ item_pk.
Proof.
  intros Hc Heq. apply (wf_chunk_fk _ Hwf), next_rowid_fresh in Hc. lia.
Qed.

Lemma item_chunks_inserted db' :
  chunk_tbl db' = chunk_tbl db ++ inserted_chunks r db →
  item_chunks item_pk db' = inserted_chunks r db.
Proof.
  intros Htbl. unfold item_chunks. rewrite Htbl, filter_app.
  rewrite filter_none, filter_all; [done| |].
  - apply inserted_chunks_item_id.
  - intros c Hc. by apply chunk_fk_fresh.
Qed.

Lemma item_tags_inserted db' :
  tag_tbl db' = tag_tbl db ++ (mkTag item_pk <$> default [] (r_tags r)) →
  item_tags item_pk db' = mkTag item_pk <$> default [] (r_tags r).
Proof.
  intros Htbl. unfold item_tags. rewrite Htbl, filter_app.
  rewrite filter_none, filter_all; [done| |].
  - by intros t [x [-> _]]%list_elem_of_fmap.
  - intros t Ht. by apply tag_fk_fresh.
Qed.

(** With a provider that keeps its contract the insert path returns, and
    every new chunk has its embedding row. *)
Lemma insert_path_returns :
  tags_accepted (default [] (r_tags r)) →
  provider_ok (vec_dim db) →
  let p := insert_path now r db in
  p.2 = Returned (load_view (inserted_item now r db) p.1) ∧
  dom (chunk_embeddings p.1)
  = dom (chunk_embeddings db)
    ∪ list_to_set (chunk_id <$> inserted_chunks r db).
Proof.
  intros Htags Hprov p. subst p. unfold insert_path.
  cbn [with_items chunk_tbl item_tbl item_id].
  fold (inserted_item now r db). fold (inserted_chunks r db).
  rewrite insert_chunks_tags. cbn [with_items tag_tbl].
  rewrite (insert_tags_fresh _ _ _ Htags tag_fk_fresh).
  set (db3 := with_tags _ _).
  destruct (embed_insert_ok (cd_text <$> default [] (r_chunks r))
              (chunk_id <$> inserted_chunks r db) db3) as [Hret Hdom].
  - subst db3. cbn [with_tags vec_dim]. by rewrite insert_chunks_dim.
  - rewrite inserted_chunks_ids, length_seq. by rewrite length_fmap.
  - rewrite inserted_chunks_ids. apply NoDup_seq.
  - intros k Hk. subst db3. cbn [with_tags chunk_embeddings].
    rewrite insert_chunks_embeddings. cbn.
    destruct (chunk_embeddings db !! k) eqn:E; [|done]. exfalso.
    assert (k ∈ chunk_id <$> chunk_tbl db) as Hold%next_rowid_fresh
      by (apply (wf_embedding_fk _ Hwf); eauto).
    rewrite inserted_chunks_ids in Hk. apply elem_of_seq in Hk. lia.
  - rewrite finish_fst, (finish_snd _ _ Hret). split; [done|].
    rewrite Hdom. subst db3. cbn [with_tags chunk_embeddings].
    by rewrite insert_chunks_embeddings.
Qed.

(** A provider whose vectors all have another length than the table
    declares: the rows are committed, the first INSERT into the vector
    table is refused, and no embedding row is written. *)
Lemma insert_path_refused embeddings :
  tags_accepted (default [] (r_tags r)) →
  default [] (r_chunks r) ≠ [] →
  get_embeddings_sync (cd_text <$> default [] (r_chunks r))
  = Returned embeddings →
  embeddings ≠ [] →
  Forall (λ e, length e ≠ vec_dim db) embeddings →
  let p := insert_path now r db in
  p.2 = Raised OperationalError ∧ chunk_embeddings p.1 = chunk_embeddings db.
Proof.
  intros Htags Hchunks Hemb Hne Hlen p. subst p. unfold insert_path.
  cbn [with_items chunk_tbl item_tbl item_id].
  fold (inserted_item now r db). fold (inserted_chunks r db).
  rewrite insert_chunks_tags. cbn [with_items tag_tbl].
  rewrite (insert_tags_fresh _ _ _ Htags tag_fk_fresh).
  set (db3 := with_tags _ _).
  assert (embed_chunks vec_insert_all (cd_text <$> default [] (r_chunks r))
            (chunk_id <$> inserted_chunks r db) db3
          = (db3, Raised OperationalError)) as ->.
  { unfold embed_chunks. rewrite Hemb.
    assert (vec_dim db3 = vec_dim db) as Hdim
      by (subst db3; cbn [with_tags vec_dim]; by rewrite insert_chunks_dim).
    unfold inserted_chunks.
    destruct (default [] (r_chunks r)) as [|d0 chunks]; [done|].
    destruct embeddings as [|e0 embeddings']; [done|].
    apply Forall_cons in Hlen as [He0 _].
    cbn [fmap list_fmap imap zip zip_with vec_insert_all].
    unfold vec_insert. rewrite Hdim. by rewrite decide_False. }
  split; [done|]. subst db3. cbn [fst with_tags chunk_embeddings].
  by rewrite insert_chunks_embeddings.
Qed.

End Inserted.

Lemma wf_db_empty : wf_db Sample.empty.
Proof.
  split; simpl.
  - constructor.
  - constructor.
  - intros c Hc. by apply elem_of_nil in Hc.
  - intros t Ht. by apply elem_of_nil in Ht.
  - intros k [e He]. by rewrite lookup_empty in He.
Defined.

Lemma provider_ok_sample unique_tags :
  @provider_ok (Sample.services unique_tags) 2.
Proof.
  intros texts. eexists. split; [reflexivity|]. split.
  - by rewrite length_fmap.
  - apply Forall_fmap, Forall_true. done.
Defined.

(** ** Merging the same chunks a second time

    [L0] are the chunks the item had before the first ingestion of
    [chunks] (none on the insert path), [first] the rowid the first new
    chunk got.  After that ingestion the item has the chunks [L1]: the
    merged survivors of [L0] followed by the created ones.  Merging
    [chunks] into [L1] changes nothing when every incoming key is
    non-empty. *)

Section Created.
Context `{Collaborators}.
Variables (existing_keys : gmap string nat) (item_pk : nat).

Lemma created_spec cid idx chunks c :
  c ∈ created existing_keys item_pk cid idx chunks →
  ∃ i d, chunks !! i = Some d ∧ target existing_keys d = None ∧
         c = new_chunk item_pk (chunk_id c) (idx + i) d.
Proof.
  revert cid idx. induction chunks as [|d0 chunks IH]; intros cid idx; simpl.
  - intros Hc. by apply elem_of_nil in Hc.
  - destruct (target existing_keys d0) eqn:Ht.
    + intros (i & d & Hi & Hd & Hc)%IH. exists (S i), d.
      split; [done|]. split; [done|].
      by replace (idx + S i) with (S idx + i) by lia.
    + intros [->|(i & d & Hi & Hd & Hc)%IH]%elem_of_cons.
      * exists 0, d0. by rewrite Nat.add_0_r.
      * exists (S i), d. split; [done|]. split; [done|].
        by replace (idx + S i) with (S idx + i) by lia.
Qed.

Lemma created_index_ge cid idx chunks c :
  c ∈ created existing_keys item_pk cid idx chunks → idx ≤ chunk_index c.
Proof.
  intros (i & d & _ & _ & ->)%created_spec. simpl. lia.
Qed.

Lemma created_id_ge cid idx chunks c :
  c ∈ created existing_keys item_pk cid idx chunks → cid ≤ chunk_id c.
Proof.
  intros Hc.
  assert (chunk_id c ∈ chunk_id <$> created existing_keys item_pk cid idx chunks)
    as Hid by (apply list_elem_of_fmap; eauto).
  rewrite created_ids in Hid. apply elem_of_seq in Hid. lia.
Qed.

(** Among the created chunks that satisfy [P], the last one in the list
    has the largest position. *)
Lemma created_last_index (P : Chunk → Prop) `{!∀ c, Decision (P c)}
    cid idx chunks c c' :
  last (filter P (created existing_keys item_pk cid idx chunks)) = Some c →
  c' ∈ created existing_keys item_pk cid idx chunks → P c' →
  chunk_index c' ≤ chunk_index c.
Proof.
  revert cid idx. induction chunks as [|d0 chunks IH]; intros cid idx; simpl.
  - done.
  - destruct (target existing_keys d0); [apply IH|].
    set (x := new_chunk item_pk cid idx d0).
    set (rest := created existing_keys item_pk (S cid) (S idx) chunks).
    intros Hlast Hc' HP.
    destruct (filter P rest) as [|y ys] eqn:Hrest.
    + assert (c' = x) as ->.
      { apply elem_of_cons in Hc' as [?|Hc']; [done|]. exfalso.
        assert (c' ∈ filter P rest) as Hin by (by apply list_elem_of_filter).
        rewrite Hrest in Hin. by apply elem_of_nil in Hin. }
      rewrite filter_cons_True, Hrest in Hlast by done.
      by injection Hlast as <-.
    + assert (last (filter P rest) = Some c) as Hlast'.
      { rewrite filter_cons in Hlast. rewrite Hrest.
        destruct (decide (P x)); [|by rewrite Hrest in Hlast].
        rewrite Hrest in Hlast. by rewrite last_cons_cons in Hlast. }
      apply elem_of_cons in Hc' as [->|Hc'].
      * apply last_Some_elem_of, list_elem_of_filter in Hlast' as [_ Hc].
        apply created_index_ge in Hc. simpl. lia.
      * by eapply IH.
Qed.

End Created.

Lemma last_hit_ext (m1 m2 : gmap string nat) cid idx chunks :
  (∀ d, d ∈ chunks → target m1 d = Some cid ↔ target m2 d = Some cid) →
  last_hit m1 cid idx chunks = last_hit m2 cid idx chunks.
Proof.
  revert idx. induction chunks as [|d0 chunks IH]; intros idx Hext; [done|].
  cbn [last_hit]. rewrite IH by (intros d Hd; apply Hext; by right).
  destruct (last_hit m2 cid (S idx) chunks); [done|].
  apply decide_ext, Hext. left.
Qed.

Lemma existing_keys_of_app l1 l2 k :
  existing_keys_of (l1 ++ l2) !! k
  = match existing_keys_of l2 !! k with
    | Some cid => Some cid
    | None => existing_keys_of l1 !! k
    end.
Proof.
  rewrite !existing_keys_of_lookup. destruct (decide (k = "")); [done|].
  rewrite filter_app, last_app.
  by destruct (last (filter _ l2)).
Qed.

Lemma target_truthy (m : gmap string nat) d k :
  cd_key d = Some k → k ≠ "" → target m d = m !! k.
Proof.
  intros Hk Hne. unfold target. rewrite Hk.
  apply truthy_Some in Hne. by rewrite Hne.
Qed.

Section Remerge.
Context `{Collaborators}.
Variables (L0 : list Chunk) (item_pk first : nat) (chunks : list ChunkData).
Hypothesis Hnd0 : NoDup (chunk_id <$> L0).
Hypothesis Hold : ∀ c, c ∈ L0 → chunk_id c < first.
Hypothesis Hkeys : ∀ d, d ∈ chunks → truthy (cd_key d) = true.

Local Abbreviation ek := (existing_keys_of L0).
Local Abbreviation K := (new_chunk_keys_of chunks).
Local Abbreviation kept :=
  (filter (λ c, stale K c = false) (merged ek 0 chunks <$> L0)).
Local Abbreviation new := (created ek item_pk first 0 chunks).
Local Abbreviation L1 := (kept ++ new).
Local Abbreviation ek1 := (existing_keys_of L1).

Lemma incoming_key d :
  d ∈ chunks → ∃ k, cd_key d = Some k ∧ k ≠ "" ∧ k ∈ K.
Proof.
  intros Hd. pose proof (Hkeys d Hd) as (k & Hk & Hne)%truthy_true.
  exists k. split; [done|]. split; [done|].
  apply elem_of_new_chunk_keys_of. eauto.
Qed.

Lemma new_key c :
  c ∈ new → ∃ k, chunk_key c = Some k ∧ k ≠ "" ∧ k ∈ K ∧ ek !! k = None.
Proof.
  intros (i & d & Hi & Ht & ->)%created_spec.
  apply list_elem_of_lookup_2 in Hi.
  destruct (incoming_key d Hi) as (k & Hk & Hne & HK).
  exists k. repeat split; try done. by rewrite <- (target_truthy _ d).
Qed.

Lemma stale_merged idx c :
  stale K (merged ek idx chunks c) = stale K c.
Proof. unfold stale. by rewrite merged_key. Qed.

Lemma kept_spec c :
  c ∈ kept ↔
  ∃ c0, c0 ∈ L0 ∧ stale K c0 = false ∧ c = merged ek 0 chunks c0.
Proof.
  rewrite list_elem_of_filter, list_elem_of_fmap. split.
  - intros [Hst (c0 & -> & Hc0)]. exists c0. by rewrite stale_merged in Hst.
  - intros (c0 & Hc0 & Hst & ->). rewrite stale_merged. eauto.
Qed.

Lemma kept_with_key k :
  k ∈ K →
  filter (λ c, chunk_key c = Some k) kept
  = merged ek 0 chunks <$> filter (λ c, chunk_key c = Some k) L0.
Proof.
  intros HK. rewrite list_filter_filter, filter_fmap_pre.
  f_equal. apply list_filter_iff. intros c.
  rewrite stale_merged, merged_key. split; [tauto|]. intros Hk.
  split; [done|]. apply not_true_is_false.
  intros (k' & Hk' & _ & Hnin)%stale_true. congruence.
Qed.

Lemma new_keys_miss k : is_Some (ek !! k) → existing_keys_of new !! k = None.
Proof.
  intros [x Hx]. destruct (existing_keys_of new !! k) eqn:E; [|done].
  apply existing_keys_of_Some in E as (_ & c & Hc & _ & Hkey).
  apply new_key in Hc as (k' & Hk' & _ & _ & Hnone). congruence.
Qed.

Lemma new_keys_ge k cid : existing_keys_of new !! k = Some cid → first ≤ cid.
Proof.
  intros (_ & c & Hc & <- & _)%existing_keys_of_Some.
  by apply created_id_ge in Hc.
Qed.

(** A key the first dictionary held is held by the second for the same
    chunk. *)
Lemma remerge_hit_key k x : k ∈ K → ek !! k = Some x → ek1 !! k = Some x.
Proof.
  intros HK Hx. rewrite existing_keys_of_app, new_keys_miss by eauto.
  rewrite existing_keys_of_lookup in Hx |- *.
  destruct (decide (k = "")); [done|].
  rewrite (kept_with_key k HK), fmap_last, <- option_fmap_compose.
  rewrite <- Hx. apply option_fmap_ext. intros c. apply merged_id.
Qed.

(** A key the first dictionary missed is held for the last chunk created
    with it. *)
Lemma remerge_miss_key k :
  ek !! k = None → ek1 !! k = existing_keys_of new !! k.
Proof.
  intros Hnone. rewrite existing_keys_of_app.
  destruct (existing_keys_of new !! k); [done|].
  destruct (existing_keys_of kept !! k) eqn:E; [|done]. exfalso.
  apply existing_keys_of_Some in E as (Hne & c & Hc & _ & Hkey).
  apply kept_spec in Hc as (c0 & Hc0 & _ & ->). rewrite merged_key in Hkey.
  assert (is_Some (ek !! k)) as [? ?]; [|congruence].
  apply existing_keys_of_is_Some. eauto.
Qed.

Lemma remerge_NoDup : NoDup (chunk_id <$> L1).
Proof.
  rewrite fmap_app. apply NoDup_app. split; [|split].
  - rewrite filter_fmap_pre, <- list_fmap_compose.
    erewrite list_fmap_ext; [by apply NoDup_fmap_filter|].
    intros _ c _. apply merged_id.
  - intros k (c & -> & (c0 & Hc0 & _ & ->)%kept_spec)%list_elem_of_fmap.
    rewrite merged_id. apply Hold in Hc0.
    rewrite created_ids. rewrite elem_of_seq. lia.
  - rewrite created_ids. apply NoDup_seq.
Qed.

(** Nothing is stale at the second merge. *)
Lemma remerge_no_stale c : c ∈ L1 → stale K c = false.
Proof.
  intros [Hc|Hc]%elem_of_app.
  - by apply list_elem_of_filter in Hc as [? _].
  - apply new_key in Hc as (k & Hk & Hne & HK & _).
    apply not_true_is_false.
    intros (k' & Hk' & _ & Hnin)%stale_true. congruence.
Qed.

(** Every incoming chunk finds its chunk at the second merge. *)
Lemma remerge_all_hit d : d ∈ chunks → is_Some (target ek1 d).
Proof.
  intros Hd. destruct (incoming_key d Hd) as (k & Hk & Hne & HK).
  rewrite (target_truthy _ d k Hk Hne).
  destruct (ek !! k) as [x|] eqn:E.
  - rewrite (remerge_hit_key k x HK E). eauto.
  - rewrite (remerge_miss_key k E). apply existing_keys_of_is_Some.
    split; [done|].
    apply list_elem_of_lookup in Hd as [i Hi].
    destruct (created_lookup ek item_pk first 0 chunks i d Hi) as [cid Hin].
    { by rewrite (target_truthy _ d k Hk Hne). }
    eexists. split; [exact Hin|done].
Qed.

(** The second merge assigns to every chunk what it already has. *)
Lemma remerge_fixed c : c ∈ L1 → merged ek1 0 chunks c = c.
Proof.
  intros [Hc|Hc]%elem_of_app.
  - apply kept_spec in Hc as (c0 & Hc0 & _ & ->).
    unfold merged at 1. rewrite merged_id.
    rewrite (last_hit_ext ek1 ek).
    + unfold merged. by destruct (last_hit ek _ _ _) as [[i d]|].
    + intros d Hd. destruct (incoming_key d Hd) as (k & Hk & Hne & HK).
      rewrite !(target_truthy _ d k Hk Hne).
      destruct (ek !! k) as [x|] eqn:E.
      * by rewrite (remerge_hit_key k x HK E).
      * rewrite (remerge_miss_key k E). split; [|done].
        intros Hge%new_keys_ge. apply Hold in Hc0. lia.
  - apply merged_fixed. intros i d E.
    pose proof (last_hit_is_last _ _ _ _ _ _ E) as Hlast.
    apply last_hit_target in E as (Ht & Hi & _). rewrite Nat.sub_0_r in Hi.
    pose proof Hc as (j & dj & Hj & Htj & Heq)%created_spec.
    assert (d ∈ chunks) as Hd by (by apply list_elem_of_lookup_2 in Hi).
    destruct (incoming_key d Hd) as (k & Hk & Hne & HK).
    rewrite (target_truthy _ d k Hk Hne) in Ht.
    assert (ek !! k = None) as Hmiss.
    { destruct (ek !! k) as [x|] eqn:Ex; [|done]. exfalso.
      rewrite (remerge_hit_key k x HK Ex) in Ht. injection Ht as ->.
      apply existing_keys_of_Some in Ex as (_ & c0 & Hc0 & Hid & _).
      apply Hold in Hc0. apply created_id_ge in Hc. lia. }
    rewrite (remerge_miss_key k Hmiss), existing_keys_of_lookup in Ht.
    rewrite decide_False in Ht by done.
    destruct (last (filter (λ c, chunk_key c = Some k) new)) as [c'|] eqn:El;
      [|done].
    injection Ht as Hid.
    assert (c' = c) as ->.
    { pose proof El as [_ Hc']%last_Some_elem_of%list_elem_of_filter.
      apply (NoDup_chunk_id_inj L1); auto using remerge_NoDup;
        apply elem_of_app; by right. }
    pose proof El as [Hkc _]%last_Some_elem_of%list_elem_of_filter.
    assert (cd_key dj = Some k) as Hkj by (rewrite Heq in Hkc; exact Hkc).
    assert (i = j) as ->.
    { apply Nat.le_antisymm.
      - destruct (created_lookup ek item_pk first 0 chunks i d Hi) as [cid Hin].
        { by rewrite (target_truthy _ d k Hk Hne). }
        pose proof (created_last_index ek item_pk
                      (λ c, chunk_key c = Some k) first 0 chunks _ _
                      El Hin Hk) as Hle.
        rewrite Heq in Hle. simpl in Hle. lia.
      - apply (Hlast j dj Hj).
        rewrite (target_truthy _ dj k Hkj Hne), (remerge_miss_key k Hmiss).
        rewrite existing_keys_of_lookup, decide_False, El by done. done. }
    assert (d = dj) as -> by congruence.
    rewrite Heq. reflexivity.
Qed.

End Remerge.

(** ** The store after one ingestion, and after the same one again *)

Section Twice.
Context `{Collaborators}.

Lemma merged_chunk_tbl_fixpoint item_pk chunks db :
  (∀ c, c ∈ item_chunks item_pk db →
        stale (new_chunk_keys_of chunks) c = false) →
  (∀ d, d ∈ chunks →
        is_Some (target (existing_keys_of (item_chunks item_pk db)) d)) →
  (∀ c, c ∈ item_chunks item_pk db →
        merged (existing_keys_of (item_chunks item_pk db)) 0 chunks c = c) →
  merged_chunk_tbl item_pk chunks db = chunk_tbl db ∧
  doomed_ids item_pk chunks db = [] ∧
  recorded (existing_keys_of (item_chunks item_pk db))
           (next_rowid (chunk_id <$> chunk_tbl db)) chunks
  ⊆ chunk_id <$> item_chunks item_pk db.
Proof.
  intros Hstale Hhit Hfix.
  assert (doomed_ids item_pk chunks db = []) as Hdoomed.
  { unfold doomed_ids. rewrite filter_none; [done|].
    intros c Hc Hst. apply Is_true_true in Hst.
    rewrite (Hstale c Hc) in Hst. discriminate. }
  split; [|split; [done|]].
  - unfold merged_chunk_tbl. rewrite Hdoomed.
    rewrite filter_all by (intros; apply not_elem_of_nil).
    rewrite created_all_hit by done.
    rewrite app_nil_r.
    transitivity (id <$> chunk_tbl db); [|apply list_fmap_id].
    apply list_fmap_ext. intros _ c _.
    destruct (decide (c ∈ item_chunks item_pk db)); [by apply Hfix|done].
  - intros k (d & _ & Ht)%recorded_all_hit; [|done].
    apply target_Some in Ht as (k' & _ & _ & Hek).
    apply existing_keys_of_Some in Hek as (_ & c & Hc & <- & _).
    apply list_elem_of_fmap. eauto.
Qed.

Lemma merged_chunk_tbl_NoDup item_pk chunks db :
  NoDup (chunk_id <$> chunk_tbl db) →
  NoDup (chunk_id <$> merged_chunk_tbl item_pk chunks db).
Proof.
  intros Hnd. unfold merged_chunk_tbl. apply NoDup_fmap_filter.
  rewrite fmap_app, created_ids, <- list_fmap_compose.
  erewrite list_fmap_ext; [by apply NoDup_ids_app_seq|].
  intros _ c _. simpl. destruct (decide _); [apply merged_id|done].
Qed.

(** The chunks of the item in the merged table: survivors, then created. *)
Lemma item_chunks_merged item_pk chunks db db' :
  NoDup (chunk_id <$> chunk_tbl db) →
  chunk_tbl db' = merged_chunk_tbl item_pk chunks db →
  item_chunks item_pk db'
  = filter (λ c, stale (new_chunk_keys_of chunks) c = false)
      (merged (existing_keys_of (item_chunks item_pk db)) 0 chunks
       <$> item_chunks item_pk db)
    ++ created (existing_keys_of (item_chunks item_pk db)) item_pk
         (next_rowid (chunk_id <$> chunk_tbl db)) 0 chunks.
Proof.
  intros Hnd Htbl. unfold item_chunks at 1. rewrite Htbl.
  unfold merged_chunk_tbl. rewrite list_filter_filter, filter_app. f_equal.
  - rewrite !filter_fmap_pre.
    transitivity (merged (existing_keys_of (item_chunks item_pk db)) 0 chunks
                  <$> filter (λ c, stale (new_chunk_keys_of chunks) c = false
                                   ∧ chunk_item_id c = item_pk)
                        (chunk_tbl db)).
    + assert (∀ c, c ∈ chunk_tbl db →
                (chunk_item_id
                   (if decide (c ∈ item_chunks item_pk db)
                    then merged (existing_keys_of (item_chunks item_pk db))
                           0 chunks c else c) = item_pk
                 ∧ chunk_id
                     (if decide (c ∈ item_chunks item_pk db)
                      then merged (existing_keys_of (item_chunks item_pk db))
                             0 chunks c else c)
                   ∉ doomed_ids item_pk chunks db)
                ↔ (stale (new_chunk_keys_of chunks) c = false
                   ∧ chunk_item_id c = item_pk)) as Hiff.
      { intros c Hc. destruct (decide (c ∈ item_chunks item_pk db)) as [Hl|Hl].
        - rewrite merged_item_id, merged_id, (doomed_ids_stale _ _ _ Hnd) by done.
          apply list_elem_of_filter in Hl as [Hpk _].
          destruct (stale _ c); split; intros [? ?]; split; done.
        - split; intros [? ?]; exfalso; apply Hl;
            apply list_elem_of_filter; done. }
      rewrite (filter_ext_in _ _ _ Hiff).
      apply list_fmap_ext. intros _ c Hc%list_elem_of_lookup_2.
      apply list_elem_of_filter in Hc as [[_ Hpk] Hc].
      rewrite decide_True; [done|]. by apply list_elem_of_filter.
    + rewrite <- list_filter_filter. f_equal.
      apply list_filter_iff. intros c. by rewrite stale_merged.
  - apply filter_all. intros c Hc. split.
    + by apply created_item_id in Hc.
    + intros Hold%doomed_ids_old. apply created_id_ge in Hc. lia.
Qed.

Lemma add_item_once now r db :
  wf_db db → r_replace r = false →
  tags_accepted (default [] (r_tags r)) →
  (∀ existing, select_item (r_source_uri r) db = Some existing →
               quiet (item_id existing) (default [] (r_chunks r)) db) →
  ∃ item1 L0 first others,
    ingested r (add_item now r db).1 item1 L0 first others.
Proof.
  intros Hwf Hrep Htags Hquiet.
  destruct (select_item (r_source_uri r) db) as [existing|] eqn:Hsel.
  - rewrite (add_item_merge _ _ _ _ Hsel Hrep).
    destruct (merge_path_committed now existing r db (Hquiet _ eq_refl) Htags)
      as (Hitems & Htagrows & Htbl & _).
    specialize (Htbl (wf_chunk_ids _ Hwf)).
    exists (set_metadata now r existing), (item_chunks (item_id existing) db),
      (next_rowid (chunk_id <$> chunk_tbl db)),
      (filter (λ t, tag_item_id t ≠ item_id existing) (tag_tbl db)).
    split; [|split; [|split; [|split; [|split; [|split; [|split]]]]]].
    + eapply select_item_updated; [exact Hsel| |exact Hitems].
      by apply select_item_Some in Hsel as [_ ?].
    + done.
    + rewrite Htbl. apply merged_chunk_tbl_NoDup, Hwf.
    + apply NoDup_fmap_filter, Hwf.
    + intros c [_ Hc]%list_elem_of_filter.
      apply next_rowid_fresh, list_elem_of_fmap. eauto.
    + by apply item_chunks_merged; [apply Hwf|].
    + done.
    + by intros t [? _]%list_elem_of_filter.
  - rewrite (add_item_insert _ _ _ Hsel).
    destruct (insert_path_committed now r db Htags (tag_fk_fresh db Hwf))
      as (Hitems & Htbl & Htagrows & _).
    exists (inserted_item now r db), [],
      (next_rowid (chunk_id <$> chunk_tbl db)), (tag_tbl db).
    split; [|split; [|split; [|split; [|split; [|split; [|split]]]]]].
    + by eapply select_item_appended.
    + done.
    + rewrite Htbl, fmap_app, inserted_chunks_ids.
      apply NoDup_ids_app_seq; [apply Hwf|done].
    + constructor.
    + intros c Hc. by apply elem_of_nil in Hc.
    + cbn [inserted_item item_id].
      rewrite (item_chunks_inserted r db Hwf _ Htbl).
      apply inserted_chunks_created.
    + done.
    + apply (tag_fk_fresh db Hwf).
Qed.

(** Ingesting [r] again changes the modification time and nothing else in
    the three tables; no embedding row is lost. *)
Lemma ingested_quiet r db1 item1 L0 first others :
  ingested r db1 item1 L0 first others →
  (∀ d, d ∈ default [] (r_chunks r) → truthy (cd_key d) = true) →
  quiet (item_id item1) (default [] (r_chunks r)) db1.
Proof.
  intros (Hsel & Hmeta & Hnd & Hnd0 & Hold & Hchunks & Htagrows & Hothers)
    Hkeys.
  assert (Hfixed : ∀ c, c ∈ item_chunks (item_id item1) db1 →
            merged (existing_keys_of (item_chunks (item_id item1) db1)) 0
              (default [] (r_chunks r)) c = c).
  { intros c Hc. rewrite Hchunks in Hc |- *. by eapply remerge_fixed. }
  destruct (merged_chunk_tbl_fixpoint (item_id item1)
              (default [] (r_chunks r)) db1) as (Hfix & Hdoomed & _).
  { intros c Hc. rewrite Hchunks in Hc.
    by eapply remerge_no_stale. }
  { intros d Hd. rewrite Hchunks. by eapply remerge_all_hit. }
  { done. }
  split; [done|]. by apply Forall_forall.
Qed.

Lemma add_item_again now r db1 item1 L0 first others :
  ingested r db1 item1 L0 first others →
  r_replace r = false →
  tags_accepted (default [] (r_tags r)) →
  (∀ d, d ∈ default [] (r_chunks r) → truthy (cd_key d) = true) →
  let db2 := (add_item now r db1).1 in
  item_tbl db2
  = (λ i, if decide (item_id i = item_id item1) then touch now item1 else i)
    <$> item_tbl db1 ∧
  chunk_tbl db2 = chunk_tbl db1 ∧
  tag_tbl db2 = tag_tbl db1 ∧
  (∀ k, is_Some (chunk_embeddings db1 !! k) →
        is_Some (chunk_embeddings db2 !! k)).
Proof.
  intros (Hsel & Hmeta & Hnd & Hnd0 & Hold & Hchunks & Htagrows & Hothers)
    Hrep Htags Hkeys db2. subst db2.
  rewrite (add_item_merge _ _ _ _ Hsel Hrep).
  assert (Hfixed : ∀ c, c ∈ item_chunks (item_id item1) db1 →
            merged (existing_keys_of (item_chunks (item_id item1) db1)) 0
              (default [] (r_chunks r)) c = c).
  { intros c Hc. rewrite Hchunks in Hc |- *. by eapply remerge_fixed. }
  destruct (merged_chunk_tbl_fixpoint (item_id item1)
              (default [] (r_chunks r)) db1) as (Hfix & Hdoomed & _).
  { intros c Hc. rewrite Hchunks in Hc.
    by eapply remerge_no_stale. }
  { intros d Hd. rewrite Hchunks. by eapply remerge_all_hit. }
  { done. }
  assert (Hq : quiet (item_id item1) (default [] (r_chunks r)) db1).
  { split; [done|]. by apply Forall_forall. }
  destruct (merge_path_committed now item1 r db1 Hq Htags)
    as (Hitems & Htags2 & Htbl & _ & _ & Hmono & _).
  specialize (Htbl Hnd).
  split; [|split; [|split]].
  - rewrite Hitems. apply list_fmap_ext. intros _ i _.
    by rewrite Hmeta.
  - by rewrite Htbl.
  - rewrite Htags2, Htagrows, filter_app.
    rewrite filter_all by done. rewrite filter_none; [by rewrite app_nil_r|].
    intros t [x [-> _]]%list_elem_of_fmap Hne. by apply Hne.
  - intros k Hk. apply Hmono; [|done]. rewrite Hdoomed. apply not_elem_of_nil.
Qed.

End Twice.

(** ** The operations keep the store's keys intact *)

Section Integrity.
Context `{Collaborators}.

(** The two ways [delete_item] ends when it finds the item: an item
    without chunks is deleted with its tags; for an item with chunks the
    embedding rows go on the raw connection and the session then raises at
    the first chunk DELETE and rolls back. *)
Lemma delete_item_cases source_uri db item :
  select_item source_uri db = Some item →
  let ids := chunk_id <$> item_chunks (item_id item) db in
  let p := delete_item source_uri db in
  (item_chunks (item_id item) db = [] ∧
   p.2 = Returned true ∧
   item_tbl p.1 = filter (λ i, item_id i ≠ item_id item) (item_tbl db) ∧
   chunk_tbl p.1 = chunk_tbl db ∧
   tag_tbl p.1 = filter (λ t, tag_item_id t ≠ item_id item) (tag_tbl db) ∧
   chunk_embeddings p.1 = chunk_embeddings db ∧
   chunks_fts p.1 = chunks_fts db ∧
   vec_dim p.1 = vec_dim db ∧ setting_tbl p.1 = setting_tbl db) ∨
  (item_chunks (item_id item) db ≠ [] ∧
   p.2 = Raised OperationalError ∧
   item_tbl p.1 = item_tbl db ∧ chunk_tbl p.1 = chunk_tbl db ∧
   tag_tbl p.1 = tag_tbl db ∧ chunks_fts p.1 = chunks_fts db ∧
   vec_dim p.1 = vec_dim db ∧ setting_tbl p.1 = setting_tbl db ∧
   (∀ k, chunk_embeddings p.1 !! k
         = if decide (k ∈ ids) then None else chunk_embeddings db !! k)).
Proof.
  intros Hsel ids p. subst p ids. unfold delete_item. rewrite Hsel.
  destruct (item_chunks (item_id item) db) as [|c cs] eqn:E.
  - left. cbn [fmap list_fmap]. unfold session_delete_item. rewrite E.
    cbn. by repeat split.
  - right. cbn [fmap list_fmap]. unfold session_delete_item.
    assert (item_chunks (item_id item)
              (vec_delete_in (chunk_id c :: (chunk_id <$> cs)) db) = c :: cs)
      as -> by exact E.
    cbn [run_all]. rewrite delete_chunk_raises. cbn [fst snd].
    repeat split; try done. intros k. apply vec_delete_in_lookup.
Qed.

Lemma delete_item_absent_eq source_uri db :
  select_item source_uri db = None →
  delete_item source_uri db = (db, Returned false).
Proof. intros Hsel. unfold delete_item. by rewrite Hsel. Qed.

Lemma delete_item_wf source_uri db :
  wf_db db → wf_db (delete_item source_uri db).1.
Proof.
  intros Hwf.
  destruct (select_item source_uri db) as [item|] eqn:Hsel.
  2: { by rewrite delete_item_absent_eq. }
  destruct (delete_item_cases _ _ _ Hsel)
    as [(Hnone & _ & Hi & Hc & Ht & He & _)
       |(_ & _ & Hi & Hc & Ht & _ & _ & _ & He)].
  - split; rewrite ?Hi, ?Hc, ?Ht, ?He.
    + apply NoDup_fmap_filter, Hwf.
    + apply Hwf.
    + intros c Hin.
      pose proof (wf_chunk_fk _ Hwf c Hin) as (i & Hid & Hii)%list_elem_of_fmap.
      apply list_elem_of_fmap. exists i. split; [done|].
      apply list_elem_of_filter. split; [|done]. intros Heq.
      assert (c ∈ item_chunks (item_id item) db) as Hc'
        by (apply list_elem_of_filter; split; [congruence|done]).
      rewrite Hnone in Hc'. by apply elem_of_nil in Hc'.
    + intros t [Hne Hin]%list_elem_of_filter.
      pose proof (wf_tag_fk _ Hwf t Hin) as (i & Hid & Hii)%list_elem_of_fmap.
      apply list_elem_of_fmap. exists i. split; [done|].
      apply list_elem_of_filter. split; [congruence|done].
    + apply Hwf.
  - split; rewrite ?Hi, ?Hc, ?Ht; try apply Hwf.
    intros k. rewrite He. destruct (decide _); [by intros [? ?]|].
    apply Hwf.
Qed.

(** [add_item] with [replace] on a stored source: what [delete_item]
    raises ends the call. *)
Lemma add_item_replace now r db existing :
  select_item (r_source_uri r) db = Some existing → r_replace r = true →
  add_item now r db
  = match (delete_item (r_source_uri r) db).2 with
    | Raised e => ((delete_item (r_source_uri r) db).1, Raised e)
    | Returned _ => insert_path now r (delete_item (r_source_uri r) db).1
    end.
Proof.
  intros Hsel Hrep. unfold add_item. rewrite Hsel, Hrep.
  by destruct (delete_item (r_source_uri r) db) as [db' [b|e]].
Qed.

Lemma insert_path_wf now r db : wf_db db → wf_db (insert_path now r db).1.
Proof.
  intros Hwf.
  destruct (insert_tags (mkTag (next_rowid (item_id <$> item_tbl db))
                           <$> default [] (r_tags r)) (tag_tbl db))
    as [tag_rows|] eqn:Htags.
  2: { unfold insert_path. cbn [with_items chunk_tbl item_tbl item_id].
       rewrite insert_chunks_tags. cbn [with_items tag_tbl].
       by rewrite Htags. }
  destruct (insert_path_flushed now r db tag_rows Htags)
    as (Hi & Hc & Ht & _ & _ & He).
  apply insert_tags_Some in Htags as ->.
  assert (Hids : item_id <$> item_tbl (insert_path now r db).1
                 = (item_id <$> item_tbl db)
                   ++ [next_rowid (item_id <$> item_tbl db)])
    by (by rewrite Hi, fmap_app).
  split.
  - rewrite Hids. apply (NoDup_ids_app_seq _ _ 1); [apply Hwf|done].
  - rewrite Hc, fmap_app, inserted_chunks_ids.
    apply NoDup_ids_app_seq; [apply Hwf|done].
  - intros c. rewrite Hc, Hids. intros [Hin|Hin]%elem_of_app.
    + apply elem_of_app. left. by apply Hwf.
    + apply elem_of_app. right.
      rewrite (inserted_chunks_item_id r db c Hin). left.
  - intros t. rewrite Ht, Hids. intros [Hin|Hin]%elem_of_app.
    + apply elem_of_app. left. by apply Hwf.
    + apply elem_of_app. right.
      apply list_elem_of_fmap in Hin as (x & -> & _). left.
  - intros k [Hk|Hk]%He; rewrite Hc, fmap_app; apply elem_of_app;
      [by right|left; by apply Hwf].
Qed.

Lemma merge_path_wf now existing r db :
  wf_db db → existing ∈ item_tbl db →
  wf_db (merge_path now existing r db).1.
Proof.
  intros Hwf Hex.
  destruct (merge_path_cases now existing r db)
    as [[Hq [tag_rows Htags]]|(_ & Hi & Hc & Ht & _ & _ & _ & He)].
  2: { split; rewrite ?Hi, ?Hc, ?Ht; try apply Hwf.
       intros k. rewrite He. destruct (decide _); [by intros [? ?]|].
       apply Hwf. }
  destruct (merge_path_flushed now existing r db tag_rows Hq Htags)
    as (Hi & Ht & _ & _ & _ & Hmono & Hc & _ & _ & _ & _).
  pose proof (merge_path_flushed now existing r db tag_rows Hq Htags)
    as (_ & _ & _ & _ & He & _).
  apply insert_tags_Some in Htags as ->.
  assert (Hids : item_id <$> item_tbl (merge_path now existing r db).1
                 = item_id <$> item_tbl db).
  { rewrite Hi, <- list_fmap_compose. apply list_fmap_ext.
    intros _ i _. simpl. by destruct (decide _). }
  split.
  - rewrite Hids. apply Hwf.
  - rewrite Hc, fmap_app, created_ids.
    apply NoDup_ids_app_seq; [apply Hwf|done].
  - intros c. rewrite Hc, Hids. intros [Hin|Hin]%elem_of_app.
    + by apply Hwf.
    + rewrite (created_item_id _ _ _ _ _ _ Hin).
      apply list_elem_of_fmap. eauto.
  - intros t. rewrite Ht, Hids. intros [Hin|Hin]%elem_of_app.
    + apply list_elem_of_filter in Hin as [_ Hin]. by apply Hwf.
    + apply list_elem_of_fmap in Hin as (x & -> & _).
      apply list_elem_of_fmap. eauto.
  - intros k Hk. rewrite Hc, fmap_app. apply elem_of_app.
    destruct (decide (k ∈ recorded
                (existing_keys_of (item_chunks (item_id existing) db))
                (next_rowid (chunk_id <$> chunk_tbl db))
                (default [] (r_chunks r)))) as [Hrec|Hrec].
    + apply (recorded_ids _ (item_id existing) _ 0) in Hrec
        as [(d & Hd & Ht')|Hnew]; [left|by right].
      pose proof Ht' as (k' & Hk' & Hne & Hek)%target_Some.
      apply existing_keys_of_Some in Hek as (_ & c0 & Hc0 & <- & Hkey).
      apply list_elem_of_fmap. exists c0. split; [done|].
      by apply list_elem_of_filter in Hc0 as [_ ?].
    + left. rewrite (He k Hrec) in Hk.
      destruct (decide _) as [|Hlive]; [by destruct Hk|].
      by apply Hwf.
Qed.

(** Every store [add_item] leaves satisfies the key constraints when the
    store it was given did. *)
Lemma add_item_wf now r db : wf_db db → wf_db (add_item now r db).1.
Proof.
  intros Hwf. unfold add_item.
  destruct (select_item (r_source_uri r) db) as [existing|] eqn:Hsel.
  - destruct (r_replace r) eqn:Hrep.
    + pose proof (add_item_replace now r db existing Hsel Hrep) as Heq.
      unfold add_item in Heq. rewrite Hsel, Hrep in Heq. rewrite Heq.
      destruct ((delete_item (r_source_uri r) db).2).
      * by apply insert_path_wf, delete_item_wf.
      * by apply delete_item_wf.
    + apply merge_path_wf; [done|]. by apply select_item_Some in Hsel as [? _].
  - by apply insert_path_wf.
Qed.

End Integrity.

(** ** What a call that returns has done *)

Section Returned.
Context `{Collaborators}.

Lemma insert_tags_inv rows tbl l :
  insert_tags rows tbl = Some l →
  tag_unique = true → NoDup rows ∧ ∀ r, r ∈ rows → r ∉ tbl.
Proof.
  revert tbl. induction rows as [|r rows IH]; intros tbl Hl Hu.
  - split; [constructor|]. intros r Hr. by apply elem_of_nil in Hr.
  - simpl in Hl. rewrite Hu in Hl. simpl in Hl.
    destruct (bool_decide (r ∈ tbl)) eqn:Hin; [done|].
    apply bool_decide_eq_false in Hin.
    destruct (IH _ Hl Hu) as [Hnd Hfresh]. split.
    + constructor; [|done]. intros Hr. apply (Hfresh r Hr).
      apply elem_of_app. right. by left.
    + intros r' [->|Hr']%elem_of_cons; [done|].
      intros Hin'. apply (Hfresh r' Hr'). apply elem_of_app. by left.
Qed.

Lemma insert_tags_accepted item_pk tags tbl l :
  insert_tags (mkTag item_pk <$> tags) tbl = Some l → tags_accepted tags.
Proof.
  intros Hl Hu. destruct (insert_tags_inv _ _ _ Hl Hu) as [Hnd _].
  by apply NoDup_fmap_1 in Hnd.
Qed.

Lemma insert_path_returns_inv now r db v :
  (insert_path now r db).2 = Returned v →
  tags_accepted (default [] (r_tags r)).
Proof.
  unfold insert_path. cbn [with_items chunk_tbl item_tbl item_id].
  rewrite insert_chunks_tags. cbn [with_items tag_tbl].
  destruct (insert_tags _ _) as [tag_rows|] eqn:Htags; [|done].
  intros _. by eapply insert_tags_accepted.
Qed.

(** A call without replace that returns had its tag rows accepted and, on
    the merge path, no old chunk row to write. *)
Lemma add_item_returned now r db v :
  r_replace r = false →
  (add_item now r db).2 = Returned v →
  tags_accepted (default [] (r_tags r)) ∧
  ∀ existing, select_item (r_source_uri r) db = Some existing →
    quiet (item_id existing) (default [] (r_chunks r)) db.
Proof.
  intros Hrep Hret.
  destruct (select_item (r_source_uri r) db) as [existing|] eqn:Hsel.
  - rewrite (add_item_merge _ _ _ _ Hsel Hrep) in Hret.
    destruct (merge_path_returns_inv _ _ _ _ _ Hret) as [Hq [rows Hrows]].
    split; [by eapply insert_tags_accepted|]. by intros ? [= <-].
  - rewrite (add_item_insert _ _ _ Hsel) in Hret.
    split; [by eapply insert_path_returns_inv|done].
Qed.

End Returned.

(** ** delete_item *)

(** C10: for a source_uri that no item carries, [delete_item] returns
    false and the store it leaves is the store it was given: every table
    (item, chunk, tag, chunk_embeddings, chunks_fts, setting) is unchanged. *)
Theorem delete_item_absent source_uri db :
  (∀ i, i ∈ item_tbl db → item_source_uri i ≠ source_uri) →
  delete_item source_uri db = (db, Returned false).
Proof.
  intros Habsent. unfold delete_item.
  apply select_item_None in Habsent. by rewrite Habsent.
Qed.

Lemma delete_item_absent_witness :
  delete_item "mem://b" Sample.stored = (Sample.stored, Returned false).
Proof.
  apply delete_item_absent. intros i Hi.
  vm_compute in Hi. apply list_elem_of_singleton in Hi. by subst.
Defined.

(** C3 does not hold of the code: [delete_item] of a stored item that has
    chunks does not return true and removes no row of the item.  For the
    item "mem://a" with its two chunks the embedding rows are deleted on
    the raw connection, then the DELETE of the first chunk fires
    [chunks_ad], whose FTS5 'delete' command the contentless-delete table
    refuses: the call raises, the session rolls back, and the item row,
    both chunk rows, both tag rows and both FTS rows are still there. *)
Lemma delete_item_raises_on_chunks :
  let p := delete_item "mem://a" Sample.stored in
  item_source_uri <$> item_tbl Sample.stored = ["mem://a"] ∧
  chunk_id <$> item_chunks 1 Sample.stored = [1; 2] ∧
  dom (chunk_embeddings Sample.stored) = {[1; 2]} ∧
  p.2 = Raised OperationalError ∧
  item_tbl p.1 = item_tbl Sample.stored ∧
  chunk_tbl p.1 = chunk_tbl Sample.stored ∧
  tag_tbl p.1 = tag_tbl Sample.stored ∧
  chunks_fts p.1 = chunks_fts Sample.stored ∧
  chunk_embeddings p.1 = ∅.
Proof.
  cbv zeta. split; [reflexivity|]. split; [reflexivity|].
  split; [by_eval|]. split; [reflexivity|]. split; [reflexivity|].
  split; [reflexivity|]. split; [reflexivity|]. split; [reflexivity|].
  by_eval.
Qed.

(** ** The merge path *)

(** C9 does not hold of the code: a merge that has a chunk row to delete
    or to change raises at its flush, and the rollback takes the UPDATE of
    the item row with it.  Re-ingesting "mem://a" with its first chunk only
    and no title, source_type or context raises at the DELETE of the
    second chunk ([chunks_ad]); the stored item keeps the title,
    source_type, context and modification time it had. *)
Lemma merge_rollback_keeps_metadata :
  let stored_item := mkItem 1 "mem://a" (Some "A") (Some "note") (Some "ctx")
                            None 5 5 in
  let p := @add_item (Sample.services false) 9 Sample.bare Sample.stored in
  select_item "mem://a" Sample.stored = Some stored_item ∧
  r_replace Sample.bare = false ∧
  r_title Sample.bare = None ∧ r_source_type Sample.bare = None ∧
  r_context Sample.bare = None ∧
  p.2 = Raised OperationalError ∧
  select_item "mem://a" p.1 = Some stored_item.
Proof. cbv zeta. repeat split; vm_compute; reflexivity. Qed.

(** C8, as the code has it: when a merge returns, every tag row the item
    had is deleted and one row is inserted for each element of the
    supplied list, in order and with repetitions; the rows of other items
    are untouched. *)
Theorem merge_replaces_tags `{Collaborators} now r db existing v :
  select_item (r_source_uri r) db = Some existing →
  r_replace r = false →
  (add_item now r db).2 = Returned v →
  let db' := (add_item now r db).1 in
  item_tags (item_id existing) db'
  = mkTag (item_id existing) <$> default [] (r_tags r) ∧
  ∀ other, other ≠ item_id existing → item_tags other db' = item_tags other db.
Proof.
  intros Hsel Hrep Hret db'. subst db'.
  destruct (add_item_returned now r db v Hrep Hret) as [Htags Hq].
  rewrite (add_item_merge _ _ _ _ Hsel Hrep).
  destruct (merge_path_committed now existing r db (Hq _ Hsel) Htags)
    as (_ & Ht & _).
  unfold item_tags. rewrite Ht. split.
  - rewrite filter_app, list_filter_filter, filter_none, filter_all; [done| |].
    + intros t [x [-> _]]%list_elem_of_fmap. done.
    + intros t _ [? ?]. done.
  - intros other Hother.
    rewrite filter_app, list_filter_filter_l by (simpl; congruence).
    rewrite (filter_none _ (_ <$> _)); [by rewrite app_nil_r|].
    intros t [x [-> _]]%list_elem_of_fmap. simpl. congruence.
Qed.

Lemma merge_replaces_tags_witness :
  let db' := (@add_item (Sample.services false) 9 Sample.repeated_tag
                Sample.stored).1 in
  item_tags 1 db' = [mkTag 1 "z"; mkTag 1 "z"] ∧
  ∀ other, other ≠ 1 → item_tags other db' = item_tags other Sample.stored.
Proof.
  eapply (@merge_replaces_tags (Sample.services false) 9 Sample.repeated_tag
            Sample.stored (mkItem 1 "mem://a" (Some "A") (Some "note")
                                  (Some "ctx") None 5 5)).
  - reflexivity.
  - reflexivity.
  - vm_compute. reflexivity.
Defined.

(** C8 as stated fails: "mem://a" is re-ingested with the chunks it has
    and the tag list ["z"; "z"].  The merge does not end with the single
    tag row "z" for the item, whether or not the tag table declares a key:
    without one the call returns and two rows are stored, with one the
    commit raises and the old rows stay. *)
Lemma merge_keeps_repeated_tags :
  (∃ v, (@add_item (Sample.services false) 9 Sample.repeated_tag
           Sample.stored).2 = Returned v) ∧
  item_tags 1 (@add_item (Sample.services false) 9 Sample.repeated_tag
                 Sample.stored).1
  = [mkTag 1 "z"; mkTag 1 "z"] ∧
  (@add_item (Sample.services true) 9 Sample.repeated_tag Sample.stored).2
  = Raised IntegrityError ∧
  item_tags 1 (@add_item (Sample.services true) 9 Sample.repeated_tag
                 Sample.stored).1
  = [mkTag 1 "x"; mkTag 1 "y"].
Proof.
  split; [eexists; vm_compute; reflexivity|].
  repeat split; vm_compute; reflexivity.
Qed.




(** ** Chunks with empty text *)

(** C5, as the code has it: the text of a chunk is never inspected, so a
    chunk with empty text is ingested like any other.  Without a stored
    item for the source_uri the record's chunks become one chunk row each,
    in order, with the supplied text and an FTS row; when a merge returns,
    an incoming chunk that matches no stored chunk of the item (its key is
    null or empty, or no stored chunk carries it) has become a new chunk
    row at its position with the supplied text. *)
Theorem empty_text_is_ingested `{Collaborators} now r db :
  r_replace r = false →
  tags_accepted (default [] (r_tags r)) →
  NoDup (chunk_id <$> chunk_tbl db) →
  (∀ t, t ∈ tag_tbl db → tag_item_id t ∈ item_id <$> item_tbl db) →
  let chunks := default [] (r_chunks r) in
  let db' := (add_item now r db).1 in
  match select_item (r_source_uri r) db with
  | None =>
      ∃ rows, chunk_tbl db' = chunk_tbl db ++ rows ∧
        chunk_text <$> rows = cd_text <$> chunks ∧
        chunk_index <$> rows = seq 0 (length chunks) ∧
        ∀ c, c ∈ rows → is_Some (chunks_fts db' !! chunk_id c)
  | Some existing =>
      ∀ v, (add_item now r db).2 = Returned v →
      ∀ i d, chunks !! i = Some d →
        (truthy (cd_key d) = false ∨
         ∀ c, c ∈ item_chunks (item_id existing) db →
              chunk_key c ≠ cd_key d) →
        ∃ c, c ∈ chunk_tbl db' ∧ chunk_item_id c = item_id existing ∧
             chunk_index c = i ∧ chunk_text c = cd_text d ∧
             chunk_key c = cd_key d
  end.
Proof.
  intros Hrep Htags Hnd Hfk chunks db'. subst db'.
  destruct (select_item (r_source_uri r) db) as [existing|] eqn:Hsel.
  - intros v Hret.
    destruct (add_item_returned now r db v Hrep Hret) as [_ Hq].
    rewrite (add_item_merge _ _ _ _ Hsel Hrep).
    destruct (merge_path_committed now existing r db (Hq _ Hsel) Htags)
      as (_ & _ & _ & _ & _ & _ & Htbl). rewrite Htbl. fold chunks.
    intros i d Hi Hnew.
    assert (target (existing_keys_of (item_chunks (item_id existing) db)) d
            = None) as Ht.
    { destruct (target _ d) as [cid|] eqn:Ht; [|done]. exfalso.
      apply target_Some in Ht as (k & Hk & Hne & Hek).
      destruct Hnew as [Hfalsy|Hnone].
      - rewrite Hk in Hfalsy. apply truthy_Some in Hne. congruence.
      - apply existing_keys_of_Some in Hek as (_ & c & Hc & _ & Hkey).
        apply (Hnone c Hc). congruence. }
    destruct (created_lookup _ (item_id existing)
                (next_rowid (chunk_id <$> chunk_tbl db)) 0 chunks i d Hi Ht)
      as [cid Hin].
    eexists. split; [apply elem_of_app; right; exact Hin|]. done.
  - rewrite (add_item_insert _ _ _ Hsel).
    destruct (insert_path_committed now r db Htags) as (_ & Htbl & _ & Hfts & _).
    { intros t Ht Heq. apply Hfk, next_rowid_fresh in Ht. lia. }
    exists (inserted_chunks r db). split; [done|]. split; [|split].
    + unfold inserted_chunks. fold chunks. rewrite fmap_imap.
      transitivity (imap (λ _, cd_text) chunks); [by apply imap_ext|].
      apply imap_const.
    + unfold inserted_chunks. fold chunks. rewrite fmap_imap.
      transitivity (imap (λ i _, id i) chunks); [by apply imap_ext|].
      by rewrite imap_seq_0, list_fmap_id.
    + intros c Hc. apply Hfts. left. apply list_elem_of_fmap. eauto.
Qed.

Lemma empty_text_is_ingested_witness :
  let db' := (@add_item (Sample.services true) 5 Sample.blank
                Sample.empty).1 in
  ∃ rows, chunk_tbl db' = rows ∧
    chunk_text <$> rows = [""; "beta"] ∧
    chunk_index <$> rows = [0; 1] ∧
    ∀ c, c ∈ rows → is_Some (chunks_fts db' !! chunk_id c).
Proof.
  apply (@empty_text_is_ingested (Sample.services true) 5 Sample.blank
           Sample.empty eq_refl).
  - intros _. by_eval.
  - by_eval.
  - intros t Ht. by apply elem_of_nil in Ht.
Defined.

(** C5 as stated fails: ingesting a record whose first chunk has empty
    text into the empty store leaves a chunk row with that empty text, an
    embedding row and an FTS row for it. *)
Lemma empty_text_chunk_is_stored :
  let db' := (@add_item (Sample.services false) 5 Sample.blank
                Sample.empty).1 in
  mkChunk 1 1 None 0 "" None ∈ chunk_tbl db' ∧
  chunk_embeddings db' !! 1 = Some [0%Z; 0%Z] ∧
  chunks_fts db' !! 1 = Some ("", "").
Proof. vm_compute. split; [left|split; reflexivity]. Qed.

(** ** The tool façade *)

(** C6, as the code has it: the façade checks nothing.  [add] ingests under
    any source_uri, the empty one included: when no item carries it (and
    the provider and the tag list are in order) the answer is "added" and
    [get] then shows the item with its one keyless chunk.  [search] hands
    any limit to the retriever and answers with one hit per row it gets. *)
Theorem facade_accepts_any_input `{Collaborators} {float : Type}
    (hybrid_search : string → Z → option string → option (list string) →
                     bool → DB → outcome (list (Server.SearchResult float)))
    now source_uri title text source_type tags context db
    query limit filter_type filter_tags semantic results :
  wf_db db →
  provider_ok (vec_dim db) →
  tags_accepted (default [] tags) →
  select_item source_uri db = None →
  hybrid_search query limit filter_type filter_tags semantic db
  = Returned results →
  let p := Server.add now source_uri title text source_type tags context db in
  p.2 = Returned (Server.mkAddReply "added" source_uri title) ∧
  Server.get source_uri p.1
  = Some (Server.mkGetReply source_uri (Some title) (Some source_type) context
            now now [(text, None)] (default [] tags)) ∧
  ∃ hits,
    Server.search hybrid_search query limit filter_type filter_tags semantic db
    = Returned hits ∧
    Server.hit_source_uri _ <$> hits = Server.sr_source_uri _ <$> results ∧
    Server.hit_snippet _ <$> hits = Server.sr_chunk_text _ <$> results.
Proof.
  intros Hwf Hprov Htags Hsel Hsearch p. subst p. unfold Server.add.
  set (r := mkRecord source_uri (Some title) (Some source_type) context
              (Some [mkChunkData text None None]) tags None false).
  rewrite (add_item_insert now r db Hsel).
  destruct (insert_path_returns now r db Hwf Htags Hprov) as [Hret _].
  destruct (insert_path_committed now r db Htags (tag_fk_fresh db Hwf))
    as (Hitems & Hchunks & Htagrows & _).
  destruct (insert_path now r db) as [db' o]. cbn [fst snd] in *. subst o.
  cbn [fst snd]. split; [done|]. split.
  - unfold Server.get, get_item.
    rewrite (select_item_appended source_uri (inserted_item now r db) db db'
               Hsel eq_refl Hitems).
    unfold load_view. cbn [view_item view_chunks view_tags inserted_item
      item_id item_source_uri item_title item_source_type item_context
      item_created_at item_updated_at].
    rewrite (item_chunks_inserted r db Hwf db' Hchunks).
    rewrite (item_tags_inserted r db Hwf db' Htagrows).
    f_equal. f_equal. rewrite <- list_fmap_compose.
    transitivity (id <$> default [] tags); [done|apply list_fmap_id].
  - unfold Server.search. rewrite Hsearch. eexists. split; [done|].
    by rewrite <- !list_fmap_compose.
Qed.

Lemma facade_accepts_any_input_witness :
  let p := @Server.add (Sample.services true) 5 "" "T" "body" "note"
             (Some ["t"]) None Sample.empty in
  p.2 = Returned (Server.mkAddReply "added" "" "T") ∧
  Server.get "" p.1
  = Some (Server.mkGetReply "" (Some "T") (Some "note") None 5 5
            [("body", None)] ["t"]) ∧
  ∃ hits,
    Server.search Sample.retriever "alpha" 0 None None true Sample.empty
    = Returned hits ∧
    Server.hit_source_uri _ <$> hits = ["mem://a"] ∧
    Server.hit_snippet _ <$> hits = ["alpha"].
Proof.
  apply (@facade_accepts_any_input (Sample.services true) Z Sample.retriever
           5 "" "T" "body" "note" (Some ["t"]) None Sample.empty
           "alpha" 0%Z None None true [Sample.row] wf_db_empty
           (provider_ok_sample true)).
  - intros _. by_eval.
  - reflexivity.
  - reflexivity.
Defined.

(** C6 as stated fails: [add] with the empty source_uri is not rejected;
    it stores an item under the empty source_uri and answers "added". *)
Lemma add_accepts_empty_source_uri :
  let p := @Server.add (Sample.services false) 5 "" "T" "body" "note"
             None None Sample.empty in
  p.2 = Returned (Server.mkAddReply "added" "" "T") ∧
  item_source_uri <$> item_tbl p.1 = [""] ∧
  chunk_text <$> chunk_tbl p.1 = ["body"].
Proof. vm_compute. repeat split; reflexivity. Qed.

(** ** Bootstrap *)

(** C4, as the code has it: [init_db] compares no dimensions.  On a store
    that already holds the setting embed_dimension the provider is not
    asked and bootstrap changes nothing, whatever dimension the provider
    would report.  A later [add_item] for a new source_uri, answered by the
    provider with vectors of another length than the vector table
    declares, commits the item and chunk rows and then raises when the
    vector table refuses the first embedding; no embedding row is written. *)
Theorem dimension_mismatch_unnoticed `{Collaborators} now r db
    value d embeddings :
  setting_tbl db !! "embed_dimension" = Some value →
  Engine.int value = Returned d →
  wf_db db →
  tags_accepted (default [] (r_tags r)) →
  select_item (r_source_uri r) db = None →
  default [] (r_chunks r) ≠ [] →
  get_embeddings_sync (cd_text <$> default [] (r_chunks r))
  = Returned embeddings →
  embeddings ≠ [] →
  Forall (λ e, length e ≠ vec_dim db) embeddings →
  Engine.init_db (Engine.catalog_of db) = (Engine.catalog_of db, Returned ()) ∧
  let p := add_item now r db in
  p.2 = Raised OperationalError ∧
  select_item (r_source_uri r) p.1 = Some (inserted_item now r db) ∧
  chunk_tbl p.1 = chunk_tbl db ++ inserted_chunks r db ∧
  chunk_embeddings p.1 = chunk_embeddings db.
Proof.
  intros Hset Hint Hwf Htags Hsel Hchunks Hemb Hne Hlen. split.
  { unfold Engine.init_db, Engine.load_dimension, Engine.catalog_of.
    cbn [Engine.cat_setting Engine.cat_vec]. by rewrite Hset, Hint. }
  intros p. subst p. rewrite (add_item_insert _ _ _ Hsel).
  destruct (insert_path_committed now r db Htags (tag_fk_fresh db Hwf))
    as (Hitems & Hrows & _).
  destruct (insert_path_refused now r db Hwf embeddings Htags Hchunks Hemb
              Hne Hlen) as [Hraised Hrows'].
  split; [done|]. split; [|done].
  by eapply select_item_appended.
Qed.

Lemma dimension_mismatch_unnoticed_witness :
  Engine.init_db (H := Sample.wide) (Engine.catalog_of Sample.narrow)
  = (Engine.catalog_of Sample.narrow, Returned ()) ∧
  let p := @add_item Sample.wide 7 Sample.keyed Sample.narrow in
  p.2 = Raised OperationalError ∧
  select_item "mem://a" p.1
  = Some (@inserted_item 7 Sample.keyed Sample.narrow) ∧
  chunk_tbl p.1 = chunk_tbl Sample.narrow
                  ++ @inserted_chunks Sample.wide Sample.keyed Sample.narrow ∧
  chunk_embeddings p.1 = chunk_embeddings Sample.narrow.
Proof.
  apply (@dimension_mismatch_unnoticed Sample.wide 7 Sample.keyed Sample.narrow
           "768" 768
           [replicate 1024 0%Z; replicate 1024 0%Z]).
  - reflexivity.
  - reflexivity.
  - split; simpl.
    + constructor.
    + constructor.
    + intros c Hc. by apply elem_of_nil in Hc.
    + intros t Ht. by apply elem_of_nil in Ht.
    + intros k [e He]. by rewrite lookup_empty in He.
  - intros Hu. discriminate Hu.
  - reflexivity.
  - discriminate.
  - reflexivity.
  - discriminate.
  - apply (bool_decide_unpack _). vm_compute. exact I.
Defined.

(** C4 as stated fails: a store bootstrapped with dimension 768 is
    bootstrapped again next to a provider whose model has dimension 1024.
    [init_db] reports nothing, and the next [add_item] leaves an item row
    and two chunk rows in the store before it raises. *)
Lemma dimension_mismatch_is_not_fatal :
  Engine.init_db (H := Sample.wide) (Engine.catalog_of Sample.narrow)
  = (Engine.catalog_of Sample.narrow, Returned ()) ∧
  let p := @add_item Sample.wide 7 Sample.keyed Sample.narrow in
  p.2 = Raised OperationalError ∧
  item_source_uri <$> item_tbl p.1 = ["mem://a"] ∧
  chunk_text <$> chunk_tbl p.1 = ["alpha"; "beta"] ∧
  item_tbl Sample.narrow = [].
Proof. vm_compute. repeat split; reflexivity. Qed.

(** ** Ingesting the same record twice *)

(** C1, as the code has it: for a record whose chunks all carry a
    non-empty key, ingested without replace by a call that returns,
    ingesting it once more leaves the chunk table and the tag table
    exactly as the first call left them, and [get_item] shows the same
    item with the same chunks and tags; only [updated_at] moves to the
    time of the second call. *)
Theorem add_twice_is_add_once `{Collaborators} now1 now2 r db v1 :
  wf_db db →
  r_replace r = false →
  (∀ d, d ∈ default [] (r_chunks r) → truthy (cd_key d) = true) →
  (add_item now1 r db).2 = Returned v1 →
  let db1 := (add_item now1 r db).1 in
  let db2 := (add_item now2 r db1).1 in
  chunk_tbl db2 = chunk_tbl db1 ∧
  tag_tbl db2 = tag_tbl db1 ∧
  ∃ v, get_item (r_source_uri r) db1 = Some v ∧
       get_item (r_source_uri r) db2
       = Some (mkView (touch now2 (view_item v)) (view_chunks v) (view_tags v)).
Proof.
  intros Hwf Hrep Hkeys Hret db1 db2.
  destruct (add_item_returned now1 r db v1 Hrep Hret) as [Htags Hquiet].
  destruct (add_item_once now1 r db Hwf Hrep Htags Hquiet)
    as (item1 & L0 & first & others & Hing).
  fold db1 in Hing.
  destruct (add_item_again now2 r db1 item1 L0 first others Hing Hrep Htags
              Hkeys) as (Hitems & Hchunks & Htagrows & _).
  fold db2 in Hitems, Hchunks, Htagrows.
  destruct Hing as (Hsel & _).
  split; [done|]. split; [done|].
  exists (load_view item1 db1). unfold get_item. rewrite Hsel.
  split; [done|].
  rewrite (select_item_updated _ item1 (touch now2 item1) db1 db2 Hsel);
    [|by apply select_item_Some in Hsel as [_ ?]|done].
  unfold load_view, item_chunks, item_tags. cbn [touch item_id].
  by rewrite Hchunks, Htagrows.
Qed.

Lemma add_twice_is_add_once_witness :
  let db1 := (@add_item (Sample.services true) 9 Sample.extended
                Sample.stored).1 in
  let db2 := (@add_item (Sample.services true) 12 Sample.extended db1).1 in
  chunk_tbl db2 = chunk_tbl db1 ∧
  tag_tbl db2 = tag_tbl db1 ∧
  ∃ v, get_item "mem://a" db1 = Some v ∧
       get_item "mem://a" db2
       = Some (mkView (touch 12 (view_item v)) (view_chunks v) (view_tags v)).
Proof.
  eapply (@add_twice_is_add_once (Sample.services true) 9 12 Sample.extended
            Sample.stored).
  - apply (@add_item_wf (Sample.services false)), wf_db_empty.
  - reflexivity.
  - apply Forall_forall. by_eval.
  - vm_compute. reflexivity.
Defined.

(** C1 as stated fails: the tool [add] called twice with the same
    arguments leaves the item with two chunk rows where one call leaves
    one, as [get] shows. *)
Lemma add_twice_duplicates_chunk :
  let db1 := (@Server.add (Sample.services false) 5 "mem://n" "N" "hello"
                "note" (Some ["t"]) None Sample.empty).1 in
  let db2 := (@Server.add (Sample.services false) 6 "mem://n" "N" "hello"
                "note" (Some ["t"]) None db1).1 in
  Server.get_chunks <$> Server.get "mem://n" db1 = Some [("hello", None)] ∧
  Server.get_chunks <$> Server.get "mem://n" db2
  = Some [("hello", None); ("hello", None)] ∧
  chunk_id <$> chunk_tbl db2 = [1; 2].
Proof. vm_compute. repeat split; reflexivity. Qed.

(** C7, as the code has it: a record whose chunks all carry a non-empty
    key is ingested for a source_uri that is new to the store, and then
    ingested again without replace.  Both calls return; the item has the
    same chunk ids after the second ingestion as after the first, and
    afterwards as many [chunk_embeddings] rows as chunks. *)
Theorem reingest_keeps_chunk_ids `{Collaborators} now1 now2 r db :
  wf_db db →
  provider_ok (vec_dim db) →
  r_replace r = false →
  tags_accepted (default [] (r_tags r)) →
  select_item (r_source_uri r) db = None →
  (∀ d, d ∈ default [] (r_chunks r) → truthy (cd_key d) = true) →
  let db1 := (add_item now1 r db).1 in
  let db2 := (add_item now2 r db1).1 in
  ∃ v1 v2,
    (add_item now1 r db).2 = Returned v1 ∧
    (add_item now2 r db1).2 = Returned v2 ∧
    get_item (r_source_uri r) db1 = Some v1 ∧
    get_item (r_source_uri r) db2 = Some v2 ∧
    chunk_id <$> view_chunks v2 = chunk_id <$> view_chunks v1 ∧
    length (view_chunks v1) = length (default [] (r_chunks r)) ∧
    length (item_embeddings (item_id (view_item v2)) db2)
    = length (view_chunks v2).
Proof.
  intros Hwf Hprov Hrep Htags Hnew Hkeys db1 db2.
  destruct (add_item_once now1 r db Hwf Hrep Htags)
    as (item1 & L0 & first & others & Hing).
  { intros existing Hsel. congruence. }
  fold db1 in Hing.
  pose proof (ingested_quiet r db1 item1 L0 first others Hing Hkeys) as Hq2.
  destruct (add_item_again now2 r db1 item1 L0 first others Hing Hrep Htags
              Hkeys) as (Hitems & Hchunks & _ & Hmono).
  fold db2 in Hitems, Hchunks, Hmono.
  destruct Hing as (Hsel & _).
  (* the first ingestion took the insert path *)
  assert (db1 = (insert_path now1 r db).1) as Hdb1
    by (subst db1; by rewrite (add_item_insert _ _ _ Hnew)).
  destruct (insert_path_committed now1 r db Htags (tag_fk_fresh db Hwf))
    as (Hitems1 & Htbl1 & _).
  destruct (insert_path_committed now1 r db Htags (tag_fk_fresh db Hwf))
    as (_ & _ & _ & _ & Hdim).
  destruct (insert_path_returns now1 r db Hwf Htags Hprov) as [Hret1 Hdom].
  rewrite <- Hdb1 in Hitems1, Htbl1, Hdom, Hdim.
  assert ((add_item now1 r db).2
          = Returned (load_view (inserted_item now1 r db) db1)) as Hret1'
    by (subst db1; by rewrite (add_item_insert _ _ _ Hnew)).
  assert (item1 = inserted_item now1 r db) as ->.
  { rewrite (select_item_appended _ (inserted_item now1 r db) db db1 Hnew
               eq_refl Hitems1) in Hsel. by injection Hsel. }
  assert (item_chunks (next_rowid (item_id <$> item_tbl db)) db1
          = inserted_chunks r db) as Hloaded
    by (by apply item_chunks_inserted).
  assert ((add_item now2 r db1).2
          = Returned (load_view (touch now2 (inserted_item now1 r db)) db2))
    as Hret2.
  { subst db2. rewrite (add_item_merge _ _ _ _ Hsel Hrep).
    apply (merge_path_returns now2 (inserted_item now1 r db) r db1 Hq2 Htags).
    by rewrite Hdim. }
  exists (load_view (inserted_item now1 r db) db1),
    (load_view (touch now2 (inserted_item now1 r db)) db2).
  split; [done|]. split; [done|].
  unfold get_item. rewrite Hsel.
  rewrite (select_item_updated _ (inserted_item now1 r db)
             (touch now2 (inserted_item now1 r db)) db1 db2 Hsel eq_refl Hitems).
  cbn [load_view view_item view_chunks touch inserted_item item_id].
  assert (item_chunks (next_rowid (item_id <$> item_tbl db)) db2
          = inserted_chunks r db) as Hloaded2
    by (unfold item_chunks in *; by rewrite Hchunks).
  rewrite Hloaded, Hloaded2.
  split; [done|]. split; [done|]. split; [done|]. split.
  - unfold inserted_chunks. apply length_imap.
  - unfold item_embeddings. rewrite Hloaded2. apply length_omap_all.
    intros c Hc.
    assert (is_Some (chunk_embeddings db2 !! chunk_id c)) as [e ->]; [|by eexists].
    apply Hmono, elem_of_dom. rewrite Hdom. apply elem_of_union. right.
    apply elem_of_list_to_set, list_elem_of_fmap. eauto.
Qed.

Lemma reingest_keeps_chunk_ids_witness :
  let db1 := (@add_item (Sample.services true) 5 Sample.keyed
                Sample.empty).1 in
  let db2 := (@add_item (Sample.services true) 9 Sample.keyed db1).1 in
  ∃ v1 v2,
    (@add_item (Sample.services true) 5 Sample.keyed Sample.empty).2
    = Returned v1 ∧
    (@add_item (Sample.services true) 9 Sample.keyed db1).2 = Returned v2 ∧
    get_item "mem://a" db1 = Some v1 ∧
    get_item "mem://a" db2 = Some v2 ∧
    chunk_id <$> view_chunks v2 = chunk_id <$> view_chunks v1 ∧
    length (view_chunks v1) = 2 ∧
    length (item_embeddings (item_id (view_item v2)) db2)
    = length (view_chunks v2).
Proof.
  apply (@reingest_keeps_chunk_ids (Sample.services true) 5 9 Sample.keyed
           Sample.empty wf_db_empty (provider_ok_sample true) eq_refl).
  - intros _. by_eval.
  - reflexivity.
  - apply Forall_forall. by_eval.
Defined.

(** C7 as stated fails: the empty string is a key that is not null, yet a
    chunk that carries it is matched by nothing; the second ingestion adds
    a second chunk row with a new id. *)
Lemma empty_key_is_not_stable :
  let db1 := (@add_item (Sample.services false) 5 Sample.empty_key
                Sample.empty).1 in
  let db2 := (@add_item (Sample.services false) 9 Sample.empty_key db1).1 in
  chunk_key <$> item_chunks 1 db1 = [Some ""] ∧
  chunk_id <$> item_chunks 1 db1 = [1] ∧
  chunk_id <$> item_chunks 1 db2 = [1; 2].
Proof. vm_compute. repeat split; reflexivity. Qed.

(** ** What an operation leaves of the rest of the store *)

Lemma NoDup_item_id_inj (tbl : list Item) i1 i2 :
  NoDup (item_id <$> tbl) → i1 ∈ tbl → i2 ∈ tbl →
  item_id i1 = item_id i2 → i1 = i2.
Proof.
  intros Hnd [j1 H1]%list_elem_of_lookup [j2 H2]%list_elem_of_lookup Heq.
  assert (j1 = j2).
  { apply (NoDup_lookup _ j1 j2 (item_id i1) Hnd);
      rewrite list_lookup_fmap; [rewrite H1|rewrite H2]; simpl; congruence. }
  subst j2. congruence.
Qed.

Lemma NoDup_source_uri_inj (tbl : list Item) i1 i2 :
  NoDup (item_source_uri <$> tbl) → i1 ∈ tbl → i2 ∈ tbl →
  item_source_uri i1 = item_source_uri i2 → i1 = i2.
Proof.
  intros Hnd [j1 H1]%list_elem_of_lookup [j2 H2]%list_elem_of_lookup Heq.
  assert (j1 = j2).
  { apply (NoDup_lookup _ j1 j2 (item_source_uri i1) Hnd);
      rewrite list_lookup_fmap; [rewrite H1|rewrite H2]; simpl; congruence. }
  subst j2. congruence.
Qed.

Lemma select_item_ext source_uri db db' :
  item_tbl db' = item_tbl db →
  select_item source_uri db' = select_item source_uri db.
Proof. unfold select_item. by intros ->. Qed.

Lemma item_chunks_ext item_pk db db' :
  chunk_tbl db' = chunk_tbl db → item_chunks item_pk db' = item_chunks item_pk db.
Proof. unfold item_chunks. by intros ->. Qed.

Lemma item_tags_ext item_pk db db' :
  tag_tbl db' = tag_tbl db → item_tags item_pk db' = item_tags item_pk db.
Proof. unfold item_tags. by intros ->. Qed.

(** A chunk of another item is none of the chunks of this one. *)
Lemma other_chunk_id item_pk db c :
  NoDup (chunk_id <$> chunk_tbl db) → c ∈ chunk_tbl db →
  chunk_item_id c ≠ item_pk →
  chunk_id c ∉ chunk_id <$> item_chunks item_pk db.
Proof.
  intros Hnd Hc Hne (c' & Hid & Hc')%list_elem_of_fmap.
  apply list_elem_of_filter in Hc' as [Hpk Hc'].
  assert (c = c') by (by apply (NoDup_chunk_id_inj (chunk_tbl db))).
  congruence.
Qed.

(** After a deletion, the rows of every other source are as they were. *)
Lemma delete_item_frame source_uri other db :
  wf_db db → other ≠ source_uri →
  untouched other db (delete_item source_uri db).1.
Proof.
  intros Hwf Hne. unfold untouched.
  destruct (select_item source_uri db) as [item|] eqn:Hsel.
  2: { rewrite delete_item_absent_eq by done. split; [done|]. intros; done. }
  pose proof (select_item_Some _ _ _ Hsel) as [Hin Huri].
  assert (Hother : ∀ o, o ∈ item_tbl db → item_source_uri o = other →
                        item_id o ≠ item_id item).
  { intros o Ho Hu Hid.
    assert (o = item) by (by apply (NoDup_item_id_inj (item_tbl db)); [apply Hwf|..]).
    congruence. }
  destruct (delete_item_cases _ _ _ Hsel)
    as [(_ & _ & Hi & Hc & Ht & He & Hf & _)
       |(_ & _ & Hi & Hc & Ht & Hf & _ & _ & He)].
  - split.
    + unfold select_item. rewrite Hi, list_filter_filter. f_equal.
      apply filter_ext_in. intros i Hi'. split; [tauto|].
      intros Hu. split; [done|]. by apply Hother.
    + intros o [Ho Hu]%select_item_Some.
      specialize (Hother o Ho Hu).
      split; [by apply item_chunks_ext|]. split.
      * unfold item_tags at 1. rewrite Ht, list_filter_filter.
        apply filter_ext_in. intros t Ht'. split; [tauto|].
        intros Hpk. split; [done|]. congruence.
      * intros c Hc'. by rewrite He, Hf.
  - split; [by apply select_item_ext|].
    intros o [Ho Hu]%select_item_Some.
    specialize (Hother o Ho Hu).
    split; [by apply item_chunks_ext|]. split; [by apply item_tags_ext|].
    intros c [Hpk Hc']%list_elem_of_filter. rewrite He, Hf.
    rewrite decide_False; [done|].
    apply other_chunk_id; [apply Hwf|done|congruence].
Qed.

(** ** The triggers and the keyword index *)

Lemma insert_chunks_fts_other cs db k :
  k ∉ chunk_id <$> cs →
  chunks_fts (foldl (λ d c, insert_chunk c d) db cs) !! k = chunks_fts db !! k.
Proof.
  revert db. induction cs as [|c cs IH]; intros db Hk; [done|].
  rewrite fmap_cons in Hk. apply not_elem_of_cons in Hk as [Hne Hk].
  simpl. rewrite IH by done. simpl. by rewrite lookup_insert_ne.
Qed.

Lemma fts_synced_ext db db' :
  chunk_tbl db' = chunk_tbl db → chunks_fts db' = chunks_fts db →
  fts_synced db → fts_synced db'.
Proof. unfold fts_synced. by intros -> ->. Qed.

Lemma insert_chunk_synced c db :
  chunk_id c ∉ chunk_id <$> chunk_tbl db →
  fts_synced db → fts_synced (insert_chunk c db).
Proof.
  intros Hfresh [Hrow Hkey]. split; simpl.
  - intros c' [Hc'|Hc']%elem_of_app.
    + rewrite lookup_insert_ne; [by apply Hrow|].
      intros Heq. apply Hfresh. apply list_elem_of_fmap. eauto.
    + apply list_elem_of_singleton in Hc' as ->. by rewrite lookup_insert_eq.
  - intros k. rewrite fmap_app, elem_of_app. simpl.
    destruct (decide (chunk_id c = k)) as [<-|Hne].
    + intros _. right. left.
    + rewrite lookup_insert_ne by done. intros ?%Hkey. by left.
Qed.

Lemma insert_chunks_synced cs db :
  NoDup (chunk_id <$> chunk_tbl db ++ cs) →
  fts_synced db → fts_synced (foldl (λ d c, insert_chunk c d) db cs).
Proof.
  revert db. induction cs as [|c cs IH]; intros db Hnd Hs; [done|].
  simpl. apply IH.
  - simpl. by rewrite <- app_assoc.
  - apply insert_chunk_synced; [|done].
    rewrite fmap_app in Hnd. apply NoDup_app in Hnd as (_ & Hdis & _).
    intros Hin. apply (Hdis _ Hin). left.
Qed.

(** ** The footprint of an ingestion *)

Lemma chunk_id_old db c :
  c ∈ chunk_tbl db → chunk_id c < next_rowid (chunk_id <$> chunk_tbl db).
Proof.
  intros Hc. apply next_rowid_fresh, list_elem_of_fmap. eauto.
Qed.

Lemma item_id_old db i :
  i ∈ item_tbl db → item_id i < next_rowid (item_id <$> item_tbl db).
Proof.
  intros Hi. apply next_rowid_fresh, list_elem_of_fmap. eauto.
Qed.

Lemma vec_insert_all_lookup rows dim (m m' : gmap nat embedding) k :
  vec_insert_all rows dim m = Some m' → k ∉ rows.*1 → m' !! k = m !! k.
Proof.
  revert m. induction rows as [|[cid e] rows IH]; intros m; simpl.
  - by intros [= <-].
  - unfold vec_insert. destruct (decide (length e = dim)); [|done].
    destruct (m !! cid) eqn:Hm; [done|].
    intros Hrest [Hne Hk]%not_elem_of_cons.
    rewrite (IH _ Hrest Hk), lookup_insert_ne; done.
Qed.

Section Footprint.
Context `{Collaborators}.

Lemma embed_insert_lookup texts records db k :
  k ∉ records →
  chunk_embeddings (embed_chunks vec_insert_all texts records db).1 !! k
  = chunk_embeddings db !! k.
Proof.
  intros Hk. unfold embed_chunks. destruct texts; [done|].
  destruct (get_embeddings_sync _) as [embeddings|]; [|done].
  destruct (vec_insert_all _ _ _) as [m|] eqn:E; [|done]. simpl.
  apply (vec_insert_all_lookup _ _ _ _ _ E).
  intros [[a b] [-> Hab]]%list_elem_of_fmap. apply Hk.
  by apply elem_of_zip_l in Hab.
Qed.

Lemma doomed_footprint item_pk chunks db k :
  k ∈ doomed_ids item_pk chunks db → k ∈ chunk_id <$> item_chunks item_pk db.
Proof.
  unfold doomed_ids. intros (c & -> & Hc)%list_elem_of_fmap.
  apply list_elem_of_filter in Hc as [_ Hc].
  apply list_elem_of_fmap. eauto.
Qed.

(** *** The merge path *)

Section Merge.
Variables (now : Z) (existing : Item) (r : IngestionRecord) (db : DB).

Local Abbreviation chunks := (default [] (r_chunks r)).
Local Abbreviation loaded := (item_chunks (item_id existing) db).
Local Abbreviation db' := (merge_path now existing r db).1.

Lemma recorded_footprint k :
  k ∈ recorded (existing_keys_of loaded)
        (next_rowid (chunk_id <$> chunk_tbl db)) chunks →
  k ∈ chunk_id <$> loaded ∨ next_rowid (chunk_id <$> chunk_tbl db) ≤ k.
Proof.
  intros [(d & _ & Ht)|Hk]%recorded_elem; [left|by right].
  apply target_Some in Ht as (key & _ & _ & Hek).
  apply existing_keys_of_Some in Hek as (_ & c & Hc & <- & _).
  apply list_elem_of_fmap. eauto.
Qed.

(** The two side indexes keep their rows for every chunk that is neither
    a chunk of the item nor new. *)
Lemma merge_path_indexes k :
  k ∉ chunk_id <$> loaded →
  k < next_rowid (chunk_id <$> chunk_tbl db) →
  chunk_embeddings db' !! k = chunk_embeddings db !! k ∧
  chunks_fts db' !! k = chunks_fts db !! k.
Proof.
  intros Hk Hold.
  assert (Hkd : k ∉ doomed_ids (item_id existing) chunks db).
  { intros Hin. apply Hk. by apply (doomed_footprint _ chunks). }
  destruct (merge_path_cases now existing r db)
    as [[Hq [rows Hrows]]|(_ & _ & _ & _ & Hf & _ & _ & He)].
  - destruct (merge_path_flushed now existing r db rows Hq Hrows)
      as (_ & _ & _ & _ & He & _ & _ & _ & _ & _ & Hf).
    split.
    + rewrite He; [by rewrite decide_False|].
      intros [?|?]%recorded_footprint; [done|lia].
    + rewrite Hf, insert_chunks_fts_other; [done|].
      rewrite created_ids. intros ?%elem_of_seq. lia.
  - split; [|by rewrite Hf]. rewrite He. by rewrite decide_False.
Qed.

(** The keyword index stays the mirror of the chunk table. *)
Lemma merge_path_synced :
  NoDup (chunk_id <$> chunk_tbl db) → fts_synced db → fts_synced db'.
Proof.
  intros Hnd Hs.
  destruct (merge_path_cases now existing r db)
    as [[Hq [rows Hrows]]|(_ & _ & Hc & _ & Hf & _)].
  2: { by apply (fts_synced_ext db). }
  destruct (merge_path_flushed now existing r db rows Hq Hrows)
    as (_ & _ & _ & _ & _ & _ & Hc & _ & _ & _ & Hf).
  set (db0 := with_items _ db) in Hf.
  eapply (fts_synced_ext (foldl (λ d c, insert_chunk c d) db0 _)).
  - rewrite Hc, insert_chunks_chunks. done.
  - exact Hf.
  - apply insert_chunks_synced.
    + subst db0. cbn [with_items chunk_tbl]. rewrite fmap_app, created_ids.
      by apply NoDup_ids_app_seq.
    + by apply (fts_synced_ext db).
Qed.

End Merge.
End Footprint.

Lemma untouched_refl other db : untouched other db db.
Proof. split; [done|]. intros; done. Qed.

Lemma untouched_trans other db db1 db2 :
  untouched other db db1 → untouched other db1 db2 → untouched other db db2.
Proof.
  intros [Hs1 Hr1] [Hs2 Hr2]. split; [congruence|].
  intros o Ho. destruct (Hr1 o Ho) as (Hc1 & Ht1 & Hk1).
  destruct (Hr2 o) as (Hc2 & Ht2 & Hk2); [congruence|].
  split; [congruence|]. split; [congruence|].
  intros c Hc. destruct (Hk1 c Hc) as [<- <-]. apply Hk2. by rewrite Hc1.
Qed.

(** An UPDATE of one item row leaves the row of every other source. *)
Lemma select_item_updated_other other existing item' db db' :
  NoDup (item_id <$> item_tbl db) → existing ∈ item_tbl db →
  item_source_uri existing ≠ other → item_source_uri item' ≠ other →
  item_tbl db' = (λ i, if decide (item_id i = item_id existing)
                       then item' else i) <$> item_tbl db →
  select_item other db' = select_item other db.
Proof.
  intros Hnd Hin He Hi' Htbl. unfold select_item. rewrite Htbl.
  rewrite filter_fmap_pre. f_equal.
  transitivity (id <$> filter (λ i, item_source_uri i = other) (item_tbl db));
    [|by rewrite list_fmap_id].
  assert (Hsame : ∀ i, i ∈ item_tbl db → item_id i = item_id existing →
                       i = existing).
  { intros i Hi Hid. by apply (NoDup_item_id_inj (item_tbl db)). }
  erewrite (filter_ext_in _ (λ i, item_source_uri i = other)).
  - apply list_fmap_ext. intros _ i [Hu Hi]%list_elem_of_lookup_2%list_elem_of_filter.
    destruct (decide _) as [Hid|]; [|done].
    apply Hsame in Hid; [|done]. congruence.
  - intros i Hi. destruct (decide _) as [Hid|]; [|done].
    apply Hsame in Hid; [|done]. subst i. tauto.
Qed.

Section OtherRows.
Context `{Collaborators}.

Lemma merged_chunk_tbl_other item_pk chunks db o :
  NoDup (chunk_id <$> chunk_tbl db) → o ≠ item_pk →
  filter (λ c, chunk_item_id c = o) (merged_chunk_tbl item_pk chunks db)
  = item_chunks o db.
Proof.
  intros Hnd Hne. unfold merged_chunk_tbl.
  rewrite list_filter_filter, filter_app.
  rewrite (filter_none _ (created _ _ _ _ _)).
  2: { intros c Hc [Hpk _]. apply created_item_id in Hc. congruence. }
  rewrite app_nil_r, filter_fmap_pre. unfold item_chunks at 3.
  transitivity (id <$> filter (λ c, chunk_item_id c = o) (chunk_tbl db));
    [|by rewrite list_fmap_id].
  assert (Hout : ∀ c, c ∈ chunk_tbl db → chunk_item_id c = o →
                      c ∉ item_chunks item_pk db).
  { intros c _ Hpk [Hpk' _]%list_elem_of_filter. congruence. }
  erewrite (filter_ext_in _ (λ c, chunk_item_id c = o)).
  - apply list_fmap_ext.
    intros _ c [Hpk Hc]%list_elem_of_lookup_2%list_elem_of_filter.
    rewrite decide_False; [done|]. by apply Hout.
  - intros c Hc. destruct (decide (c ∈ item_chunks item_pk db)) as [Hin|Hin].
    + rewrite merged_item_id.
      apply list_elem_of_filter in Hin as [Hpk _]. split; [|congruence].
      intros [? _]. congruence.
    + split; [tauto|]. intros Hpk. split; [done|].
      intros Hd%doomed_footprint. revert Hd.
      apply other_chunk_id; [done|done|congruence].
Qed.

Lemma merge_path_untouched now existing r db other :
  wf_db db → existing ∈ item_tbl db →
  item_source_uri existing ≠ other →
  untouched other db (merge_path now existing r db).1.
Proof.
  intros Hwf Hin Hne.
  assert (Hidx : ∀ o, select_item other db = Some o →
             item_id o ≠ item_id existing ∧
             ∀ c, c ∈ item_chunks (item_id o) db →
               chunk_embeddings (merge_path now existing r db).1 !! chunk_id c
               = chunk_embeddings db !! chunk_id c ∧
               chunks_fts (merge_path now existing r db).1 !! chunk_id c
               = chunks_fts db !! chunk_id c).
  { intros o [Ho Hu]%select_item_Some.
    assert (Hid : item_id o ≠ item_id existing).
    { intros Hid.
      assert (o = existing)
        by (by apply (NoDup_item_id_inj (item_tbl db)); [apply Hwf|..]).
      congruence. }
    split; [done|]. intros c [Hpk Hc]%list_elem_of_filter.
    apply merge_path_indexes.
    - apply other_chunk_id; [apply Hwf|done|congruence].
    - by apply chunk_id_old. }
  destruct (merge_path_cases now existing r db)
    as [[Hq [tag_rows Htags]]|(_ & Hi & Hc & Ht & _)].
  - destruct (merge_path_flushed now existing r db tag_rows Hq Htags)
      as (Hi & Ht & Hc & _).
    specialize (Hc (wf_chunk_ids _ Hwf)).
    apply insert_tags_Some in Htags as ->.
    split.
    + eapply select_item_updated_other; [apply Hwf|exact Hin|exact Hne| |exact Hi].
      done.
    + intros o Ho. destruct (Hidx o Ho) as [Hid Hk].
      split; [|split; [|done]].
      * unfold item_chunks at 1. rewrite Hc.
        apply merged_chunk_tbl_other; [apply Hwf|done].
      * unfold item_tags at 1. rewrite Ht, filter_app, list_filter_filter.
        rewrite (filter_none _ (_ <$> _)).
        2: { intros t (x & -> & _)%list_elem_of_fmap. simpl. congruence. }
        rewrite app_nil_r. apply filter_ext_in. intros t _.
        split; [tauto|]. intros Hpk. split; [done|]. congruence.
  - split; [by apply select_item_ext|].
    intros o Ho. destruct (Hidx o Ho) as [Hid Hk].
    split; [by apply item_chunks_ext|]. split; [by apply item_tags_ext|done].
Qed.

Lemma insert_path_untouched now r db other :
  wf_db db → r_source_uri r ≠ other →
  untouched other db (insert_path now r db).1.
Proof.
  intros Hwf Hne.
  destruct (insert_tags (mkTag (next_rowid (item_id <$> item_tbl db))
                           <$> default [] (r_tags r)) (tag_tbl db))
    as [tag_rows|] eqn:Htags.
  2: { unfold insert_path. cbn [with_items chunk_tbl item_tbl item_id].
       rewrite insert_chunks_tags. cbn [with_items tag_tbl].
       rewrite Htags. apply untouched_refl. }
  destruct (insert_path_flushed now r db tag_rows Htags)
    as (Hi & Hc & Ht & _).
  apply insert_tags_Some in Htags as ->.
  split.
  - unfold select_item. rewrite Hi, filter_app.
    rewrite (filter_none _ [_]), app_nil_r; [done|].
    intros i ->%list_elem_of_singleton. done.
  - intros o [Ho Hu]%select_item_Some.
    assert (Hid : item_id o ≠ next_rowid (item_id <$> item_tbl db)).
    { apply item_id_old in Ho. lia. }
    split; [|split].
    + unfold item_chunks at 1. rewrite Hc, filter_app.
      rewrite (filter_none _ (inserted_chunks r db)), app_nil_r; [done|].
      intros c Hc'. unfold inserted_chunks in Hc'.
      apply list_elem_of_lookup in Hc' as [j Hj].
      rewrite list_lookup_imap in Hj.
      destruct (default [] (r_chunks r) !! j); [|done].
      injection Hj as <-. simpl. congruence.
    + unfold item_tags at 1. rewrite Ht, filter_app.
      rewrite (filter_none _ (_ <$> _)), app_nil_r; [done|].
      intros t (x & -> & _)%list_elem_of_fmap. simpl. congruence.
    + intros c [Hpk Hc']%list_elem_of_filter.
      assert (Hk : chunk_id c ∉ chunk_id <$> inserted_chunks r db).
      { rewrite inserted_chunks_ids. intros ?%elem_of_seq.
        apply chunk_id_old in Hc'. lia. }
      unfold insert_path. cbn [with_items chunk_tbl item_tbl item_id].
      rewrite insert_chunks_tags. cbn [with_items tag_tbl].
      fold (inserted_chunks r db).
      destruct (insert_tags _ _) as [rows|]; [|done].
      rewrite finish_fst.
      set (db3 := with_tags _ _).
      destruct (embed_chunks_frame vec_insert_all
                  (cd_text <$> default [] (r_chunks r))
                  (chunk_id <$> inserted_chunks r db) db3)
        as (_ & _ & _ & -> & _).
      split.
      * rewrite embed_insert_lookup by done. subst db3.
        cbn [with_tags chunk_embeddings].
        by rewrite insert_chunks_embeddings.
      * subst db3. cbn [with_tags chunks_fts].
        by rewrite insert_chunks_fts_other.
Qed.

Lemma add_item_untouched now r db other :
  wf_db db → r_source_uri r ≠ other →
  untouched other db (add_item now r db).1.
Proof.
  intros Hwf Hne. unfold add_item.
  destruct (select_item (r_source_uri r) db) as [existing|] eqn:Hsel.
  - destruct (r_replace r) eqn:Hrep.
    + pose proof (add_item_replace now r db existing Hsel Hrep) as Heq.
      unfold add_item in Heq. rewrite Hsel, Hrep in Heq. rewrite Heq.
      assert (untouched other db (delete_item (r_source_uri r) db).1) as Hdel
        by (apply delete_item_frame; [done|congruence]).
      destruct ((delete_item (r_source_uri r) db).2); [|done].
      apply (untouched_trans _ _ (delete_item (r_source_uri r) db).1);
        [done|].
      apply insert_path_untouched; [|done]. by apply delete_item_wf.
    + apply select_item_Some in Hsel as [Hin Hu].
      apply merge_path_untouched; [done|done|congruence].
  - by apply insert_path_untouched.
Qed.

End OtherRows.

(** ** Invariants the writers keep *)

Lemma delete_item_synced source_uri db :
  fts_synced db → fts_synced (delete_item source_uri db).1.
Proof.
  intros Hs.
  destruct (select_item source_uri db) as [item|] eqn:Hsel.
  2: { by rewrite delete_item_absent_eq. }
  destruct (delete_item_cases _ _ _ Hsel)
    as [(_ & _ & _ & Hc & _ & _ & Hf & _)|(_ & _ & _ & Hc & _ & Hf & _)];
    by apply (fts_synced_ext db).
Qed.

(** Once [delete_item] has returned, no item carries the source_uri. *)
Lemma delete_item_gone source_uri db b :
  uri_unique db →
  (delete_item source_uri db).2 = Returned b →
  select_item source_uri (delete_item source_uri db).1 = None.
Proof.
  intros Hu Hret.
  destruct (select_item source_uri db) as [item|] eqn:Hsel.
  2: { by rewrite delete_item_absent_eq. }
  destruct (delete_item_cases _ _ _ Hsel)
    as [(_ & _ & Hi & _)|(_ & Hr & _)]; [|congruence].
  apply select_item_Some in Hsel as [Hin Huri].
  apply select_item_None. intros i. rewrite Hi.
  intros [Hid Hi']%list_elem_of_filter Hu'. apply Hid.
  f_equal. apply (NoDup_source_uri_inj (item_tbl db)); [done..|congruence].
Qed.

Lemma delete_item_uri_unique source_uri db :
  uri_unique db → uri_unique (delete_item source_uri db).1.
Proof.
  intros Hu.
  destruct (select_item source_uri db) as [item|] eqn:Hsel.
  2: { by rewrite delete_item_absent_eq. }
  unfold uri_unique.
  destruct (delete_item_cases _ _ _ Hsel)
    as [(_ & _ & Hi & _)|(_ & _ & Hi & _)]; rewrite Hi; [|done].
  by apply NoDup_fmap_filter.
Qed.

Lemma delete_item_dim source_uri db :
  vec_dim (delete_item source_uri db).1 = vec_dim db.
Proof.
  destruct (select_item source_uri db) as [item|] eqn:Hsel.
  2: { by rewrite delete_item_absent_eq. }
  by destruct (delete_item_cases _ _ _ Hsel)
    as [(_ & _ & _ & _ & _ & _ & _ & ? & _)|(_ & _ & _ & _ & _ & _ & ? & _)].
Qed.

Section Keep.
Context `{Collaborators}.

Lemma insert_path_synced now r db :
  NoDup (chunk_id <$> chunk_tbl db) →
  fts_synced db → fts_synced (insert_path now r db).1.
Proof.
  intros Hnd Hs. unfold insert_path.
  cbn [with_items chunk_tbl item_tbl item_id].
  rewrite insert_chunks_tags. cbn [with_items tag_tbl].
  fold (inserted_chunks r db).
  destruct (insert_tags _ _) as [rows|]; [|done].
  rewrite finish_fst.
  set (db3 := with_tags _ _).
  destruct (embed_chunks_frame vec_insert_all
              (cd_text <$> default [] (r_chunks r))
              (chunk_id <$> inserted_chunks r db) db3)
    as (_ & Hc & _ & Hf & _).
  apply (fts_synced_ext db3); [done|done|]. subst db3.
  set (db2 := foldl _ _ _).
  apply (fts_synced_ext db2); [done|done|]. subst db2.
  apply insert_chunks_synced.
  - cbn [with_items chunk_tbl]. rewrite fmap_app, inserted_chunks_ids.
    by apply NoDup_ids_app_seq.
  - by apply (fts_synced_ext db).
Qed.

Lemma add_item_synced now r db :
  wf_db db → fts_synced db → fts_synced (add_item now r db).1.
Proof.
  intros Hwf Hs. unfold add_item.
  destruct (select_item (r_source_uri r) db) as [existing|] eqn:Hsel.
  - destruct (r_replace r) eqn:Hrep.
    + pose proof (add_item_replace now r db existing Hsel Hrep) as Heq.
      unfold add_item in Heq. rewrite Hsel, Hrep in Heq. rewrite Heq.
      destruct ((delete_item (r_source_uri r) db).2).
      * apply insert_path_synced.
        -- by apply delete_item_wf.
        -- by apply delete_item_synced.
      * by apply delete_item_synced.
    + apply merge_path_synced; [apply Hwf|done].
  - apply insert_path_synced; [apply Hwf|done].
Qed.

Lemma insert_path_uri_unique now r db :
  select_item (r_source_uri r) db = None →
  uri_unique db → uri_unique (insert_path now r db).1.
Proof.
  intros Hsel Hu.
  destruct (insert_tags (mkTag (next_rowid (item_id <$> item_tbl db))
                           <$> default [] (r_tags r)) (tag_tbl db))
    as [tag_rows|] eqn:Htags.
  2: { unfold insert_path. cbn [with_items chunk_tbl item_tbl item_id].
       rewrite insert_chunks_tags. cbn [with_items tag_tbl].
       by rewrite Htags. }
  destruct (insert_path_flushed now r db tag_rows Htags) as (Hi & _).
  unfold uri_unique. rewrite Hi, fmap_app. apply NoDup_app.
  split; [done|]. split; [|apply NoDup_singleton].
  intros u (i & -> & Hi')%list_elem_of_fmap Hin.
  apply list_elem_of_singleton in Hin. simpl in Hin.
  rewrite select_item_None in Hsel. by apply (Hsel i).
Qed.

Lemma merge_path_uris now existing r db :
  NoDup (item_id <$> item_tbl db) → existing ∈ item_tbl db →
  item_source_uri <$> item_tbl (merge_path now existing r db).1
  = item_source_uri <$> item_tbl db.
Proof.
  intros Hnd Hin.
  destruct (merge_path_cases now existing r db)
    as [[Hq [tag_rows Htags]]|(_ & -> & _)]; [|done].
  destruct (merge_path_flushed now existing r db tag_rows Hq Htags) as (-> & _).
  rewrite <- list_fmap_compose. apply list_fmap_ext.
  intros _ i Hi%list_elem_of_lookup_2. simpl.
  destruct (decide _) as [Hid|]; [|done]. simpl.
  f_equal. symmetry. by apply (NoDup_item_id_inj (item_tbl db)).
Qed.

Lemma add_item_uri_unique now r db :
  wf_db db → uri_unique db → uri_unique (add_item now r db).1.
Proof.
  intros Hwf Hu. unfold add_item.
  destruct (select_item (r_source_uri r) db) as [existing|] eqn:Hsel.
  - destruct (r_replace r) eqn:Hrep.
    + pose proof (add_item_replace now r db existing Hsel Hrep) as Heq.
      unfold add_item in Heq. rewrite Hsel, Hrep in Heq. rewrite Heq.
      destruct ((delete_item (r_source_uri r) db).2) as [b|e] eqn:Hdel.
      * apply insert_path_uri_unique.
        -- by eapply delete_item_gone.
        -- by apply delete_item_uri_unique.
      * by apply delete_item_uri_unique.
    + unfold uri_unique. rewrite merge_path_uris; [done|apply Hwf|].
      by apply select_item_Some in Hsel as [? _].
  - by apply insert_path_uri_unique.
Qed.

End Keep.

(** ** What a call that returns hands out *)

Section Views.
Context `{Collaborators}.

Lemma merge_path_returned now existing r db v :
  (merge_path now existing r db).2 = Returned v →
  v = load_view (set_metadata now r existing) (merge_path now existing r db).1 ∧
  quiet (item_id existing) (default [] (r_chunks r)) db ∧
  is_Some (insert_tags (mkTag (item_id existing) <$> default [] (r_tags r))
             (filter (λ t, tag_item_id t ≠ item_id existing) (tag_tbl db))).
Proof.
  intros Hret.
  destruct (merge_path_returns_inv _ _ _ _ _ Hret) as [Hq [tag_rows Htags]].
  split; [|split; [done|eauto]].
  destruct (merge_path_embed_step now existing r db tag_rows Hq Htags)
    as (db6 & Heq & _).
  rewrite Heq in Hret |- *.
  destruct (embed_chunks _ _ _ _) as [db7 [[]|e]]; [|done].
  simpl in *. by injection Hret as <-.
Qed.

Lemma insert_path_returned now r db v :
  (insert_path now r db).2 = Returned v →
  v = load_view (inserted_item now r db) (insert_path now r db).1 ∧
  is_Some (insert_tags (mkTag (next_rowid (item_id <$> item_tbl db))
                          <$> default [] (r_tags r)) (tag_tbl db)).
Proof.
  unfold insert_path. cbn [with_items chunk_tbl item_tbl item_id].
  fold (inserted_item now r db).
  rewrite insert_chunks_tags. cbn [with_items tag_tbl].
  destruct (insert_tags _ _) as [tag_rows|]; [|done].
  destruct (embed_chunks _ _ _ _) as [db4 [[]|e]]; [|done].
  simpl. intros [= <-]. split; [done|eauto].
Qed.

Lemma insert_path_get now r db v :
  select_item (r_source_uri r) db = None →
  (insert_path now r db).2 = Returned v →
  get_item (r_source_uri r) (insert_path now r db).1 = Some v.
Proof.
  intros Hsel Hret. apply insert_path_returned in Hret as [-> [tag_rows Htags]].
  destruct (insert_path_flushed now r db tag_rows Htags) as (Hi & _).
  unfold get_item.
  by rewrite (select_item_appended _ (inserted_item now r db) db _ Hsel eq_refl Hi).
Qed.

Lemma add_item_get now r db v :
  uri_unique db →
  (add_item now r db).2 = Returned v →
  get_item (r_source_uri r) (add_item now r db).1 = Some v.
Proof.
  intros Hu. unfold add_item.
  destruct (select_item (r_source_uri r) db) as [existing|] eqn:Hsel.
  - destruct (r_replace r) eqn:Hrep.
    + pose proof (add_item_replace now r db existing Hsel Hrep) as Heq.
      unfold add_item in Heq. rewrite Hsel, Hrep in Heq. rewrite Heq.
      destruct ((delete_item (r_source_uri r) db).2) as [b|e] eqn:Hdel;
        [|done].
      apply insert_path_get. by eapply delete_item_gone.
    + intros Hret.
      apply merge_path_returned in Hret as (-> & Hq & [tag_rows Htags]).
      destruct (merge_path_flushed now existing r db tag_rows Hq Htags)
        as (Hi & _).
      unfold get_item.
      erewrite select_item_updated; [done|exact Hsel| |exact Hi].
      by apply select_item_Some in Hsel as [_ ?].
  - by apply insert_path_get.
Qed.

End Views.

(** The rows the insert path writes, column by column. *)
Section InsertedColumns.
Context `{Collaborators}.

Lemma created_empty_columns item_pk n k l :
  chunk_text <$> created ∅ item_pk n k l = cd_text <$> l ∧
  chunk_key <$> created ∅ item_pk n k l = cd_key <$> l ∧
  chunk_index <$> created ∅ item_pk n k l = seq k (length l) ∧
  chunk_meta <$> created ∅ item_pk n k l = dump_meta ∘ cd_meta <$> l.
Proof.
  revert n k. induction l as [|d l IH]; intros n k; [done|].
  cbn [created]. rewrite target_empty.
  destruct (IH (S n) (S k)) as (Ht & Hk & Hi & Hm).
  cbn [fmap list_fmap length seq]. cbn [fmap] in Ht, Hk, Hi, Hm.
  rewrite Ht, Hk, Hi, Hm. done.
Qed.

Lemma inserted_chunks_columns r db :
  chunk_text <$> inserted_chunks r db = cd_text <$> default [] (r_chunks r) ∧
  chunk_key <$> inserted_chunks r db = cd_key <$> default [] (r_chunks r) ∧
  chunk_index <$> inserted_chunks r db
  = seq 0 (length (default [] (r_chunks r))) ∧
  chunk_meta <$> inserted_chunks r db
  = dump_meta ∘ cd_meta <$> default [] (r_chunks r).
Proof. rewrite inserted_chunks_created. apply created_empty_columns. Qed.

End InsertedColumns.

(** ** The embedding step, seen from the two paths *)

Section EmbedStep.
Context `{Collaborators}.

Lemma embed_chunks_down write texts records db e :
  texts ≠ [] → get_embeddings_sync texts = Raised e →
  embed_chunks write texts records db = (db, Raised e).
Proof.
  intros Hne Hdown. unfold embed_chunks. destruct texts; [done|].
  by rewrite Hdown.
Qed.

(** The insert path, once the tag rows are flushed: nothing was written to
    the vector table when the embedding step starts. *)
Lemma insert_path_embed_step now r db tag_rows :
  insert_tags (mkTag (next_rowid (item_id <$> item_tbl db))
                 <$> default [] (r_tags r)) (tag_tbl db)
  = Some tag_rows →
  ∃ db3,
    insert_path now r db
    = match embed_chunks vec_insert_all (cd_text <$> default [] (r_chunks r))
              (chunk_id <$> inserted_chunks r db) db3 with
      | (db4, Raised e) => (db4, Raised e)
      | (db4, Returned _) =>
          (db4, Returned (load_view (inserted_item now r db) db4))
      end ∧
    vec_dim db3 = vec_dim db ∧
    chunk_embeddings db3 = chunk_embeddings db.
Proof.
  intros Htags. unfold insert_path.
  cbn [with_items chunk_tbl item_tbl item_id].
  fold (inserted_item now r db). fold (inserted_chunks r db).
  rewrite insert_chunks_tags. cbn [with_items tag_tbl]. rewrite Htags.
  eexists. split; [reflexivity|].
  cbn [with_tags vec_dim chunk_embeddings].
  by rewrite insert_chunks_dim, insert_chunks_embeddings.
Qed.

End EmbedStep.

(** ** A single chunk without a key, merged into an item *)

Section Keyless.
Context `{Collaborators}.

Lemma new_chunk_keys_of_keyless text meta :
  new_chunk_keys_of [mkChunkData text None meta] = ∅.
Proof. reflexivity. Qed.

Lemma stale_empty c : stale ∅ c = truthy (chunk_key c).
Proof.
  unfold stale. rewrite bool_decide_eq_true_2; [by rewrite andb_true_r|].
  apply not_elem_of_empty.
Qed.

Lemma item_chunks_merged_keyless item_pk text db db' :
  NoDup (chunk_id <$> chunk_tbl db) →
  chunk_tbl db' = merged_chunk_tbl item_pk [mkChunkData text None None] db →
  item_chunks item_pk db'
  = filter (λ c, truthy (chunk_key c) = false) (item_chunks item_pk db)
    ++ [mkChunk (next_rowid (chunk_id <$> chunk_tbl db)) item_pk None 0
          text None].
Proof.
  intros Hnd Htbl. rewrite (item_chunks_merged _ _ _ _ Hnd Htbl).
  f_equal.
  erewrite (list_fmap_ext _ id); [|by intros].
  rewrite list_fmap_id. apply filter_ext_in. intros c _.
  by rewrite new_chunk_keys_of_keyless, stale_empty.
Qed.

End Keyless.

(** ** Counting by source type *)

Lemma sum_list_perm (l k : list nat) : l ≡ₚ k → sum_list l = sum_list k.
Proof. induction 1; simpl; lia. Qed.

Lemma sum_list_snoc (l : list nat) n : sum_list (l ++ [n]) = sum_list l + n.
Proof. induction l; simpl; lia. Qed.

Lemma sum_list_cons (n : nat) l : sum_list (n :: l) = n + sum_list l.
Proof. done. Qed.

Lemma dict_sum_insert (m : gmap string nat) k n :
  dict_sum (<[k := n]> m) + default 0 (m !! k) = dict_sum m + n.
Proof.
  unfold dict_sum.
  destruct (m !! k) as [old|] eqn:Hk; simpl.
  - rewrite <- (insert_delete_eq m k n).
    rewrite map_fold_insert_L; [|intros; lia|apply lookup_delete_eq].
    rewrite (map_fold_delete_L _ _ k old m); [lia|intros; lia|done].
  - rewrite map_fold_insert_L; [lia|intros; lia|done].
Qed.

Lemma or_unknown_named st k :
  k ≠ "unknown" → or_unknown st = k ↔ st = Some k ∧ k ≠ "".
Proof.
  intros Hk. unfold or_unknown. destruct st as [s|]; simpl.
  - destruct (bool_decide (s = "")) eqn:E; simpl.
    + apply bool_decide_eq_true in E as ->. split; [congruence|].
      intros [[= <-] ?]. done.
    + apply bool_decide_eq_false in E. split; [by intros ->|].
      by intros [[= ->] _].
  - split; [congruence|]. by intros [? _].
Qed.

Lemma or_unknown_class st :
  or_unknown st = "unknown" ↔ st ∈ [None; Some ""; Some "unknown"].
Proof.
  rewrite !elem_of_cons, elem_of_nil.
  unfold or_unknown. destruct st as [s|]; simpl.
  - destruct (bool_decide (s = "")) eqn:E; simpl.
    + apply bool_decide_eq_true in E as ->. tauto.
    + apply bool_decide_eq_false in E. split.
      * intros ->. tauto.
      * intros [?|[[= ?]|[[= ?]|[]]]]; congruence.
  - tauto.
Qed.

Section Tally.
Variable cnt : option string → nat.

Local Abbreviation tally :=
  (foldl (λ (m : gmap string nat) st, <[or_unknown st := cnt st]> m) ∅).

Lemma tally_named ks k :
  k ≠ "" → k ≠ "unknown" →
  tally ks !! k = if decide (Some k ∈ ks) then Some (cnt (Some k)) else None.
Proof.
  intros Hne Hk. induction ks as [|st ks IH] using rev_ind.
  - rewrite decide_False by apply not_elem_of_nil. apply lookup_empty.
  - rewrite foldl_app. cbn [foldl].
    destruct (decide (or_unknown st = k)) as [Heq|Hneq].
    + pose proof Heq as Heq'.
      apply or_unknown_named in Heq' as [-> _]; [|done].
      rewrite Heq, lookup_insert_eq.
      rewrite decide_True; [done|]. apply elem_of_app. right. left.
    + rewrite lookup_insert_ne, IH by done.
      assert (st ≠ Some k).
      { intros ->. apply Hneq. by apply or_unknown_named. }
      destruct (decide (Some k ∈ ks)) as [Hin|Hin].
      * rewrite decide_True; [done|]. apply elem_of_app. by left.
      * rewrite decide_False; [done|].
        rewrite elem_of_app, list_elem_of_singleton. intros [?|?]; congruence.
Qed.

Lemma tally_unknown ks :
  tally ks !! "unknown"
  = cnt <$> last (filter (λ st, or_unknown st = "unknown") ks).
Proof.
  induction ks as [|st ks IH] using rev_ind; [apply lookup_empty|].
  rewrite foldl_app, filter_app. simpl.
  destruct (decide (or_unknown st = "unknown")) as [Heq|Hneq].
  - rewrite filter_cons_True, filter_nil by done.
    by rewrite last_snoc, Heq, lookup_insert_eq.
  - rewrite filter_cons_False, filter_nil, app_nil_r by done.
    by rewrite lookup_insert_ne.
Qed.

Lemma tally_sum ks :
  NoDup ks →
  dict_sum (tally ks)
  + sum_list (cnt <$> filter (λ st, or_unknown st = "unknown") ks)
  = sum_list (cnt <$> ks) + default 0 (tally ks !! "unknown").
Proof.
  induction ks as [|st ks IH] using rev_ind; intros Hnd.
  - simpl. unfold dict_sum. by rewrite map_fold_empty, lookup_empty.
  - apply NoDup_app in Hnd as (Hnd & Hdis & _). specialize (IH Hnd).
    rewrite foldl_app, filter_app, (fmap_app cnt ks [st]).
    cbn [fmap list_fmap]. rewrite sum_list_snoc. cbn [foldl].
    pose proof (dict_sum_insert (tally ks) (or_unknown st) (cnt st)) as Hins.
    destruct (decide (or_unknown st = "unknown")) as [Heq|Hneq].
    + rewrite filter_cons_True, filter_nil by done.
      rewrite fmap_app. cbn [fmap list_fmap]. rewrite sum_list_snoc.
      rewrite Heq in Hins |- *. rewrite lookup_insert_eq. simpl. lia.
    + rewrite filter_cons_False, filter_nil, app_nil_r by done.
      rewrite lookup_insert_ne by done.
      assert (tally ks !! or_unknown st = None) as Hfresh.
      { destruct (or_unknown_named st (or_unknown st) Hneq) as [Hst _].
        destruct (Hst eq_refl) as [Hsome Hne].
        rewrite tally_named by done. rewrite decide_False; [done|].
        rewrite <- Hsome. intros Hin. apply (Hdis _ Hin). left. }
      rewrite Hfresh in Hins. simpl in Hins. lia.
Qed.

End Tally.

(** Rows counted group by group are rows counted. *)
Lemma length_filter_groups {A B} `{EqDecision B} (f : A → B) (ks : list B)
    (l : list A) :
  NoDup ks →
  sum_list ((λ k, length (filter (λ x, f x = k) l)) <$> ks)
  = length (filter (λ x, f x ∈ ks) l).
Proof.
  intros Hnd. induction l as [|x l IH].
  - rewrite filter_nil. clear Hnd. induction ks as [|k ks IHk]; [done|].
    rewrite fmap_cons, sum_list_cons, IHk. done.
  - assert (sum_list ((λ k, length (filter (λ y, f y = k) (x :: l))) <$> ks)
            = sum_list ((λ k, length (filter (λ y, f y = k) l)) <$> ks)
              + (if decide (f x ∈ ks) then 1 else 0)) as ->.
    { clear IH. induction ks as [|k ks IHk].
      - rewrite decide_False by apply not_elem_of_nil. done.
      - apply NoDup_cons in Hnd as [Hk Hnd].
        rewrite !fmap_cons, !sum_list_cons, (IHk Hnd), filter_cons.
        destruct (decide (f x = k)) as [->|Hne].
        + rewrite (decide_True (P := k ∈ k :: ks)) by left.
          rewrite (decide_False (P := k ∈ ks)) by done. simpl. lia.
        + destruct (decide (f x ∈ ks)) as [Hin|Hin].
          * rewrite decide_True by (by right). lia.
          * rewrite decide_False; [lia|]. rewrite elem_of_cons.
            intros [?|?]; congruence. }
    rewrite IH, filter_cons. destruct (decide (f x ∈ ks)); simpl; lia.
Qed.

Section StatsFacts.
Variable group_order : list (option string) → list (option string).
Hypothesis group_order_perm : ∀ l, group_order l ≡ₚ l.
Variable db : DB.

Local Abbreviation groups :=
  (group_order (remove_dups (item_source_type <$> item_tbl db))).

Lemma groups_NoDup : NoDup groups.
Proof. rewrite group_order_perm. apply NoDup_remove_dups. Qed.

Lemma elem_of_groups st : st ∈ groups ↔ items_typed st db ≠ 0.
Proof.
  rewrite group_order_perm, elem_of_remove_dups, list_elem_of_fmap.
  unfold items_typed. split.
  - intros (i & -> & Hi) Hlen. apply length_zero_iff_nil in Hlen.
    assert (i ∈ filter (λ j, item_source_type j = item_source_type i)
                   (item_tbl db)) as Hin by (by apply list_elem_of_filter).
    rewrite Hlen in Hin. by apply elem_of_nil in Hin.
  - intros Hlen.
    destruct (filter (λ i, item_source_type i = st) (item_tbl db))
      as [|i l] eqn:E; [done|].
    assert (i ∈ filter (λ i, item_source_type i = st) (item_tbl db)) as Hin
      by (rewrite E; left).
    apply list_elem_of_filter in Hin as [<- Hin]. eauto.
Qed.

Lemma source_types_tally :
  stats_source_types (get_stats group_order db)
  = foldl (λ (m : gmap string nat) st,
             <[or_unknown st := items_typed st db]> m) ∅ groups.
Proof.
  unfold get_stats, source_types_result. cbn [stats_source_types].
  by rewrite foldl_fmap.
Qed.

Lemma groups_total :
  sum_list ((λ st, items_typed st db) <$> groups) = length (item_tbl db).
Proof.
  unfold items_typed.
  rewrite (length_filter_groups item_source_type groups (item_tbl db)
             groups_NoDup).
  f_equal. apply filter_all. intros i Hi.
  rewrite group_order_perm, elem_of_remove_dups, list_elem_of_fmap. eauto.
Qed.

Lemma groups_unknown_total :
  sum_list ((λ st, items_typed st db)
            <$> filter (λ st, or_unknown st = "unknown") groups)
  = items_typed None db + items_typed (Some "") db
    + items_typed (Some "unknown") db.
Proof.
  assert (filter (λ st, or_unknown st = "unknown") groups
          ≡ₚ filter (λ st, st ∈ groups) [None; Some ""; Some "unknown"])
    as Hperm.
  { apply NoDup_Permutation.
    - apply NoDup_filter, groups_NoDup.
    - apply NoDup_filter. by_eval.
    - intros st. rewrite !list_elem_of_filter, or_unknown_class. tauto. }
  rewrite (sum_list_perm _ _ (fmap_Permutation _ _ _ Hperm)).
  assert (Hzero : ∀ st, st ∉ groups → items_typed st db = 0).
  { intros st Hst. destruct (decide (items_typed st db = 0)); [done|].
    exfalso. by apply Hst, elem_of_groups. }
  rewrite !filter_cons, filter_nil.
  destruct (decide (None ∈ groups)) as [?|H1],
           (decide (Some "" ∈ groups)) as [?|H2],
           (decide (Some "unknown" ∈ groups)) as [?|H3]; simpl;
    try rewrite (Hzero _ H1); try rewrite (Hzero _ H2);
    try rewrite (Hzero _ H3); lia.
Qed.

End StatsFacts.

(** ** The command line *)

Section CliFacts.
Context `{Collaborators}.
Variable clock : nat → Z.

Lemma bootstrap_settled db value d :
  setting_tbl db !! "embed_dimension" = Some value →
  Engine.int value = Returned d →
  Cli.bootstrap db = (db, Returned ()).
Proof.
  intros Hdim Hint. unfold Cli.bootstrap, Engine.init_db, Engine.load_dimension.
  cbn [Engine.catalog_of Engine.cat_setting Engine.cat_vec].
  rewrite Hdim, Hint. cbn [Engine.cat_setting]. by destruct db.
Qed.

(** The loop over a stream in two parts is the loop over the first part,
    then, if that did not crash, over the second. *)
Lemma ingest_lines_app replace l1 l2 count err db :
  Cli.ingest_lines clock replace (l1 ++ l2) count err db
  = match Cli.ingest_lines clock replace l1 count err db with
    | (db1, err1, Cli.Printed n) => Cli.ingest_lines clock replace l2 n err1 db1
    | crashed => crashed
    end.
Proof.
  revert count err db. induction l1 as [|line l1 IH]; intros count err db.
  - done.
  - destruct line as [| | |data]; cbn [app Cli.ingest_lines]; [apply IH|done..|].
    destruct (Cli.j_source_uri data) as [source_uri|]; [|done].
    destruct (add_item _ _ _) as [db' [v|e]]; [apply IH|done].
Qed.

Lemma ingest_lines_count replace lines count err db db' err' n :
  Cli.ingest_lines clock replace lines count err db = (db', err', Cli.Printed n) →
  n = count + length (filter (λ l, is_blank l = false) lines) ∧
  length err' = length err + length (filter (λ l, is_blank l = false) lines) ∧
  ∀ l, l ∈ lines →
    l = Cli.Blank ∨
    ∃ data source_uri, l = Cli.Object data ∧
                       Cli.j_source_uri data = Some source_uri.
Proof.
  revert count err db. induction lines as [|line lines IH]; intros count err db.
  - intros [= <- <- <-]. rewrite !Nat.add_0_r. repeat split.
    intros l Hl. by apply elem_of_nil in Hl.
  - destruct line as [| | |data]; cbn [Cli.ingest_lines]; [|done..|].
    + intros (-> & -> & Hall)%IH. rewrite filter_cons_False by done.
      repeat split. intros l [->|Hl]%elem_of_cons; [by left|by apply Hall].
    + destruct (Cli.j_source_uri data) as [source_uri|] eqn:Huri; [|done].
      destruct (add_item _ _ _) as [db1 [v|e]]; [|done].
      intros (-> & -> & Hall)%IH. rewrite filter_cons_True by done.
      rewrite length_app. cbn [length]. repeat split; [lia..|].
      intros l [->|Hl]%elem_of_cons; [right; eauto|by apply Hall].
Qed.

Lemma ingest_lines_flag lines count err db :
  (∀ data, Cli.Object data ∈ lines → is_Some (Cli.j_replace data)) →
  Cli.ingest_lines clock true lines count err db
  = Cli.ingest_lines clock false lines count err db.
Proof.
  revert count err db. induction lines as [|line lines IH];
    intros count err db Hall; [done|].
  assert (Hrest : ∀ data, Cli.Object data ∈ lines →
                          is_Some (Cli.j_replace data))
    by (intros data Hin; apply Hall; by right).
  destruct line as [| | |data]; cbn [Cli.ingest_lines]; [by apply IH|done..|].
  destruct (Cli.j_source_uri data) as [source_uri|]; [|done].
  destruct (Hall data) as [b ->]; [left|]. cbn [default from_option id].
  destruct (add_item _ _ _) as [db' [v|e]]; [by apply IH|done].
Qed.

End CliFacts.

(** ** The helpers of the extractors *)

Section Scanning.
Context {A : Type}.
Implicit Types (p : A → bool) (l : list A).

Lemma drop_while_drop p l :
  Extract.drop_while p l = drop (length l - length (Extract.drop_while p l)) l.
Proof.
  induction l as [|x l IH]; [done|]. simpl. destruct (p x).
  - pose proof (f_equal length IH) as Hlen. rewrite length_drop in Hlen.
    rewrite IH at 1.
    replace (S (length l) - length (Extract.drop_while p l))
      with (S (length l - length (Extract.drop_while p l))) by lia.
    done.
  - simpl. by rewrite Nat.sub_diag.
Qed.

Lemma drop_while_head p l x :
  head (Extract.drop_while p l) = Some x → p x = false.
Proof.
  induction l as [|y l IH]; [done|]. simpl.
  destruct (p y) eqn:E; [done|]. by intros [= <-].
Qed.

Lemma drop_while_Forall (P : A → Prop) p l :
  Forall P l → Forall P (Extract.drop_while p l).
Proof. rewrite drop_while_drop. apply Forall_drop. Qed.

Lemma rstrip_snoc p l x :
  reverse (Extract.drop_while p (reverse (l ++ [x])))
  = if p x then reverse (Extract.drop_while p (reverse l)) else l ++ [x].
Proof.
  rewrite reverse_snoc. simpl. destruct (p x); [done|].
  by rewrite reverse_cons, reverse_involutive.
Qed.

Lemma rstrip_take p l :
  reverse (Extract.drop_while p (reverse l))
  = take (length (reverse (Extract.drop_while p (reverse l)))) l.
Proof.
  induction l as [|x l IH] using rev_ind; [done|].
  rewrite rstrip_snoc. destruct (p x).
  - rewrite take_app_le; [done|].
    rewrite IH at 1. rewrite length_take. lia.
  - by rewrite firstn_all.
Qed.

Lemma rstrip_last p l x :
  last (reverse (Extract.drop_while p (reverse l))) = Some x → p x = false.
Proof.
  rewrite last_reverse. apply drop_while_head.
Qed.

End Scanning.

Lemma strip_with_Forall (P : N → Prop) p s :
  Forall P s → Forall P (Extract.strip_with p s).
Proof.
  intros Hs. unfold Extract.strip_with. rewrite rstrip_take.
  by apply Forall_take, drop_while_Forall.
Qed.

Lemma strip_with_head p s x :
  head (Extract.strip_with p s) = Some x → p x = false.
Proof.
  unfold Extract.strip_with. rewrite rstrip_take.
  destruct (length _) as [|n]; [by rewrite take_0|].
  destruct (Extract.drop_while p s) as [|y l] eqn:E; [done|].
  simpl. intros [= <-]. apply (drop_while_head p s). by rewrite E.
Qed.

Lemma strip_with_last p s x :
  last (Extract.strip_with p s) = Some x → p x = false.
Proof. apply rstrip_last. Qed.

Lemma nonempty_true {A} (l : list A) : Extract.nonempty l = true ↔ l ≠ [].
Proof. by destruct l. Qed.

Lemma nonempty_false {A} (l : list A) : Extract.nonempty l = false ↔ l = [].
Proof. by destruct l. Qed.

Lemma sub_dashes_chars in_run text :
  Forall slug_char (Extract.sub_dashes in_run text).
Proof.
  revert in_run. induction text as [|c text IH]; intros in_run; simpl.
  - constructor.
  - destruct (Extract.is_slug_char c) eqn:E.
    + constructor; [by left|apply IH].
    + destruct in_run; [apply IH|]. constructor; [by right|apply IH].
Qed.

Lemma untitled_chars : Forall slug_char (Extract.py "untitled").
Proof. repeat constructor. Qed.


Lemma sub_dashes_in_run_head text :
  head (Extract.sub_dashes true text) ≠ Some Extract.dash.
Proof.
  induction text as [|c text IH]; [done|]. simpl.
  destruct (Extract.is_slug_char c) eqn:E; [|done].
  simpl. intros [= ->]. done.
Qed.

Lemma sub_dashes_well_dashed in_run text :
  well_dashed (Extract.sub_dashes in_run text).
Proof.
  revert in_run. induction text as [|c text IH]; intros in_run; simpl.
  - by intros i Hi.
  - destruct (Extract.is_slug_char c) eqn:E.
    + intros [|i]; simpl; [|apply IH]. intros [= ->]. done.
    + destruct in_run; [apply IH|].
      intros [|i]; simpl; [|apply IH]. intros _.
      rewrite <- head_lookup. apply sub_dashes_in_run_head.
Qed.

Lemma well_dashed_take n s : well_dashed s → well_dashed (take n s).
Proof.
  intros Hs i Hi Hnext.
  apply lookup_take_Some in Hi as [Hi _].
  apply lookup_take_Some in Hnext as [Hnext _]. by apply (Hs i).
Qed.

Lemma well_dashed_drop n s : well_dashed s → well_dashed (drop n s).
Proof.
  intros Hs i. unfold well_dashed in Hs.
  rewrite !lookup_drop, Nat.add_succ_r. apply Hs.
Qed.

Lemma strip_with_well_dashed p s :
  well_dashed s → well_dashed (Extract.strip_with p s).
Proof.
  intros Hs. unfold Extract.strip_with. rewrite rstrip_take.
  apply well_dashed_take. rewrite drop_while_drop. by apply well_dashed_drop.
Qed.

Lemma untitled_well_dashed : well_dashed (Extract.py "untitled").
Proof.
  intros i Hi%list_elem_of_lookup_2. exfalso. revert Hi. by_eval.
Qed.

Section Slug.
Variables (isspace : N → bool) (lower : Extract.pystr → Extract.pystr).

Lemma slugify_cases text :
  Extract._slugify isspace lower text = Extract.py "untitled" ∨
  ∃ word,
    Extract._slugify isspace lower text
    = take 50 (Extract.strip_with (N.eqb Extract.dash) word) ∧
    Forall slug_char word ∧ well_dashed word ∧
    Extract._slugify isspace lower text ≠ [].
Proof.
  unfold Extract._slugify. destruct (Extract.nonempty text); [|by left].
  destruct (Extract.nonempty (take 50 _)) eqn:E; [|by left].
  right. eexists. split; [done|]. split; [apply sub_dashes_chars|].
  split; [apply sub_dashes_well_dashed|]. by apply nonempty_true.
Qed.

Lemma slugify_key text :
  let slug := Extract._slugify isspace lower text in
  slug ≠ [] ∧ length slug ≤ 50 ∧ Forall slug_char slug ∧
  head slug ≠ Some Extract.dash ∧ well_dashed slug.
Proof.
  intros slug. subst slug.
  destruct (slugify_cases text) as [->|(word & -> & Hw & Hd & Hne)].
  - split; [done|]. split; [simpl; lia|]. split; [apply untitled_chars|].
    split; [done|apply untitled_well_dashed].
  - split; [done|]. split; [rewrite length_take; lia|].
    split; [by apply Forall_take, strip_with_Forall|]. split.
    + destruct (Extract.strip_with _ word) as [|c l] eqn:E; [done|].
      simpl. intros [= ->].
      assert (head (Extract.strip_with (N.eqb Extract.dash) word)
              = Some Extract.dash) as Hh by (by rewrite E).
      by apply strip_with_head in Hh.
    + by apply well_dashed_take, strip_with_well_dashed.
Qed.

End Slug.

Lemma drop_while_fixed {A} (p : A → bool) l :
  (∀ x, head l = Some x → p x = false) → Extract.drop_while p l = l.
Proof. destruct l as [|x l]; [done|]. simpl. intros Hx. by rewrite Hx. Qed.

Lemma strip_with_idemp p s :
  Extract.strip_with p (Extract.strip_with p s) = Extract.strip_with p s.
Proof.
  set (t := Extract.strip_with p s). unfold Extract.strip_with at 1.
  rewrite (drop_while_fixed p t) by apply strip_with_head.
  rewrite (drop_while_fixed p (reverse t)).
  - apply reverse_involutive.
  - intros x. rewrite head_reverse. apply strip_with_last.
Qed.

Lemma join_prefix sep part parts :
  part `prefix_of` Extract.join sep (part :: parts).
Proof.
  destruct parts as [|part' parts]; simpl.
  - done.
  - by apply prefix_app_r.
Qed.

Section Markdown.
Variables (isspace : N → bool) (lower : Extract.pystr → Extract.pystr).

Local Abbreviation good :=
  (λ c, Extract.md_key c ≠ [] ∧ Extract.strip isspace (Extract.md_text c) ≠ []).

(** A section is closed with at most one chunk more; under a heading the
    chunk is a headed one. *)
Lemma close_section_spec chunks h content :
  Extract.close_section isspace lower chunks h content = chunks ∨
  ∃ c, Extract.close_section isspace lower chunks h content = chunks ++ [c] ∧
       good c ∧
       (Extract.truthy_str h = true →
        Extract.heading_match isspace (default [] h) = true →
        headed isspace lower c).
Proof.
  unfold Extract.close_section.
  destruct (Extract.truthy_str h || Extract.nonempty content); [|by left].
  destruct (Extract.nonempty (Extract.strip isspace _)) eqn:Htext; [|by left].
  right. eexists. split; [done|]. cbn [Extract.md_key Extract.md_text].
  apply nonempty_true in Htext. split; [split; [|done]|].
  - destruct (Extract.truthy_str h).
    + apply (slugify_key isspace lower).
    + done.
  - intros Hh Hm. rewrite Hh. exists (default [] h).
    cbn [Extract.md_meta Extract.md_key Extract.md_text].
    split; [|split; [done|split; [done|]]].
    + destruct h as [h|]; [done|discriminate Hh].
    + apply join_prefix.
Qed.

Local Abbreviation md_inv := (md_invariant isspace lower).

Lemma close_section_inv s :
  md_inv s →
  let chunks := Extract.close_section isspace lower (Extract.st_chunks s)
                  (Extract.st_heading s) (Extract.st_content s) in
  (∀ c, c ∈ chunks → good c) ∧
  (∀ i c, chunks !! S i = Some c → headed isspace lower c).
Proof.
  intros (Hgood & Hhead & Hne & Hm) chunks. subst chunks.
  destruct (close_section_spec (Extract.st_chunks s) (Extract.st_heading s)
              (Extract.st_content s)) as [->|(c & -> & Hc & Hh)]; [done|].
  split.
  - intros c' [Hc'|Hc']%elem_of_app; [by apply Hgood|].
    by apply list_elem_of_singleton in Hc' as ->.
  - intros i c' Hi. apply lookup_app_Some in Hi as [Hi|[Hlen Hi]].
    + by apply (Hhead i).
    + apply list_lookup_singleton_Some in Hi as [Hidx <-].
      assert (Extract.st_chunks s ≠ []) as Hne'
        by (destruct (Extract.st_chunks s); [simpl in Hlen, Hidx; lia|done]).
      apply Hh; [by apply Hne|by apply Hm, Hne].
Qed.

Lemma md_step_inv s part : md_inv s → md_inv (Extract.md_step isspace lower s part).
Proof.
  intros Hinv. unfold Extract.md_step.
  destruct (Extract.nonempty (Extract.strip isspace part)) eqn:Hpart; [|done].
  destruct (Extract.heading_match isspace _) eqn:Hm.
  - destruct (close_section_inv s Hinv) as [Hgood Hhead].
    split; [done|]. split; [done|]. cbn [Extract.st_heading Extract.truthy_str].
    split; [done|]. intros _. done.
  - exact Hinv.
Qed.

Lemma md_loop_inv s parts :
  md_inv s → md_inv (foldl (Extract.md_step isspace lower) s parts).
Proof.
  revert s. induction parts as [|part parts IH]; intros s Hs; [done|].
  simpl. apply IH. by apply md_step_inv.
Qed.

Lemma parse_markdown_spec parts content :
  let chunks := Extract._parse_markdown isspace lower parts content in
  (∀ c, c ∈ chunks → good c) ∧
  (∀ i c, chunks !! S i = Some c → headed isspace lower c) ∧
  (Extract.strip isspace content ≠ [] → chunks ≠ []).
Proof.
  intros chunks. subst chunks. unfold Extract._parse_markdown.
  set (s := foldl _ _ parts).
  assert (md_inv s) as Hinv.
  { apply md_loop_inv. split; [|split; [|split]]; cbn.
    - intros c Hc. by apply elem_of_nil in Hc.
    - intros i c Hi. discriminate Hi.
    - done.
    - done. }
  destruct (close_section_inv s Hinv) as [Hgood Hhead].
  destruct (Extract.close_section _ _ _ _ _) as [|c0 chunks] eqn:E.
  - cbn [Extract.nonempty negb andb app].
    destruct (Extract.nonempty (Extract.strip isspace content)) eqn:Hc.
    + apply nonempty_true in Hc. split; [|split; [|done]].
      * intros c ->%list_elem_of_singleton.
        cbn [Extract.md_key Extract.md_text]. split; [done|].
        unfold Extract.strip. by rewrite strip_with_idemp.
      * intros i c Hi. destruct i; discriminate Hi.
    + apply nonempty_false in Hc. split; [|split; [|done]]; [|done].
      intros c Hc'. by apply elem_of_nil in Hc'.
  - cbn [Extract.nonempty negb andb]. split; [done|]. split; [done|]. done.
Qed.

End Markdown.

(** *** Turns of a conversation *)

Lemma py_inj s1 s2 : Extract.py s1 = Extract.py s2 → s1 = s2.
Proof.
  revert s2. induction s1 as [|a s1 IH]; intros [|b s2]; simpl; try done.
  intros [= Ha Hs]. f_equal; [|by apply IH].
  rewrite <- (Ascii.ascii_N_embedding a), <- (Ascii.ascii_N_embedding b).
  by rewrite Ha.
Qed.

Lemma turn_key_inj i j :
  Extract.py "turn-" ++ Extract.str_of_nat i
  = Extract.py "turn-" ++ Extract.str_of_nat j → i = j.
Proof.
  intros Heq%app_inv_head. unfold Extract.str_of_nat in Heq.
  apply py_inj in Heq. by apply (inj pretty).
Qed.

Section Turns.
Variable str_of : Extract.json → Extract.pystr.

Lemma close_turn_spec s :
  turns_invariant s →
  let p := Extract.close_turn s in
  length p.1 = p.2 ∧ ∀ i t, p.1 !! i = Some t → turn_at i t.
Proof.
  intros [Hlen Hall] p. subst p. unfold Extract.close_turn.
  destruct (Extract.truthy_str (Extract.ts_user s)
            || Extract.nonempty (Extract.ts_assistant s)); [|done].
  set (parts := _ ++ _).
  assert (Hpre : parts = [] ∨
            ∃ part parts', parts = part :: parts' ∧
              (Extract.py "User: " `prefix_of` part ∨
               Extract.py "Assistant: " `prefix_of` part)).
  { subst parts. destruct (Extract.truthy_str _).
    - right. eexists _, _. split; [reflexivity|].
      left. by apply prefix_app_r.
    - destruct (Extract.nonempty _); [|by left].
      right. eexists _, _. split; [reflexivity|].
      right. by apply prefix_app_r. }
  clearbody parts.
  destruct Hpre as [->|(part & parts' & -> & Hpre)]; [done|].
  cbn [Extract.nonempty fst snd]. split.
  - rewrite length_app. cbn [length]. lia.
  - intros i t Hi. apply lookup_app_Some in Hi as [Hi|[Hge Hi]].
    + by apply Hall.
    + apply list_lookup_singleton_Some in Hi as [Hi <-].
      assert (i = Extract.ts_index s) as -> by lia.
      split; [done|]. split; [done|].
      cbn [Extract.turn_text].
      destruct Hpre as [Hp|Hp]; [left|right];
        (etrans; [exact Hp|apply join_prefix]).
Qed.

Lemma turn_step_inv s msg s' :
  turns_invariant s → Extract.turn_step str_of s msg = Extract.Ok s' →
  turns_invariant s'.
Proof.
  intros Hinv. unfold Extract.turn_step.
  destruct (Extract.get _ _ msg) as [msg_type|]; [|done].
  destruct (_ || _); [|by intros [= <-]].
  destruct (Extract.get _ _ msg) as [message|]; [|done].
  destruct (Extract._extract_claude_content _ _) as [content|]; [|done].
  destruct (Extract.nonempty content); [|by intros [= <-]].
  destruct (Extract.is_str msg_type _).
  - destruct (Extract._is_tool_result msg) as [[|]|]; [by intros [= <-]| |done].
    pose proof (close_turn_spec s Hinv) as Hclose.
    destruct (Extract.close_turn s) as [turns turn_index].
    intros [= <-]. exact Hclose.
  - intros [= <-]. exact Hinv.
Qed.

Lemma turn_loop_inv s messages s' :
  turns_invariant s → Extract.turn_loop str_of s messages = Extract.Ok s' →
  turns_invariant s'.
Proof.
  revert s. induction messages as [|msg messages IH]; intros s Hinv; simpl.
  - by intros [= <-].
  - destruct (Extract.turn_step str_of s msg) as [s1|] eqn:Hstep; [|done].
    apply IH. by eapply turn_step_inv.
Qed.

Lemma build_turns_spec messages turns :
  Extract._build_turns str_of messages = Extract.Ok turns →
  ∀ i t, turns !! i = Some t → turn_at i t.
Proof.
  unfold Extract._build_turns.
  destruct (Extract.turn_loop _ _ _) as [s|] eqn:Hloop; [|done].
  intros [= <-]. apply close_turn_spec.
  eapply turn_loop_inv; [|exact Hloop]. split; [done|].
  intros i t Hi. discriminate Hi.
Qed.

(** A message that is a dict of another type leaves the locals alone. *)
Lemma turn_step_other s msg :
  is_dialogue msg = false → Extract.turn_step str_of s msg = Extract.Ok s.
Proof.
  destruct msg as [| | | | |members]; try done.
  unfold is_dialogue. intros Hd.
  unfold Extract.turn_step. cbn [Extract.get]. by rewrite Hd.
Qed.

Lemma turn_loop_filter s messages :
  Extract.turn_loop str_of s (filter (λ msg, is_dialogue msg = true) messages)
  = Extract.turn_loop str_of s messages.
Proof.
  revert s. induction messages as [|msg messages IH]; intros s; [done|].
  rewrite filter_cons. destruct (decide (is_dialogue msg = true)) as [Hd|Hd].
  - simpl. destruct (Extract.turn_step str_of s msg); [apply IH|done].
  - apply not_true_is_false in Hd. simpl.
    rewrite (turn_step_other s msg Hd). apply IH.
Qed.

End Turns.

Lemma turn_loop_app str_of s l1 l2 :
  Extract.turn_loop str_of s (l1 ++ l2)
  = match Extract.turn_loop str_of s l1 with
    | Extract.Ok s1 => Extract.turn_loop str_of s1 l2
    | Extract.Raise e => Extract.Raise e
    end.
Proof.
  revert s. induction l1 as [|msg l1 IH]; intros s; [done|].
  simpl. destruct (Extract.turn_step str_of s msg); [apply IH|done].
Qed.

(** * Further properties of the operations *)

Lemma wf_db_stored : wf_db Sample.stored.
Proof. apply (@add_item_wf (Sample.services false)), wf_db_empty. Qed.

Lemma wf_db_both : wf_db Sample2.both.
Proof. apply (@add_item_wf (Sample.services false)), wf_db_stored. Qed.

Lemma fts_synced_empty : fts_synced Sample.empty.
Proof.
  split.
  - intros c Hc. by apply elem_of_nil in Hc.
  - intros k [x Hx]. cbn in Hx. by rewrite lookup_empty in Hx.
Qed.

Lemma fts_synced_both : fts_synced Sample2.both.
Proof.
  apply (@add_item_synced (Sample.services false)); [apply wf_db_stored|].
  apply (@add_item_synced (Sample.services false)); [apply wf_db_empty|].
  apply fts_synced_empty.
Qed.

Lemma wf_db_hollow : wf_db Sample2.hollow.
Proof. apply (@add_item_wf (Sample.services false)), wf_db_stored. Qed.

Lemma wf_db_loose : wf_db Sample2.loose.
Proof. apply (@add_item_wf (Sample.services false)), wf_db_stored. Qed.

Lemma untouched_get other db db' :
  untouched other db db' →
  get_item other db' = get_item other db ∧
  ∀ v c, get_item other db = Some v → c ∈ view_chunks v →
    chunk_embeddings db' !! chunk_id c = chunk_embeddings db !! chunk_id c ∧
    chunks_fts db' !! chunk_id c = chunks_fts db !! chunk_id c.
Proof.
  intros [Hsel Hrows]. unfold get_item. rewrite Hsel.
  destruct (select_item other db) as [o|]; [|split; [done|by intros]].
  destruct (Hrows o eq_refl) as (Hc & Ht & Hk).
  split.
  - unfold load_view. by rewrite Hc, Ht.
  - intros v c [= <-]. apply Hk.
Qed.

(** ** Round trips *)

(** X1: whenever [add_item] returns, on either path and with or without
    replace, the view it returns is the one [get_item] gives for the
    source_uri in the store it leaves (source_uris being unique). *)
Theorem add_item_returns_what_get_shows `{Collaborators} now r db v :
  uri_unique db →
  (add_item now r db).2 = Returned v →
  get_item (r_source_uri r) (add_item now r db).1 = Some v.
Proof. apply add_item_get. Qed.

Lemma add_item_returns_what_get_shows_witness :
  ∃ v, get_item "mem://a"
         (@add_item (Sample.services false) 9 Sample.extended Sample.stored).1
       = Some v ∧ chunk_text <$> view_chunks v = ["alpha"; "beta"; "gamma"].
Proof.
  eexists. split.
  - apply (@add_item_returns_what_get_shows (Sample.services false) 9
             Sample.extended Sample.stored).
    + unfold uri_unique. by_eval.
    + vm_compute. reflexivity.
  - reflexivity.
Defined.

(** X2: when no item carries the source_uri, or replace is set and the
    stored item has no chunks, a call of [add_item] that is answered by the
    provider returns, and [get_item] then shows exactly the record: its
    title, source_type, context and expires_at, both timestamps at the time
    of the call, one chunk per supplied chunk in order (text, key,
    position) and one tag row per supplied tag. *)
Theorem add_fresh_then_get_shows_record `{Collaborators} now r db :
  wf_db db → uri_unique db → provider_ok (vec_dim db) →
  tags_accepted (default [] (r_tags r)) →
  (∀ existing, select_item (r_source_uri r) db = Some existing →
     r_replace r = true ∧ item_chunks (item_id existing) db = []) →
  ∃ v, (add_item now r db).2 = Returned v ∧
    get_item (r_source_uri r) (add_item now r db).1 = Some v ∧
    item_source_uri (view_item v) = r_source_uri r ∧
    item_title (view_item v) = r_title r ∧
    item_source_type (view_item v) = r_source_type r ∧
    item_context (view_item v) = r_context r ∧
    item_expires_at (view_item v) = r_expires_at r ∧
    item_created_at (view_item v) = now ∧
    item_updated_at (view_item v) = now ∧
    chunk_text <$> view_chunks v = cd_text <$> default [] (r_chunks r) ∧
    chunk_key <$> view_chunks v = cd_key <$> default [] (r_chunks r) ∧
    chunk_index <$> view_chunks v = seq 0 (length (default [] (r_chunks r))) ∧
    tag <$> view_tags v = default [] (r_tags r).
Proof.
  intros Hwf Hu Hprov Htags Hcase.
  assert (∃ db0, add_item now r db = insert_path now r db0 ∧ wf_db db0 ∧
                 vec_dim db0 = vec_dim db ∧
                 select_item (r_source_uri r) db0 = None)
    as (db0 & Hadd & Hwf0 & Hdim & Hsel0).
  { destruct (select_item (r_source_uri r) db) as [existing|] eqn:Hsel.
    - destruct (Hcase _ eq_refl) as [Hrep Hnone].
      exists (delete_item (r_source_uri r) db).1.
      destruct (delete_item_cases _ _ _ Hsel)
        as [(_ & Hret & _)|(Hsome & _)]; [|done].
      split; [by rewrite (add_item_replace _ _ _ _ Hsel Hrep), Hret|].
      split; [by apply delete_item_wf|].
      split; [apply delete_item_dim|by eapply delete_item_gone].
    - exists db. by rewrite (add_item_insert _ _ _ Hsel). }
  rewrite Hadd. rewrite <- Hdim in Hprov.
  destruct (insert_path_returns now r db0 Hwf0 Htags Hprov) as [Hret _].
  destruct (insert_path_committed now r db0 Htags (tag_fk_fresh db0 Hwf0))
    as (Hi & Hc & Ht & _).
  eexists. split; [exact Hret|]. split; [by apply insert_path_get|].
  cbn [load_view view_item view_chunks view_tags inserted_item item_id
       item_source_uri item_title item_source_type item_context
       item_expires_at item_created_at item_updated_at].
  rewrite (item_chunks_inserted r db0 Hwf0 _ Hc).
  rewrite (item_tags_inserted r db0 Hwf0 _ Ht).
  destruct (inserted_chunks_columns r db0) as (-> & -> & -> & _).
  repeat split; try done.
  rewrite <- list_fmap_compose. by rewrite list_fmap_id.
Qed.

Lemma add_fresh_then_get_shows_record_witness :
  ∃ v, (@add_item (Sample.services true) 9 Sample2.refill Sample2.hollow).2
       = Returned v ∧
    get_item "mem://b"
      (@add_item (Sample.services true) 9 Sample2.refill Sample2.hollow).1
    = Some v ∧
    item_source_uri (view_item v) = "mem://b" ∧
    item_title (view_item v) = Some "B2" ∧
    item_source_type (view_item v) = None ∧
    item_context (view_item v) = None ∧
    item_expires_at (view_item v) = None ∧
    item_created_at (view_item v) = 9%Z ∧
    item_updated_at (view_item v) = 9%Z ∧
    chunk_text <$> view_chunks v = ["fresh"] ∧
    chunk_key <$> view_chunks v = [None] ∧
    chunk_index <$> view_chunks v = [0] ∧
    tag <$> view_tags v = ["w"].
Proof.
  apply (@add_fresh_then_get_shows_record (Sample.services true) 9
           Sample2.refill Sample2.hollow wf_db_hollow).
  - unfold uri_unique. by_eval.
  - apply provider_ok_sample.
  - intros _. by_eval.
  - intros existing Hsel. vm_compute in Hsel. injection Hsel as <-.
    split; reflexivity.
Defined.

(** X3: once the tool [delete] has answered, [get] of the same
    source_uri answers nothing and a second [delete] answers "not_found"
    and changes nothing (source_uris being unique). *)
Theorem delete_then_get_finds_nothing source_uri db reply :
  uri_unique db →
  (Server.delete source_uri db).2 = Returned reply →
  let db' := (Server.delete source_uri db).1 in
  Server.get source_uri db' = None ∧
  Server.delete source_uri db'
  = (db', Returned (Server.mkDeleteReply "not_found" source_uri)).
Proof.
  intros Hu Hret db'. subst db'.
  assert (Hgone : select_item source_uri (Server.delete source_uri db).1
                  = None).
  { unfold Server.delete in *.
    pose proof (delete_item_gone source_uri db) as Hgone.
    destruct (delete_item source_uri db) as [d [b|e]]; [|done].
    by apply (Hgone b). }
  set (db' := (Server.delete source_uri db).1) in *. clearbody db'.
  split.
  - unfold Server.get, get_item. by rewrite Hgone.
  - unfold Server.delete, delete_item. by rewrite Hgone.
Qed.

Lemma delete_then_get_finds_nothing_witness :
  let db' := (Server.delete "mem://b" Sample2.hollow).1 in
  is_Some (Server.get "mem://b" Sample2.hollow) ∧
  Server.get "mem://b" db' = None ∧
  Server.delete "mem://b" db'
  = (db', Returned (Server.mkDeleteReply "not_found" "mem://b")).
Proof.
  split; [by eexists|].
  eapply (delete_then_get_finds_nothing "mem://b" Sample2.hollow).
  - unfold uri_unique. by_eval.
  - vm_compute. reflexivity.
Defined.

(** ** Isolation between sources *)

(** X4: [delete_item] leaves every other source as it was: [get_item] of
    another source_uri gives the same item, chunks and tags as before, and
    the embedding and FTS rows of those chunks are unchanged. *)
Theorem delete_spares_other_sources source_uri other db :
  wf_db db → other ≠ source_uri →
  let db' := (delete_item source_uri db).1 in
  get_item other db' = get_item other db ∧
  ∀ v c, get_item other db = Some v → c ∈ view_chunks v →
    chunk_embeddings db' !! chunk_id c = chunk_embeddings db !! chunk_id c ∧
    chunks_fts db' !! chunk_id c = chunks_fts db !! chunk_id c.
Proof.
  intros Hwf Hne. by apply untouched_get, delete_item_frame.
Qed.

Lemma delete_spares_other_sources_witness :
  let db' := (delete_item "mem://b" Sample2.hollow).1 in
  is_Some (get_item "mem://b" Sample2.hollow) ∧
  get_item "mem://b" db' = None ∧
  is_Some (get_item "mem://a" Sample2.hollow) ∧
  get_item "mem://a" db' = get_item "mem://a" Sample2.hollow ∧
  ∀ v c, get_item "mem://a" Sample2.hollow = Some v → c ∈ view_chunks v →
    chunk_embeddings db' !! chunk_id c
    = chunk_embeddings Sample2.hollow !! chunk_id c ∧
    chunks_fts db' !! chunk_id c = chunks_fts Sample2.hollow !! chunk_id c.
Proof.
  split; [by eexists|]. split; [reflexivity|]. split; [by eexists|].
  apply (delete_spares_other_sources "mem://b" "mem://a" Sample2.hollow
           wf_db_hollow).
  by_eval.
Defined.

(** X5: [add_item] leaves every other source as it was, whether it
    inserts, merges or replaces, and whether it returns or raises:
    [get_item] of another source_uri gives the same item, chunks and tags
    as before, and the embedding and FTS rows of those chunks are
    unchanged. *)
Theorem add_spares_other_sources `{Collaborators} now r other db :
  wf_db db → other ≠ r_source_uri r →
  let db' := (add_item now r db).1 in
  get_item other db' = get_item other db ∧
  ∀ v c, get_item other db = Some v → c ∈ view_chunks v →
    chunk_embeddings db' !! chunk_id c = chunk_embeddings db !! chunk_id c ∧
    chunks_fts db' !! chunk_id c = chunks_fts db !! chunk_id c.
Proof.
  intros Hwf Hne. apply untouched_get, add_item_untouched; [done|congruence].
Qed.

Lemma add_spares_other_sources_witness :
  let db' := (@add_item (Sample.services false) 9 Sample.extended
                Sample2.both).1 in
  is_Some (get_item "mem://b" Sample2.both) ∧
  get_item "mem://b" db' = get_item "mem://b" Sample2.both ∧
  ∀ v c, get_item "mem://b" Sample2.both = Some v → c ∈ view_chunks v →
    chunk_embeddings db' !! chunk_id c
    = chunk_embeddings Sample2.both !! chunk_id c ∧
    chunks_fts db' !! chunk_id c = chunks_fts Sample2.both !! chunk_id c.
Proof.
  split; [by eexists|].
  apply (@add_spares_other_sources (Sample.services false) 9 Sample.extended
           "mem://b" Sample2.both wf_db_both).
  by_eval.
Defined.

(** ** Invariants *)

(** X6: [add_item] and [delete_item] keep the keys of the store: item ids
    and chunk ids stay unique, every chunk and every tag belongs to an
    item row, every embedding row belongs to a chunk row, and no
    source_uri is carried by two items. *)
Theorem writers_keep_the_keys `{Collaborators} now r source_uri db :
  wf_db db → uri_unique db →
  (wf_db (add_item now r db).1 ∧ uri_unique (add_item now r db).1) ∧
  (wf_db (delete_item source_uri db).1 ∧
   uri_unique (delete_item source_uri db).1).
Proof.
  intros Hwf Hu. split; split.
  - by apply add_item_wf.
  - by apply add_item_uri_unique.
  - by apply delete_item_wf.
  - by apply delete_item_uri_unique.
Qed.

Lemma writers_keep_the_keys_witness :
  (wf_db (@add_item (Sample.services false) 9 Sample2.refill
            Sample2.hollow).1 ∧
   uri_unique (@add_item (Sample.services false) 9 Sample2.refill
                 Sample2.hollow).1) ∧
  (wf_db (delete_item "mem://b" Sample2.hollow).1 ∧
   uri_unique (delete_item "mem://b" Sample2.hollow).1).
Proof.
  apply (@writers_keep_the_keys (Sample.services false) 9 Sample2.refill
           "mem://b" Sample2.hollow wf_db_hollow).
  unfold uri_unique. by_eval.
Defined.

(** X7: the keyword index stays the mirror of the chunk table across
    [add_item] (on every path, returning or raising) and [delete_item]:
    [chunks_ai] writes the FTS row of every chunk row that is inserted,
    and a chunk row is never changed or removed, its trigger raising and
    the session rolling back.  Afterwards every chunk row still has an FTS
    row under its id with the chunk's text, and no FTS row lacks its chunk
    row. *)
Theorem keyword_index_stays_in_sync `{Collaborators} now r source_uri db :
  wf_db db → fts_synced db →
  fts_synced (add_item now r db).1 ∧
  fts_synced (delete_item source_uri db).1.
Proof.
  intros Hwf Hs. split.
  - by apply add_item_synced.
  - by apply delete_item_synced.
Qed.

Lemma keyword_index_stays_in_sync_witness :
  fts_synced (@add_item (Sample.services false) 9 Sample.extended
                Sample2.both).1 ∧
  fts_synced (delete_item "mem://a" Sample2.both).1.
Proof.
  apply (@keyword_index_stays_in_sync (Sample.services false) 9
           Sample.extended "mem://a" Sample2.both wf_db_both fts_synced_both).
Defined.

(** ** Edge cases of ingestion *)

(** X8: with no chunks to ingest [add_item] does not consult the
    embedding provider.  For a source that is new, or stored with chunks
    that all lack a key, the call without replace returns whatever the
    provider would do; the returned item has the chunks the source had,
    and the vector table is as it was. *)
Theorem add_without_chunks_returns `{Collaborators} now r db :
  wf_db db →
  tags_accepted (default [] (r_tags r)) →
  default [] (r_chunks r) = [] →
  r_replace r = false →
  (∀ existing c, select_item (r_source_uri r) db = Some existing →
     c ∈ item_chunks (item_id existing) db → truthy (chunk_key c) = false) →
  let p := add_item now r db in
  ∃ v, p.2 = Returned v ∧
    view_chunks v
    = match select_item (r_source_uri r) db with
      | Some existing => item_chunks (item_id existing) db
      | None => []
      end ∧
    chunk_embeddings p.1 = chunk_embeddings db.
Proof.
  intros Hwf Htags Hnil Hrep Hkeyless p. subst p.
  destruct (select_item (r_source_uri r) db) as [existing|] eqn:Hsel.
  - rewrite (add_item_merge _ _ _ _ Hsel Hrep).
    assert (Hq : quiet (item_id existing) (default [] (r_chunks r)) db)
      by (apply keyless_quiet; eauto).
    pose proof (merge_tags_accept (item_id existing) _ (tag_tbl db) Htags)
      as Hrows.
    destruct (merge_path_flushed now existing r db _ Hq Hrows)
      as (_ & _ & _ & _ & _ & _ & Hc & _).
    destruct (merge_path_embed_step now existing r db _ Hq Hrows)
      as (db6 & Hpath & _ & He6).
    rewrite Hpath in Hc |- *. rewrite Hnil in *.
    cbn [fmap list_fmap recorded created embed_chunks] in *.
    eexists. split; [reflexivity|]. cbn [fst load_view view_chunks].
    split; [|done]. cbn [fst] in Hc. cbn [set_metadata item_id].
    unfold item_chunks. by rewrite Hc, app_nil_r.
  - rewrite (add_item_insert _ _ _ Hsel).
    pose proof (insert_tags_fresh _ _ _ Htags (tag_fk_fresh db Hwf)) as Hrows.
    destruct (insert_path_flushed now r db _ Hrows) as (_ & Hc & _).
    destruct (insert_path_embed_step now r db _ Hrows)
      as (db3 & Hpath & _ & He3).
    rewrite Hpath in Hc |- *. rewrite Hnil in *.
    cbn [fmap list_fmap embed_chunks] in *.
    eexists. split; [reflexivity|]. cbn [fst load_view view_chunks].
    split; [|done]. cbn [fst] in Hc. cbn [inserted_item item_id].
    rewrite (item_chunks_inserted r db Hwf _ Hc).
    unfold inserted_chunks. by rewrite Hnil.
Qed.

Lemma add_without_chunks_returns_witness :
  let p := @add_item Sample2.offline 9 Sample2.chunkless Sample2.loose in
  ∃ v, p.2 = Returned v ∧
    view_chunks v
    = match select_item "mem://b" Sample2.loose with
      | Some existing => item_chunks (item_id existing) Sample2.loose
      | None => []
      end ∧
    chunk_embeddings p.1 = chunk_embeddings Sample2.loose.
Proof.
  apply (@add_without_chunks_returns Sample2.offline 9 Sample2.chunkless
           Sample2.loose wf_db_loose).
  - intros Hu. discriminate Hu.
  - reflexivity.
  - reflexivity.
  - intros existing c Hsel. vm_compute in Hsel. injection Hsel as <-.
    revert c. apply Forall_forall. by_eval.
Defined.

(** X9: when the embedding provider fails, [add_item] raises the
    provider's error only after the relational commit.  For a source that
    is new, or stored with chunks that all lack a key, and without
    replace: the item row is in the store with the metadata of the record
    and the time of the call, and the vector table is as it was. *)
Theorem provider_failure_follows_commit `{Collaborators} now r db e :
  wf_db db →
  tags_accepted (default [] (r_tags r)) →
  default [] (r_chunks r) ≠ [] →
  r_replace r = false →
  (∀ existing c, select_item (r_source_uri r) db = Some existing →
     c ∈ item_chunks (item_id existing) db → truthy (chunk_key c) = false) →
  get_embeddings_sync (cd_text <$> default [] (r_chunks r)) = Raised e →
  let p := add_item now r db in
  p.2 = Raised e ∧
  (∃ item, select_item (r_source_uri r) p.1 = Some item ∧
     item_title item = r_title r ∧
     item_source_type item = r_source_type r ∧
     item_context item = r_context r ∧
     item_updated_at item = now) ∧
  length (chunk_tbl p.1)
  = length (chunk_tbl db) + length (default [] (r_chunks r)) ∧
  chunk_embeddings p.1 = chunk_embeddings db.
Proof.
  intros Hwf Htags Hne Hrep Hkeyless Hdown p. subst p.
  assert (Htexts : cd_text <$> default [] (r_chunks r) ≠ []).
  { destruct (default [] (r_chunks r)); [done|]. done. }
  destruct (select_item (r_source_uri r) db) as [existing|] eqn:Hsel.
  - rewrite (add_item_merge _ _ _ _ Hsel Hrep).
    assert (Hq : quiet (item_id existing) (default [] (r_chunks r)) db)
      by (apply keyless_quiet; eauto).
    pose proof (merge_tags_accept (item_id existing) _ (tag_tbl db) Htags)
      as Hrows.
    destruct (merge_path_flushed now existing r db _ Hq Hrows)
      as (Hi & _ & _ & _ & _ & _ & Hc & _).
    destruct (merge_path_embed_step now existing r db _ Hq Hrows)
      as (db6 & Hpath & _ & He6).
    rewrite Hpath in Hi, Hc |- *.
    rewrite (embed_chunks_down _ _ _ _ e Htexts Hdown) in Hi, Hc |- *.
    cbn [fst snd] in *. split; [done|]. split; [|split; [|done]].
    + exists (set_metadata now r existing). split; [|done].
      eapply select_item_updated; [exact Hsel| |exact Hi].
      by apply select_item_Some in Hsel as [_ ?].
    + rewrite Hc, length_app. f_equal.
      rewrite <- (length_fmap chunk_id), created_ids, length_seq.
      assert (∀ d, d ∈ default [] (r_chunks r) →
                target (existing_keys_of (item_chunks (item_id existing) db)) d
                = None) as Hmiss.
      { intros d _. destruct (target _ d) as [cid|] eqn:Ht; [|done].
        apply target_Some in Ht as (k & _ & Hk & Hek).
        apply existing_keys_of_Some in Hek as (_ & c & Hc' & _ & Hkey).
        pose proof (Hkeyless _ c eq_refl Hc') as Hf. rewrite Hkey in Hf.
        apply truthy_Some in Hk. congruence. }
      clear -Hmiss. generalize (next_rowid (chunk_id <$> chunk_tbl db)) 0.
      induction (default [] (r_chunks r)) as [|d l IH]; intros n k; [done|].
      cbn [created]. rewrite Hmiss by left. cbn [length]. f_equal.
      apply IH. intros d' Hd'. apply Hmiss. by right.
  - rewrite (add_item_insert _ _ _ Hsel).
    pose proof (insert_tags_fresh _ _ _ Htags (tag_fk_fresh db Hwf)) as Hrows.
    destruct (insert_path_flushed now r db _ Hrows) as (Hi & Hc & _).
    destruct (insert_path_embed_step now r db _ Hrows)
      as (db3 & Hpath & _ & He3).
    rewrite Hpath in Hi, Hc |- *.
    rewrite (embed_chunks_down _ _ _ _ e Htexts Hdown) in Hi, Hc |- *.
    cbn [fst snd] in *. split; [done|]. split; [|split; [|done]].
    + exists (inserted_item now r db). split; [|done].
      by apply (select_item_appended _ _ db).
    + rewrite Hc, length_app. f_equal. unfold inserted_chunks.
      apply length_imap.
Qed.

Lemma provider_failure_follows_commit_witness :
  let p := @add_item Sample2.offline 9 Sample2.more Sample2.loose in
  p.2 = Raised ConnectionError ∧
  (∃ item, select_item "mem://b" p.1 = Some item ∧
     item_title item = Some "B3" ∧
     item_source_type item = None ∧
     item_context item = None ∧
     item_updated_at item = 9%Z) ∧
  length (chunk_tbl p.1) = length (chunk_tbl Sample2.loose) + 1 ∧
  chunk_embeddings p.1 = chunk_embeddings Sample2.loose.
Proof.
  apply (@provider_failure_follows_commit Sample2.offline 9 Sample2.more
           Sample2.loose ConnectionError wf_db_loose).
  - intros Hu. discriminate Hu.
  - discriminate.
  - reflexivity.
  - intros existing c Hsel. vm_compute in Hsel. injection Hsel as <-.
    revert c. apply Forall_forall. by_eval.
  - reflexivity.
Defined.

(** X10: the tool [add] on a source_uri that is already stored merges
    a single chunk without a key.  When the chunks the item has all lack a
    key, then whatever the provider does the item is left with those
    chunks unchanged and one new chunk after them, at position 0, that
    carries the text. *)
Theorem add_tool_on_stored_source `{Collaborators} now source_uri title text
    source_type tags context db existing :
  NoDup (chunk_id <$> chunk_tbl db) →
  tags_accepted (default [] tags) →
  select_item source_uri db = Some existing →
  (∀ c, c ∈ item_chunks (item_id existing) db →
        truthy (chunk_key c) = false) →
  let db' := (Server.add now source_uri title text source_type tags context
                db).1 in
  item_chunks (item_id existing) db'
  = item_chunks (item_id existing) db
    ++ [mkChunk (next_rowid (chunk_id <$> chunk_tbl db)) (item_id existing)
          None 0 text None].
Proof.
  intros Hnd Htags Hsel Hkeyless db'. subst db'. unfold Server.add.
  set (r := mkRecord _ _ _ _ _ _ _ _).
  assert (Hfst : ∀ p : DB * outcome ItemView,
            (match p with
             | (d, Raised e) => (d, Raised e)
             | (d, Returned _) =>
                 (d, Returned (Server.mkAddReply "added" source_uri title))
             end).1 = p.1) by (by intros [? [?|?]]).
  rewrite Hfst, (add_item_merge now r db existing Hsel eq_refl).
  assert (Hq : quiet (item_id existing) (default [] (r_chunks r)) db)
    by (by apply keyless_quiet).
  destruct (merge_path_committed now existing r db Hq Htags)
    as (_ & _ & Hc & _).
  rewrite (item_chunks_merged_keyless _ _ _ _ Hnd (Hc Hnd)).
  f_equal. by apply filter_all.
Qed.

Lemma add_tool_on_stored_source_witness :
  let db' := (@Server.add (Sample.services false) 9 "mem://b" "B" "three"
                "note" None None Sample2.loose).1 in
  item_chunks 2 db'
  = item_chunks 2 Sample2.loose
    ++ [mkChunk (next_rowid (chunk_id <$> chunk_tbl Sample2.loose)) 2
          None 0 "three" None].
Proof.
  apply (@add_tool_on_stored_source (Sample.services false) 9 "mem://b" "B"
           "three" "note" None None Sample2.loose
           (mkItem 2 "mem://b" (Some "B") None None None 6 6)).
  - by_eval.
  - intros _. constructor.
  - reflexivity.
  - apply Forall_forall. by_eval.
Defined.

(** ** Chunk rows are never changed or removed *)

(** X24: what [delete_item] does to an item it finds depends on
    whether the item has chunks.  An item without chunks is deleted with
    its tag rows, and the call returns true.  For an item with chunks the
    embedding rows of the chunks are deleted and committed on the raw
    connection, and then the session raises at the first chunk DELETE,
    whose trigger [chunks_ad] the FTS table refuses: the item row, its
    chunk rows, its tag rows and the FTS rows stay. *)
Theorem delete_item_outcomes source_uri db item :
  select_item source_uri db = Some item →
  let p := delete_item source_uri db in
  (item_chunks (item_id item) db = [] →
   p.2 = Returned true ∧
   item_tbl p.1 = filter (λ i, item_id i ≠ item_id item) (item_tbl db) ∧
   tag_tbl p.1 = filter (λ t, tag_item_id t ≠ item_id item) (tag_tbl db) ∧
   chunk_tbl p.1 = chunk_tbl db ∧
   chunk_embeddings p.1 = chunk_embeddings db ∧
   chunks_fts p.1 = chunks_fts db) ∧
  (item_chunks (item_id item) db ≠ [] →
   p.2 = Raised OperationalError ∧
   item_tbl p.1 = item_tbl db ∧ chunk_tbl p.1 = chunk_tbl db ∧
   tag_tbl p.1 = tag_tbl db ∧ chunks_fts p.1 = chunks_fts db ∧
   ∀ k, chunk_embeddings p.1 !! k
        = if decide (k ∈ chunk_id <$> item_chunks (item_id item) db)
          then None else chunk_embeddings db !! k).
Proof.
  intros Hsel p. subst p.
  destruct (delete_item_cases _ _ _ Hsel)
    as [(Hnone & ? & ? & ? & ? & ? & ? & _)
       |(Hsome & ? & ? & ? & ? & ? & _ & _ & ?)].
  - split; [done|]. by intros [].
  - split; [by intros ?|done].
Qed.

Lemma delete_item_outcomes_witness :
  (let p := delete_item "mem://b" Sample2.hollow in
   p.2 = Returned true ∧
   item_tbl p.1 = filter (λ i, item_id i ≠ 2) (item_tbl Sample2.hollow) ∧
   tag_tbl p.1 = filter (λ t, tag_item_id t ≠ 2) (tag_tbl Sample2.hollow) ∧
   chunk_tbl p.1 = chunk_tbl Sample2.hollow ∧
   chunk_embeddings p.1 = chunk_embeddings Sample2.hollow ∧
   chunks_fts p.1 = chunks_fts Sample2.hollow) ∧
  (let p := delete_item "mem://a" Sample2.hollow in
   p.2 = Raised OperationalError ∧
   item_tbl p.1 = item_tbl Sample2.hollow ∧
   chunk_tbl p.1 = chunk_tbl Sample2.hollow ∧
   tag_tbl p.1 = tag_tbl Sample2.hollow ∧
   chunks_fts p.1 = chunks_fts Sample2.hollow ∧
   ∀ k, chunk_embeddings p.1 !! k
        = if decide (k ∈ chunk_id <$> item_chunks 1 Sample2.hollow)
          then None else chunk_embeddings Sample2.hollow !! k).
Proof.
  split.
  - apply (proj1 (delete_item_outcomes "mem://b" Sample2.hollow
                    (mkItem 2 "mem://b" (Some "B") None None None 6 6)
                    eq_refl)).
    reflexivity.
  - apply (proj2 (delete_item_outcomes "mem://a" Sample2.hollow
                    (mkItem 1 "mem://a" (Some "A") (Some "note") (Some "ctx")
                            None 5 5)
                    eq_refl)).
    discriminate.
Defined.



(** X26: a merge cannot change a chunk either.  When the chunk that
    the key dictionary holds for a key would get another position, text or
    meta from the last incoming chunk with that key, the UPDATE of its row
    raises in [chunks_au] at the flush and the session rolls back: the
    four tables the session writes are as before the call. *)
Theorem merge_raises_on_changed_chunk `{Collaborators} now r db existing
    c i d :
  select_item (r_source_uri r) db = Some existing →
  r_replace r = false →
  NoDup (chunk_id <$> chunk_tbl db) →
  c ∈ item_chunks (item_id existing) db →
  truthy (chunk_key c) = true →
  existing_keys_of (item_chunks (item_id existing) db)
    !! default "" (chunk_key c) = Some (chunk_id c) →
  default [] (r_chunks r) !! i = Some d →
  cd_key d = chunk_key c →
  (∀ j d', default [] (r_chunks r) !! j = Some d' →
           cd_key d' = chunk_key c → j ≤ i) →
  assign i d c ≠ c →
  let p := add_item now r db in
  p.2 = Raised OperationalError ∧
  item_tbl p.1 = item_tbl db ∧ chunk_tbl p.1 = chunk_tbl db ∧
  tag_tbl p.1 = tag_tbl db ∧ chunks_fts p.1 = chunks_fts db.
Proof.
  intros Hsel Hrep Hnd Hc Htruthy Hheld Hi Hkey Hlast Hchange p. subst p.
  rewrite (add_item_merge _ _ _ _ Hsel Hrep).
  set (chunks := default [] (r_chunks r)) in *.
  set (loaded := item_chunks (item_id existing) db) in *.
  apply truthy_true in Htruthy as (k & Hk & Hne).
  rewrite Hk in Hheld. cbn [default from_option id] in Hheld.
  assert (Hhit : ∀ d0, target (existing_keys_of loaded) d0 = Some (chunk_id c)
                       ↔ cd_key d0 = chunk_key c).
  { intros d0. split.
    - intros Ht. by apply (target_loaded _ _ Hnd) in Ht as [_ ?].
    - intros Hd. apply target_Some. exists k. split; [congruence|done]. }
  assert (Hmerged : merged (existing_keys_of loaded) 0 chunks c = assign i d c).
  { unfold merged.
    destruct (last_hit _ _ _ _) as [[i' d']|] eqn:E.
    - pose proof (last_hit_is_last _ _ _ _ _ _ E i d Hi) as Hle.
      apply last_hit_target in E as (Ht & Hl & _).
      rewrite Nat.sub_0_r in Hl.
      assert (i' = i) as ->.
      { apply Nat.le_antisymm.
        - apply (Hlast i' d' Hl). by apply Hhit.
        - apply Hle. by apply Hhit. }
      congruence.
    - rewrite last_hit_None in E. destruct (E d).
      + by apply list_elem_of_lookup_2 in Hi.
      + by apply Hhit. }
  assert (Hloud : ¬ quiet (item_id existing) chunks db).
  { intros [_ Hfix]. rewrite Forall_forall in Hfix.
    specialize (Hfix c Hc). fold loaded in Hfix. congruence. }
  by destruct (merge_path_loud now existing r db Hloud)
    as (? & ? & ? & ? & ? & _).
Qed.

Lemma merge_raises_on_changed_chunk_witness :
  let p := @add_item (Sample.services false) 9 Sample2.edited Sample.stored in
  p.2 = Raised OperationalError ∧
  item_tbl p.1 = item_tbl Sample.stored ∧
  chunk_tbl p.1 = chunk_tbl Sample.stored ∧
  tag_tbl p.1 = tag_tbl Sample.stored ∧
  chunks_fts p.1 = chunks_fts Sample.stored.
Proof.
  apply (@merge_raises_on_changed_chunk (Sample.services false) 9
           Sample2.edited Sample.stored
           (mkItem 1 "mem://a" (Some "A") (Some "note") (Some "ctx") None 5 5)
           (mkChunk 1 1 (Some "p1") 0 "alpha" None) 0
           (mkChunkData "alpha, revised" (Some "p1") None)).
  - reflexivity.
  - reflexivity.
  - by_eval.
  - by_eval.
  - reflexivity.
  - by_eval.
  - reflexivity.
  - reflexivity.
  - intros [|[|j]] d' Hj Hd'; [lia| |discriminate Hj].
    injection Hj as <-. discriminate Hd'.
  - discriminate.
Defined.

(** X27: [add_item] with replace on a stored item that has chunks
    replaces nothing: [delete_item] raises inside it.  The embedding rows
    of the item's chunks are gone, the item row, the chunk rows, the tag
    rows and the FTS rows are as before the call, and nothing of the
    record is stored. *)
Theorem replace_raises_on_chunks `{Collaborators} now r db existing :
  select_item (r_source_uri r) db = Some existing →
  r_replace r = true →
  item_chunks (item_id existing) db ≠ [] →
  let p := add_item now r db in
  p.2 = Raised OperationalError ∧
  item_tbl p.1 = item_tbl db ∧ chunk_tbl p.1 = chunk_tbl db ∧
  tag_tbl p.1 = tag_tbl db ∧ chunks_fts p.1 = chunks_fts db ∧
  ∀ c, c ∈ item_chunks (item_id existing) db →
       chunk_embeddings p.1 !! chunk_id c = None.
Proof.
  intros Hsel Hrep Hsome p. subst p.
  rewrite (add_item_replace _ _ _ _ Hsel Hrep).
  destruct (delete_item_cases _ _ _ Hsel)
    as [(Hnone & _)|(_ & -> & ? & ? & ? & ? & _ & _ & He)]; [done|].
  cbn [fst snd]. repeat split; try done.
  intros c Hc. rewrite He, decide_True; [done|].
  apply list_elem_of_fmap. eauto.
Qed.

Lemma replace_raises_on_chunks_witness :
  let p := @add_item (Sample.services false) 9 Sample2.replacing
             Sample2.both in
  p.2 = Raised OperationalError ∧
  item_tbl p.1 = item_tbl Sample2.both ∧
  chunk_tbl p.1 = chunk_tbl Sample2.both ∧
  tag_tbl p.1 = tag_tbl Sample2.both ∧
  chunks_fts p.1 = chunks_fts Sample2.both ∧
  ∀ c, c ∈ item_chunks 1 Sample2.both → chunk_embeddings p.1 !! chunk_id c = None.
Proof.
  apply (@replace_raises_on_chunks (Sample.services false) 9 Sample2.replacing
           Sample2.both
           (mkItem 1 "mem://a" (Some "A") (Some "note") (Some "ctx") None 5 5)).
  - reflexivity.
  - reflexivity.
  - discriminate.
Defined.

(** X28: when a merge returns, the stored item carries exactly the
    record's title, source_type, context and expires_at, [None] included
    (a field the record leaves out erases what was stored); it keeps its
    id and creation time, and is stamped with the time of the call. *)
Theorem returned_merge_sets_metadata `{Collaborators} now r db existing v :
  select_item (r_source_uri r) db = Some existing →
  r_replace r = false →
  (add_item now r db).2 = Returned v →
  ∃ item, select_item (r_source_uri r) (add_item now r db).1 = Some item ∧
    view_item v = item ∧
    item_id item = item_id existing ∧
    item_created_at item = item_created_at existing ∧
    item_updated_at item = now ∧
    item_title item = r_title r ∧
    item_source_type item = r_source_type r ∧
    item_context item = r_context r ∧
    item_expires_at item = r_expires_at r.
Proof.
  intros Hsel Hrep Hret.
  rewrite (add_item_merge _ _ _ _ Hsel Hrep) in Hret |- *.
  apply merge_path_returned in Hret as (-> & Hq & [rows Hrows]).
  destruct (merge_path_flushed now existing r db rows Hq Hrows) as (Hitems & _).
  exists (set_metadata now r existing). split; [|done].
  eapply select_item_updated; [exact Hsel| |exact Hitems].
  by apply select_item_Some in Hsel as [_ ?].
Qed.

Lemma returned_merge_sets_metadata_witness :
  ∃ item,
    select_item "mem://a"
      (@add_item (Sample.services true) 9 Sample.extended Sample.stored).1
    = Some item ∧
    item_id item = 1 ∧ item_created_at item = 5%Z ∧
    item_updated_at item = 9%Z ∧
    item_title item = Some "A2" ∧ item_source_type item = Some "note" ∧
    item_context item = None ∧ item_expires_at item = None.
Proof.
  edestruct (@returned_merge_sets_metadata (Sample.services true) 9
               Sample.extended Sample.stored
               (mkItem 1 "mem://a" (Some "A") (Some "note") (Some "ctx")
                       None 5 5))
    as (item & Hsel & _ & Hrest).
  - reflexivity.
  - reflexivity.
  - vm_compute. reflexivity.
  - exists item. split; [exact Hsel|exact Hrest].
Defined.

(** ** Bootstrap *)

Lemma int_str n : Engine.int (Engine.str n) = Returned n.
Proof.
  unfold Engine.int, Engine.str.
  rewrite NilZero.usu.
  - by rewrite DecimalNat.Unsigned.of_to.
  - rewrite <- (DecimalNat.Unsigned.of_to n) at 1.
    rewrite DecimalNat.Unsigned.to_of. apply DecimalFacts.unorm_nonnil.
Qed.

(** X11: once [init_db] has succeeded, every later [init_db] succeeds
    without consulting the provider and changes nothing, whichever
    provider and model are configured by then: the dimension setting that
    was written is read back as the number it was written from. *)
Theorem init_db_settles (first later : Collaborators) c c1 :
  @Engine.init_db first c = (c1, Returned ()) →
  @Engine.init_db later c1 = (c1, Returned ()).
Proof.
  unfold Engine.init_db, Engine.load_dimension.
  destruct (Engine.cat_setting c !! "embed_dimension") as [value|] eqn:Hdim.
  - destruct (Engine.int value) as [d|] eqn:Hint; [|done].
    intros [= <-]. cbn [Engine.cat_setting Engine.cat_vec].
    rewrite Hdim, Hint. cbn [Engine.cat_setting Engine.cat_vec].
    by destruct (Engine.cat_vec c).
  - destruct (@get_dimension first) as [d|]; [|done].
    destruct (Engine.cat_setting c !! "embed_model"); [done|].
    intros [= <-]. cbn [Engine.cat_setting Engine.cat_vec].
    rewrite lookup_insert_eq, int_str.
    cbn [Engine.cat_setting Engine.cat_vec].
    by destruct (Engine.cat_vec c).
Qed.

Lemma init_db_settles_witness :
  @Engine.init_db Sample2.offline
    (Engine.mkCatalog
       (<["embed_dimension" := "2"]> (<["embed_model" := "nomic-embed-text"]> ∅))
       (Some 2) true)
  = (Engine.mkCatalog
       (<["embed_dimension" := "2"]> (<["embed_model" := "nomic-embed-text"]> ∅))
       (Some 2) true, Returned ()).
Proof.
  apply (init_db_settles (Sample.services false) Sample2.offline
           (Engine.mkCatalog ∅ None false)).
  reflexivity.
Defined.

(** X12: [init_db] either raises and leaves the catalog as it found it,
    or returns; and when it returns after creating the vector table, the
    table has the dimension that the setting embed_dimension then records
    (read as a number), and the keyword index exists. *)
Theorem init_db_outcomes `{Collaborators} c :
  (∀ e, (Engine.init_db c).2 = Raised e → (Engine.init_db c).1 = c) ∧
  (Engine.cat_vec c = None → (Engine.init_db c).2 = Returned () →
   ∃ value d,
     Engine.cat_setting (Engine.init_db c).1 !! "embed_dimension" = Some value ∧
     Engine.int value = Returned d ∧
     Engine.cat_vec (Engine.init_db c).1 = Some d ∧
     Engine.cat_fts (Engine.init_db c).1 = true).
Proof.
  unfold Engine.init_db, Engine.load_dimension.
  destruct (Engine.cat_setting c !! "embed_dimension") as [value|] eqn:Hdim.
  - destruct (Engine.int value) as [d|] eqn:Hint; [|done].
    split; [done|]. intros Hvec _. exists value, d.
    cbn. by rewrite Hvec.
  - destruct get_dimension as [d|]; [|done].
    destruct (Engine.cat_setting c !! "embed_model"); [done|].
    split; [done|]. intros Hvec _. exists (Engine.str d), d.
    cbn. rewrite lookup_insert_eq, Hvec. by rewrite int_str.
Qed.

Lemma init_db_outcomes_witness :
  (∀ e, (@Engine.init_db Sample.wide (Engine.mkCatalog ∅ None false)).2
        = Raised e →
        (@Engine.init_db Sample.wide (Engine.mkCatalog ∅ None false)).1
        = Engine.mkCatalog ∅ None false) ∧
  ∃ value d,
    Engine.cat_setting
      (@Engine.init_db Sample.wide (Engine.mkCatalog ∅ None false)).1
    !! "embed_dimension" = Some value ∧
    Engine.int value = Returned d ∧
    Engine.cat_vec (@Engine.init_db Sample.wide (Engine.mkCatalog ∅ None false)).1
    = Some d ∧
    Engine.cat_fts (@Engine.init_db Sample.wide (Engine.mkCatalog ∅ None false)).1
    = true.
Proof.
  destruct (@init_db_outcomes Sample.wide (Engine.mkCatalog ∅ None false))
    as [Hraise Hret].
  split; [exact Hraise|]. apply Hret; reflexivity.
Defined.

(** ** Statistics *)

(** X13: in the answer of [get_stats], a source type with a name of its
    own (neither empty nor "unknown") is listed with the number of items
    that carry it, and is not listed when no item carries it; this holds
    whatever order the engine yields the groups in. *)
Theorem get_stats_counts_named_types group_order db k :
  (∀ l, group_order l ≡ₚ l) →
  k ≠ "" → k ≠ "unknown" →
  stats_source_types (get_stats group_order db) !! k
  = if decide (items_typed (Some k) db = 0) then None
    else Some (items_typed (Some k) db).
Proof.
  intros Hperm Hne Hk.
  rewrite source_types_tally, tally_named by done.
  destruct (decide (Some k ∈ _)) as [Hin|Hin].
  - apply (elem_of_groups _ Hperm) in Hin. by rewrite decide_False.
  - rewrite decide_True; [done|].
    destruct (decide (items_typed (Some k) db = 0)); [done|].
    exfalso. by apply Hin, (elem_of_groups _ Hperm).
Qed.

Lemma get_stats_counts_named_types_witness :
  stats_source_types (get_stats (λ l, l) Sample2.both) !! "note"
  = if decide (items_typed (Some "note") Sample2.both = 0) then None
    else Some (items_typed (Some "note") Sample2.both).
Proof.
  apply (get_stats_counts_named_types (λ l, l) Sample2.both "note").
  - reflexivity.
  - discriminate.
  - discriminate.
Defined.

(** X14: the entry "unknown" of [get_stats] stands for the items without
    a source type, with the empty source type and with the source type
    "unknown", but holds the count of only one of these groups (the one
    the engine yields last).  So the counts by source type add up to the
    number of items less the groups that were overwritten: the sum of the
    counts plus the items of the three groups is the number of items plus
    the entry "unknown". *)
Theorem get_stats_totals group_order db :
  (∀ l, group_order l ≡ₚ l) →
  let s := get_stats group_order db in
  let unnamed := items_typed None db + items_typed (Some "") db
                 + items_typed (Some "unknown") db in
  stats_items s = length (item_tbl db) ∧
  dict_sum (stats_source_types s) + unnamed
  = stats_items s + default 0 (stats_source_types s !! "unknown") ∧
  match stats_source_types s !! "unknown" with
  | None => unnamed = 0
  | Some u =>
      u ≠ 0 ∧
      (u = items_typed None db ∨ u = items_typed (Some "") db ∨
       u = items_typed (Some "unknown") db)
  end.
Proof.
  intros Hperm s unnamed. subst s unnamed. split; [done|].
  rewrite source_types_tally. cbn [get_stats stats_items].
  pose proof (tally_sum (λ st, items_typed st db) _ (groups_NoDup _ Hperm db))
    as Hsum.
  rewrite (groups_total _ Hperm), (groups_unknown_total _ Hperm) in Hsum.
  split; [exact Hsum|].
  rewrite tally_unknown.
  destruct (last _) as [st|] eqn:Hlast; simpl.
  - apply last_Some_elem_of, list_elem_of_filter in Hlast as [Hcls Hin].
    split; [by apply (elem_of_groups _ Hperm)|].
    apply or_unknown_class in Hcls.
    rewrite !elem_of_cons, elem_of_nil in Hcls.
    destruct Hcls as [->|[->|[->|[]]]]; tauto.
  - apply last_None in Hlast.
    rewrite <- (groups_unknown_total _ Hperm), Hlast. done.
Qed.

Lemma get_stats_totals_witness :
  let s := get_stats (λ l, l) Sample2.both in
  let unnamed := items_typed None Sample2.both
                 + items_typed (Some "") Sample2.both
                 + items_typed (Some "unknown") Sample2.both in
  stats_items s = length (item_tbl Sample2.both) ∧
  dict_sum (stats_source_types s) + unnamed
  = stats_items s + default 0 (stats_source_types s !! "unknown") ∧
  match stats_source_types s !! "unknown" with
  | None => unnamed = 0
  | Some u =>
      u ≠ 0 ∧
      (u = items_typed None Sample2.both ∨
       u = items_typed (Some "") Sample2.both ∨
       u = items_typed (Some "unknown") Sample2.both)
  end.
Proof.
  apply (get_stats_totals (λ l, l) Sample2.both). reflexivity.
Defined.

(** ** The command [ingest] *)

(** X15: a line that is not JSON, is no JSON object, or is an object
    without the key source_uri makes the loop of [ingest] crash at that
    line (with JSONDecodeError, AttributeError or KeyError, the last one
    after "Ingesting unknown..." was written to standard error): no count
    is printed and the lines after it are never read, but every record
    before it stays ingested; the store is the one the lines before it
    left. *)
Theorem ingest_crashes_at_bad_line `{Collaborators} clock replace
    good bad rest count err db db1 err1 n :
  Cli.ingest_lines clock replace good count err db
  = (db1, err1, Cli.Printed n) →
  bad = Cli.NotJson ∨ bad = Cli.NotObject ∨
  (∃ data, bad = Cli.Object data ∧ Cli.j_source_uri data = None) →
  Cli.ingest_lines clock replace (good ++ bad :: rest) count err db
  = (db1,
     match bad with
     | Cli.Object _ => err1 ++ ["Ingesting unknown..."]
     | _ => err1
     end,
     Cli.Crashed match bad with
                 | Cli.NotJson => Cli.JSONDecodeError
                 | Cli.NotObject => Cli.AttributeError
                 | _ => Cli.KeyError "source_uri"
                 end).
Proof.
  intros Hgood Hbad. rewrite ingest_lines_app, Hgood.
  destruct Hbad as [->|[->|(data & -> & Huri)]]; cbn [Cli.ingest_lines].
  - done.
  - done.
  - by rewrite Huri.
Qed.

Lemma ingest_crashes_at_bad_line_witness :
  @Cli.ingest_lines (Sample.services false) Sample3.clock false
    (Sample3.stream ++ Cli.Object Sample3.nameless :: Sample3.stream)
    0 [] Sample3.booted
  = ((@Cli.ingest_lines (Sample.services false) Sample3.clock false
        Sample3.stream 0 [] Sample3.booted).1.1,
     ["Ingesting file:///a.md..."; "Ingesting file:///b.md..."]
     ++ ["Ingesting unknown..."],
     Cli.Crashed (Cli.KeyError "source_uri")).
Proof.
  apply (@ingest_crashes_at_bad_line (Sample.services false) Sample3.clock
           false Sample3.stream (Cli.Object Sample3.nameless) Sample3.stream
           0 [] Sample3.booted _
           ["Ingesting file:///a.md..."; "Ingesting file:///b.md..."] 2).
  - vm_compute. reflexivity.
  - right. right. by eexists.
Defined.

(** X16: when the loop of [ingest] runs to its end, the count it prints
    is the number of lines that are not blank, one line was written to
    standard error for each of them, and every line was blank or a JSON
    object with a source_uri. *)
Theorem ingest_counts_lines `{Collaborators} clock replace lines db
    db' err' n :
  Cli.ingest_lines clock replace lines 0 [] db = (db', err', Cli.Printed n) →
  n = length (filter (λ l, is_blank l = false) lines) ∧
  length err' = n ∧
  ∀ l, l ∈ lines →
    l = Cli.Blank ∨
    ∃ data source_uri, l = Cli.Object data ∧
                       Cli.j_source_uri data = Some source_uri.
Proof.
  intros (-> & -> & Hall)%ingest_lines_count. done.
Qed.

Lemma ingest_counts_lines_witness :
  2 = length (filter (λ l, is_blank l = false) Sample3.stream) ∧
  length ["Ingesting file:///a.md..."; "Ingesting file:///b.md..."] = 2 ∧
  ∀ l, l ∈ Sample3.stream →
    l = Cli.Blank ∨
    ∃ data source_uri, l = Cli.Object data ∧
                       Cli.j_source_uri data = Some source_uri.
Proof.
  apply (@ingest_counts_lines (Sample.services false) Sample3.clock false
           Sample3.stream Sample3.booted
           (@Cli.ingest_lines (Sample.services false) Sample3.clock false
              Sample3.stream 0 [] Sample3.booted).1.1).
  vm_compute. reflexivity.
Defined.

(** X17: in [ingest] the flag --replace only stands in for records that
    do not say: when every record on standard input carries its own
    "replace" (as the records of the extractors do), the command does the
    same with the flag as without it. *)
Theorem ingest_flag_yields_to_records `{Collaborators} clock text stdin db :
  truthy text = false →
  (∀ data, Cli.Object data ∈ Cli.stdin_lines stdin →
           is_Some (Cli.j_replace data)) →
  Cli.ingest clock text true stdin db = Cli.ingest clock text false stdin db.
Proof.
  intros Htext Hall. unfold Cli.ingest.
  destruct (Cli.bootstrap db) as [db0 [[]|e]]; [|done].
  rewrite Htext. by rewrite ingest_lines_flag.
Qed.

Lemma ingest_flag_yields_to_records_witness :
  @Cli.ingest (Sample.services false) Sample3.clock None true
    (Cli.mkStdin "" Sample3.stream) Sample3.booted
  = @Cli.ingest (Sample.services false) Sample3.clock None false
      (Cli.mkStdin "" Sample3.stream) Sample3.booted.
Proof.
  apply (@ingest_flag_yields_to_records (Sample.services false) Sample3.clock
           None (Cli.mkStdin "" Sample3.stream) Sample3.booted).
  - reflexivity.
  - intros data Hin. cbn in Hin.
    apply elem_of_cons in Hin as [Hin|Hin]; [injection Hin as ->; by eexists|].
    apply elem_of_cons in Hin as [Hin|Hin]; [discriminate Hin|].
    apply elem_of_cons in Hin as [Hin|Hin]; [injection Hin as ->; by eexists|].
    by apply elem_of_nil in Hin.
Defined.

(** X18: [ingest --text U] on a bootstrapped store, with text on
    standard input and a provider that answers, ingests one chunk without
    a key under the source_uri U and prints the number of chunks the item
    then has.  When U is not stored that is 1; when U is stored with
    chunks that all lack a key and --replace is not given, it is one more
    than the item had. *)
Theorem ingest_text_reports_chunks `{Collaborators} clock text replace stdin
    db value d :
  wf_db db → uri_unique db → provider_ok (vec_dim db) →
  setting_tbl db !! "embed_dimension" = Some value →
  Engine.int value = Returned d →
  text ≠ "" →
  (∀ existing c, select_item text db = Some existing →
     c ∈ item_chunks (item_id existing) db →
     replace = false ∧ truthy (chunk_key c) = false) →
  let out := Cli.ingest clock (Some text) replace stdin db in
  out.1.2 = ["Ingesting text for " +:+ text +:+ "..."] ∧
  out.2
  = Cli.Printed
      (Cli.TextReport text
         match select_item text db with
         | Some existing => length (item_chunks (item_id existing) db) + 1
         | None => 1
         end).
Proof.
  intros Hwf Hu Hprov Hdim Hint Htext Hcase out. subst out. unfold Cli.ingest.
  rewrite (bootstrap_settled db value d Hdim Hint).
  assert (truthy (Some text) = true) as -> by (by apply truthy_Some).
  cbn [default from_option id].
  set (r := mkRecord text None None None _ None None replace).
  assert (Htags : tags_accepted (default [] (r_tags r)))
    by (intros _; constructor).
  assert (Hins : ∀ db0, wf_db db0 → vec_dim db0 = vec_dim db →
            ∃ v, insert_path (clock 0) r db0 = ((insert_path (clock 0) r db0).1,
                                                Returned v) ∧
                 item_source_uri (view_item v) = text ∧
                 length (view_chunks v) = 1).
  { intros db0 Hwf0 Hd0. rewrite <- Hd0 in Hprov.
    destruct (insert_path_returns (clock 0) r db0 Hwf0 Htags Hprov) as [Hret _].
    destruct (insert_path_committed (clock 0) r db0 Htags (tag_fk_fresh db0 Hwf0))
      as (_ & Hc & _).
    eexists. split; [by rewrite <- Hret, <- surjective_pairing|].
    cbn [load_view view_item view_chunks inserted_item item_source_uri item_id].
    by rewrite (item_chunks_inserted r db0 Hwf0 _ Hc). }
  destruct (select_item text db) as [existing|] eqn:Hsel.
  - destruct (item_chunks (item_id existing) db) as [|c0 cs] eqn:Hloaded.
    + (* nothing to keep: with or without replace one chunk is left *)
      destruct replace eqn:Hrep.
      * rewrite (add_item_replace (clock 0) r db existing Hsel eq_refl).
        cbn [r_source_uri r].
        destruct (delete_item_cases _ _ _ Hsel)
          as [(_ & -> & _)|(Hsome & _)]; [|done].
        by destruct (Hins (delete_item text db).1) as (v & -> & -> & ->);
          [by apply delete_item_wf|apply delete_item_dim|].
      * rewrite (add_item_merge (clock 0) r db existing Hsel eq_refl).
        assert (Hq : quiet (item_id existing) (default [] (r_chunks r)) db).
        { apply keyless_quiet. rewrite Hloaded. intros c Hc.
          by apply elem_of_nil in Hc. }
        pose proof (merge_path_returns (clock 0) existing r db Hq Htags Hprov)
          as Hret.
        destruct (merge_path_committed (clock 0) existing r db Hq Htags)
          as (_ & _ & Hc & _).
        specialize (Hc (wf_chunk_ids _ Hwf)).
        rewrite (surjective_pairing (merge_path (clock 0) existing r db)), Hret.
        cbn [fst snd load_view view_item view_chunks set_metadata
             item_source_uri item_id].
        rewrite (item_chunks_merged_keyless _ _ _ _ (wf_chunk_ids _ Hwf) Hc).
        rewrite Hloaded. cbn.
        by apply select_item_Some in Hsel as [_ ->].
    + assert (replace = false) as ->.
      { apply (Hcase existing c0 eq_refl). rewrite Hloaded. left. }
      rewrite (add_item_merge (clock 0) r db existing Hsel eq_refl).
      assert (Hq : quiet (item_id existing) (default [] (r_chunks r)) db).
      { apply keyless_quiet. intros c Hc. by apply (Hcase existing c eq_refl). }
      pose proof (merge_path_returns (clock 0) existing r db Hq Htags Hprov)
        as Hret.
      destruct (merge_path_committed (clock 0) existing r db Hq Htags)
        as (_ & _ & Hc & _).
      specialize (Hc (wf_chunk_ids _ Hwf)).
      rewrite (surjective_pairing (merge_path (clock 0) existing r db)), Hret.
      cbn [fst snd load_view view_item view_chunks set_metadata
           item_source_uri item_id].
      rewrite (item_chunks_merged_keyless _ _ _ _ (wf_chunk_ids _ Hwf) Hc).
      rewrite filter_all.
      2: { intros c Hc'. by apply (Hcase existing c eq_refl). }
      rewrite length_app, Hloaded. cbn [length].
      by apply select_item_Some in Hsel as [_ ->].
  - rewrite (add_item_insert (clock 0) r db Hsel).
    by destruct (Hins db Hwf eq_refl) as (v & -> & -> & ->).
Qed.

Lemma ingest_text_reports_chunks_witness :
  let out := @Cli.ingest (Sample.services false) Sample3.clock
               (Some "mem://t") false (Cli.mkStdin "body" []) Sample3.booted in
  out.1.2 = ["Ingesting text for " +:+ "mem://t" +:+ "..."] ∧
  out.2
  = Cli.Printed
      (Cli.TextReport "mem://t"
         match select_item "mem://t" Sample3.booted with
         | Some existing =>
             length (item_chunks (item_id existing) Sample3.booted) + 1
         | None => 1
         end).
Proof.
  apply (@ingest_text_reports_chunks (Sample.services false) Sample3.clock
           "mem://t" false (Cli.mkStdin "body" []) Sample3.booted "2" 2).
  - split; simpl.
    + constructor.
    + constructor.
    + intros c Hc. by apply elem_of_nil in Hc.
    + intros t Ht. by apply elem_of_nil in Ht.
    + intros k [e He]. by rewrite lookup_empty in He.
  - constructor.
  - apply (provider_ok_sample false).
  - reflexivity.
  - reflexivity.
  - discriminate.
  - intros existing c Hsel. discriminate Hsel.
Defined.

(** ** The extractors *)

(** X19: whatever the text, and whatever the Unicode database says
    about case and whitespace, [_slugify] answers a key that [add_item]
    can match on: it is not empty, has at most 50 characters, all of them
    among a-z, 0-9 and '-', does not start with '-' and has no two '-' in
    a row. *)
Theorem slugify_answers_a_key isspace lower text :
  let slug := Extract._slugify isspace lower text in
  slug ≠ [] ∧ length slug ≤ 50 ∧ Forall slug_char slug ∧
  head slug ≠ Some Extract.dash ∧ well_dashed slug.
Proof. apply slugify_key. Qed.

(** X20: whatever the parts [re.split] cut the file into, every chunk
    of [_parse_markdown] has a key that is not empty and a text that is not
    blank; every chunk but the first stands under a heading (its meta
    names the heading, its key is the slug of the heading, its text begins
    with the heading); and a file whose content is not blank gives at
    least one chunk. *)
Theorem parse_markdown_chunks isspace lower parts content :
  let chunks := Extract._parse_markdown isspace lower parts content in
  (∀ c, c ∈ chunks →
        Extract.md_key c ≠ [] ∧
        Extract.strip isspace (Extract.md_text c) ≠ []) ∧
  (∀ i c, chunks !! S i = Some c → headed isspace lower c) ∧
  (Extract.strip isspace content ≠ [] → chunks ≠ []).
Proof. apply parse_markdown_spec. Qed.

(** X21: when [_build_turns] returns, the turn at position i of its
    answer has the key "turn-i" and the turn_index i in its meta, and a
    text that begins with "User: " or "Assistant: "; so the keys of the
    turns of a conversation are pairwise distinct. *)
Theorem build_turns_numbers_the_turns str_of messages turns :
  Extract._build_turns str_of messages = Extract.Ok turns →
  (∀ i t, turns !! i = Some t →
     Extract.turn_key t = Extract.py "turn-" ++ Extract.str_of_nat i ∧
     Extract.turn_index t = i ∧
     (Extract.py "User: " `prefix_of` Extract.turn_text t ∨
      Extract.py "Assistant: " `prefix_of` Extract.turn_text t)) ∧
  NoDup (Extract.turn_key <$> turns).
Proof.
  intros Hret. pose proof (build_turns_spec str_of messages turns Hret) as Hall.
  split; [exact Hall|].
  apply NoDup_alt. intros i j key.
  rewrite !list_lookup_fmap.
  destruct (turns !! i) as [ti|] eqn:Hi; [|done].
  destruct (turns !! j) as [tj|] eqn:Hj; [|done].
  simpl. intros [= <-] [= Hkey].
  destruct (Hall i ti Hi) as (Hki & _), (Hall j tj Hj) as (Hkj & _).
  apply turn_key_inj. congruence.
Qed.

(** X22: [_build_turns] looks at no message but those of type "user"
    and "assistant": taking every other dict out of the list changes
    neither what it returns nor whether it raises. *)
Theorem build_turns_skips_other_types str_of messages :
  Extract._build_turns str_of (filter (λ msg, is_dialogue msg = true) messages)
  = Extract._build_turns str_of messages.
Proof.
  unfold Extract._build_turns. by rewrite turn_loop_filter.
Qed.

Lemma build_turns_numbers_the_turns_witness :
  (∀ i t, Sample4.talk_turns !! i = Some t →
     Extract.turn_key t = Extract.py "turn-" ++ Extract.str_of_nat i ∧
     Extract.turn_index t = i ∧
     (Extract.py "User: " `prefix_of` Extract.turn_text t ∨
      Extract.py "Assistant: " `prefix_of` Extract.turn_text t)) ∧
  NoDup (Extract.turn_key <$> Sample4.talk_turns).
Proof.
  apply (build_turns_numbers_the_turns Sample4.str_of Sample4.talk).
  vm_compute. reflexivity.
Defined.

(** X23: [_build_turns] raises AttributeError at the first message that
    is no dict, or that is a dict of type "user" or "assistant" whose
    "message" is no dict, whatever follows it; the messages before it that
    it could work through do not help. *)
Theorem build_turns_raises_on_misshapen str_of good bad rest turns :
  Extract._build_turns str_of good = Extract.Ok turns →
  misshapen bad →
  Extract._build_turns str_of (good ++ bad :: rest)
  = Extract.Raise Extract.AttributeError.
Proof.
  unfold Extract._build_turns. rewrite turn_loop_app.
  destruct (Extract.turn_loop str_of _ good) as [s|]; [|done].
  intros _ Hbad. cbn [Extract.turn_loop].
  assert (Extract.turn_step str_of s bad = Extract.Raise Extract.AttributeError)
    as ->; [|done].
  destruct bad as [| | | | |members]; try done.
  destruct Hbad as [Hd Hm]. unfold Extract.turn_step. cbn [Extract.get].
  simpl in Hd. rewrite Hd.
  destruct (Extract.lookup_member (Extract.py "message") members)
    as [[| | | | |]|]; done.
Qed.

Lemma build_turns_raises_on_misshapen_witness :
  Extract._build_turns Sample4.str_of
    (Sample4.talk ++ Sample4.crooked :: Sample4.talk)
  = Extract.Raise Extract.AttributeError.
Proof.
  apply (build_turns_raises_on_misshapen Sample4.str_of Sample4.talk
           Sample4.crooked Sample4.talk Sample4.talk_turns).
  - vm_compute. reflexivity.
  - split; [reflexivity|exact I].
Defined.
